(** * minicel: the formula parser, the expression arena and the cell evaluator

    A shallow embedding of [src/main.c].  Every C function that takes part in
    parsing a formula or in evaluating a cell is a Rocq function of the same
    name; the structs are records, the tagged unions are inductive types,
    [size_t] is [Z] with its wrap-around written out, [double] is the kernel's
    binary64 [float], and a pointer into the arena or into the table is the
    index of the slot it points to.

    The process can end in three ways that do not return a value: [exit(1)]
    after a diagnostic, [abort()] from a failed [assert], and undefined
    behaviour.  The type [outcome] has one constructor for a returned value
    and one for those ([Stop]), and a third for a recursion that ran out of
    fuel, which is a matter of the model only.

    The platform is taken to have 64-bit [size_t] and [long]; the assertions
    are compiled in (the source defines no [NDEBUG]); [realloc] succeeds. *)

From Stdlib Require Import ZArith List String Ascii Bool Lia Floats.
Import ListNotations.

Local Open Scope Z_scope.

(** ** Ways the run ends without a value *)

Inductive Failure : Type :=
| ERROR_unknown_token (c : ascii)  (* "ERROR: unknown token starts with `%c`" *)
| ERROR_expected_primary           (* "expected primary expression token, but got end of input" *)
| ERROR_cell_capital               (* "cell reference must start with capital letter" *)
| ERROR_cell_row                   (* "cell reference must have an integer as the row number" *)
| ERROR_text_in_math               (* "text cells may not participate in math expressions" *)
| ERROR_circular                   (* "circular dependency is detected!" *)
| ASSERT_items_null                (* assert(eb->items == NULL) *)
| ASSERT_index                     (* assert(index < eb->count) *)
| ASSERT_row                       (* assert(row < table->rows) *)
| ASSERT_col                       (* assert(col < table->cols) *)
| UNDEFINED.                       (* a read of indeterminate or unallocated memory *)

Inductive outcome (A : Type) : Type :=
| Done (a : A)
| Stop (why : Failure)
| OutOfFuel.

Arguments Done {A} a.
Arguments Stop {A} why.
Arguments OutOfFuel {A}.

Definition bind {A B : Type} (m : outcome A) (k : A -> outcome B) : outcome B :=
  match m with
  | Done a => k a
  | Stop why => Stop why
  | OutOfFuel => OutOfFuel
  end.

Declare Scope outcome_scope.
Delimit Scope outcome_scope with outcome.
Notation "x <- m ;; k" := (bind m (fun x => k))
  (at level 100, m at next level, right associativity) : outcome_scope.
Notation "' p <- m ;; k" := (bind m (fun x => match x with p => k end))
  (at level 100, p pattern, m at next level, right associativity) : outcome_scope.
Local Open Scope outcome_scope.

(** [assert(b)] followed by the rest of the function. *)
Definition assert (b : bool) (why : Failure) : outcome unit :=
  if b then Done tt else Stop why.

(** ** [size_t] *)

(** The number of bits of a [size_t]. *)
Definition SIZE_WIDTH : Z := 64.

(** The value a [size_t] holds after an arithmetic result [z] is stored in it. *)
Definition size_t (z : Z) : Z := z mod 2 ^ SIZE_WIDTH.

(** ** Expressions and the arena ([Expr], [Expr_Buffer]) *)

Definition Expr_Index : Type := Z.

(** [struct Expr]: the kind and the member of the union that the kind selects. *)
Inductive Expr : Type :=
| EXPR_KIND_NUMBER (number : float)
| EXPR_KIND_CELL (row col : Z)
| EXPR_KIND_PLUS (lhs rhs : Expr_Index).

(** What [memset(expr, 0, sizeof(Expr))] leaves: kind 0 with all bits of the
    union clear, that is the number [+0.0]. *)
Definition Expr_zero : Expr := EXPR_KIND_NUMBER 0%float.

(** [items] holds the [capacity] slots of the block that [realloc] returned.
    A slot is [None] while its bytes are indeterminate (never written since
    the block was obtained). *)
Record Expr_Buffer : Type := mkExpr_Buffer {
  count : Z;
  capacity : Z;
  items : list (option Expr)
}.

(** [Expr_Buffer eb = {0}]. *)
Definition Expr_Buffer_zero : Expr_Buffer :=
  {| count := 0; capacity := 0; items := [] |}.

(** [sizeof(Expr)] where [size_t] and [double] have 8 bytes: the kind, padded
    to the alignment of the union, and the 16 bytes of the union. *)
Definition SIZEOF_EXPR : Z := 24.

(** [realloc(items, size)]: a block of [size] bytes, which has room for
    [size / sizeof(Expr)] whole slots; the slots of the old block that fit in
    keep their contents, the slots past the old block are indeterminate.  The
    allocator is taken to succeed (the source does not test its result). *)
Definition realloc (old : list (option Expr)) (size : Z) : list (option Expr) :=
  let n := Z.to_nat (size / SIZEOF_EXPR) in
  firstn n old ++ repeat None (n - List.length old)%nat.

Definition expr_buffer_alloc (eb : Expr_Buffer) : outcome (Expr_Index * Expr_Buffer) :=
  eb1 <- (if capacity eb <=? count eb then
            cap <- (if capacity eb =? 0 then
                      _ <- assert (match items eb with [] => true | _ => false end)
                                  ASSERT_items_null ;;
                      Done 128
                    else Done (size_t (capacity eb * 2))) ;;
            Done {| count := count eb; capacity := cap;
                    items := realloc (items eb) (size_t (SIZEOF_EXPR * cap)) |}
          else Done eb) ;;
  Done (count eb1,
        {| count := size_t (count eb1 + 1); capacity := capacity eb1; items := items eb1 |}).

(** [expr_buffer_at] returns the address of slot [index]; the address is
    modelled by the index. *)
Definition expr_buffer_at (eb : Expr_Buffer) (index : Expr_Index) : outcome Expr_Index :=
  _ <- assert (index <? count eb) ASSERT_index ;;
  Done index.

(** Reading [*expr] through a pointer obtained from [expr_buffer_at]. *)
Definition expr_load (eb : Expr_Buffer) (p : Expr_Index) : outcome Expr :=
  match nth_error (items eb) (Z.to_nat p) with
  | Some (Some e) => Done e
  | _ => Stop UNDEFINED
  end.

Fixpoint list_store {A : Type} (l : list A) (n : nat) (a : A) : list A :=
  match l, n with
  | [], _ => []
  | _ :: l', O => a :: l'
  | x :: l', S n' => x :: list_store l' n' a
  end.

(** Writing [*expr = e] through such a pointer (the [memset] and the member
    assignments of the parser put together). *)
Definition expr_store (eb : Expr_Buffer) (p : Expr_Index) (e : Expr) : Expr_Buffer :=
  {| count := count eb; capacity := capacity eb;
     items := list_store (items eb) (Z.to_nat p) (Some e) |}.

(** The arena as the program keeps it: the block has [capacity] slots, of
    which the first [count] are in use, and the size in bytes of a block of
    twice the capacity does not wrap. *)
Definition eb_wf (eb : Expr_Buffer) : Prop :=
  0 <= count eb <= capacity eb /\
  Z.of_nat (List.length (items eb)) = capacity eb /\
  SIZEOF_EXPR * (capacity eb * 2) < 2 ^ SIZE_WIDTH.

(** ** Characters (the C library's [ctype.h], "C" locale)

    The classes hold ASCII characters only; a [char] above 127 is in none. *)

Definition char_in (lo hi c : ascii) : bool :=
  (N_of_ascii lo <=? N_of_ascii c)%N && (N_of_ascii c <=? N_of_ascii hi)%N.

Definition isdigit (c : ascii) : bool := char_in "0" "9" c.
Definition isupper (c : ascii) : bool := char_in "A" "Z" c.
Definition islower (c : ascii) : bool := char_in "a" "z" c.
Definition isalnum (c : ascii) : bool := isdigit c || isupper c || islower c.

(** Space, and the controls from horizontal tab (9) to carriage return (13). *)
Definition isspace (c : ascii) : bool :=
  Ascii.eqb c " " || char_in (ascii_of_N 9) (ascii_of_N 13) c.

Definition is_name (c : ascii) : bool := isalnum c || Ascii.eqb c "_".

(** ** String views ([sv.h])

    A [String_View] is a window on the input; the model keeps the characters
    in view.  The views the parser advances are [string]s; a token is an
    [option string], [None] being [SV_NULL] (the view whose [data] is [NULL]
    and whose [count] is 0). *)

Definition sv_count (token : option string) : Z :=
  match token with
  | Some s => Z.of_nat (String.length s)
  | None => 0
  end.

Definition sv_chars (token : option string) : string :=
  match token with
  | Some s => s
  | None => EmptyString
  end.

(** Modelled from the spec: [sv_trim_left] of [sv.h], which is not among the
    source files; it drops the leading whitespace. *)
Fixpoint sv_trim_left (sv : string) : string :=
  match sv with
  | String c rest => if isspace c then sv_trim_left rest else sv
  | EmptyString => EmptyString
  end.

(** Modelled from the spec: [sv_trim_right] of [sv.h], which is not among the
    source files; it drops the trailing whitespace. *)
Fixpoint sv_trim_right (sv : string) : string :=
  match sv with
  | String c rest =>
      match sv_trim_right rest with
      | EmptyString => if isspace c then EmptyString else String c EmptyString
      | kept => String c kept
      end
  | EmptyString => EmptyString
  end.

(** Modelled from the spec: [sv_trim] of [sv.h], which is not among the
    source files; it skips the whitespace at both ends. *)
Definition sv_trim (sv : string) : string := sv_trim_right (sv_trim_left sv).

(** Modelled from the spec: [sv_chop_left] of [sv.h], which is not among the
    source files; it consumes the first [n] characters (all of them when
    there are fewer) and returns them; the second component is what is left
    in view. *)
Fixpoint sv_chop_left (sv : string) (n : nat) {struct n} : string * string :=
  match n, sv with
  | S n', String c rest =>
      let (chopped, left) := sv_chop_left rest n' in (String c chopped, left)
  | _, _ => (EmptyString, sv)
  end.

Fixpoint sv_run (predicate : ascii -> bool) (sv : string) : nat :=
  match sv with
  | String c rest => if predicate c then S (sv_run predicate rest) else O
  | EmptyString => O
  end.

(** Modelled from the spec: [sv_chop_left_while] of [sv.h], which is not among
    the source files; it consumes the maximal run of characters that satisfy
    the predicate. *)
Definition sv_chop_left_while (sv : string) (predicate : ascii -> bool) : string * string :=
  sv_chop_left sv (sv_run predicate sv).

(** [sv_eq(token, SV("+"))] guarded by [token.data != NULL]. *)
Definition is_plus_token (token : option string) : bool :=
  match token with
  | Some s => String.eqb s "+"
  | None => false
  end.

Definition next_token (source : string) : outcome (option string * string) :=
  let source := sv_trim source in
  match source with
  | EmptyString => Done (None, source)
  | String c _ =>
      if Ascii.eqb c "+" then
        let (token, source) := sv_chop_left source 1 in Done (Some token, source)
      else if is_name c then
        let (token, source) := sv_chop_left_while source is_name in Done (Some token, source)
      else Stop (ERROR_unknown_token c)
  end.

(** [tmp_cstr_fill] copies the view and appends a NUL; the C string that
    results ends at the first NUL, which is the appended one unless the view
    holds one itself. *)
Fixpoint tmp_cstr_fill (data : string) : string :=
  match data with
  | String c rest =>
      if Ascii.eqb c Ascii.zero then EmptyString else String c (tmp_cstr_fill rest)
  | EmptyString => EmptyString
  end.

(** ** The parser

    [strtod] and [strtol] belong to the C library, not to the program: the
    parser is stated over any pair of functions that return the converted
    value together with the number of characters consumed ([endptr - ptr]);
    [strtol] is the conversion in base 10. *)

Section Parser.

Variable strtod : string -> float * nat.
Variable strtol : string -> Z * nat.

Definition sv_strtod (sv : string) : float * bool :=
  let ptr := tmp_cstr_fill sv in
  let (result, endptr) := strtod ptr in
  (result, negb (endptr =? 0)%nat && (endptr =? String.length ptr)%nat).

Definition sv_strtol (sv : string) : Z * bool :=
  let ptr := tmp_cstr_fill sv in
  let (result, endptr) := strtol ptr in
  (result, negb (endptr =? 0)%nat && (endptr =? String.length ptr)%nat).

Definition parse_primary_expr (source : string) (eb : Expr_Buffer)
  : outcome (Expr_Index * string * Expr_Buffer) :=
  '(token, source) <- next_token source ;;
  if sv_count token =? 0 then Stop ERROR_expected_primary else
  '(expr_index, eb) <- expr_buffer_alloc eb ;;
  expr <- expr_buffer_at eb expr_index ;;
  let eb := expr_store eb expr Expr_zero in
  let (number, is_number) := sv_strtod (sv_chars token) in
  if is_number then
    Done (expr_index, source, expr_store eb expr (EXPR_KIND_NUMBER number))
  else
    match sv_chars token with
    | EmptyString => Stop UNDEFINED
    | String c _ =>
        if negb (isupper c) then Stop ERROR_cell_capital else
        let col := size_t (Z.of_N (N_of_ascii c) - Z.of_N (N_of_ascii "A")) in
        let (_, token) := sv_chop_left (sv_chars token) 1 in
        let (row, is_integer) := sv_strtol token in
        if negb is_integer then Stop ERROR_cell_row else
        Done (expr_index, source, expr_store eb expr (EXPR_KIND_CELL (size_t row) col))
    end.

Fixpoint parse_plus_expr (fuel : nat) (source : string) (eb : Expr_Buffer)
  : outcome (Expr_Index * string * Expr_Buffer) :=
  match fuel with
  | O => OutOfFuel
  | S fuel =>
      '(lhs_index, source, eb) <- parse_primary_expr source eb ;;
      '(token, source) <- next_token source ;;
      if is_plus_token token then
        '(rhs_index, source, eb) <- parse_plus_expr fuel source eb ;;
        '(expr_index, eb) <- expr_buffer_alloc eb ;;
        expr <- expr_buffer_at eb expr_index ;;
        Done (expr_index, source, expr_store eb expr (EXPR_KIND_PLUS lhs_index rhs_index))
      else Done (lhs_index, source, eb)
  end.

(** Every level of the recursion consumes a character of the source, so one
    more level than its length is never exhausted ([parse_plus_expr_fuel]). *)
Definition parse_expr (source : string) (eb : Expr_Buffer)
  : outcome (Expr_Index * string * Expr_Buffer) :=
  parse_plus_expr (S (String.length source)) source eb.

End Parser.

(** ** The C library's conversions ("C" locale)

    [strtod] reads what the C standard describes: white space, an optional
    sign, and then a decimal literal (digits with an optional point among
    them and an optional exponent), a hexadecimal one ([0x], hexadecimal
    digits with an optional point, an optional binary exponent), [inf] or
    [infinity], or [nan] with an optional sequence in parentheses, letter
    case ignored.  Its value is the literal's, rounded to the nearest binary64
    (ties to even), an infinity when it is out of range.  It gets the tokens
    of a formula, which are a single ["+"] or a run of letters, digits and
    underscores, and the trimmed fields of the table.

    [strtol] gets the rest of a token of a formula only, a run of letters,
    digits and underscores, in which there is no space and no sign.  [long]
    has 64 bits. *)

Module Libc.

Definition LONG_MAX : Z := 2 ^ 63 - 1.

Definition digit_value (c : ascii) : Z := Z.of_N (N_of_ascii c) - Z.of_N (N_of_ascii "0").

Definition isxdigit (c : ascii) : bool := isdigit c || char_in "A" "F" c || char_in "a" "f" c.

Definition xdigit_value (c : ascii) : Z :=
  if isdigit c then digit_value c
  else if isupper c then Z.of_N (N_of_ascii c) - Z.of_N (N_of_ascii "A") + 10
  else Z.of_N (N_of_ascii c) - Z.of_N (N_of_ascii "a") + 10.

Definition tolower (c : ascii) : ascii :=
  if isupper c then ascii_of_N (N_of_ascii c + 32) else c.

(** The value of the leading run of digits in the given base, read after the
    digits that made [acc], and its length. *)
Fixpoint digits (is_digit : ascii -> bool) (value : ascii -> Z) (base acc : Z) (s : string)
  : Z * nat :=
  match s with
  | String c rest =>
      if is_digit c then
        let (v, n) := digits is_digit value base (acc * base + value c) rest in (v, S n)
      else (acc, O)
  | EmptyString => (acc, O)
  end.

Fixpoint drop (n : nat) (s : string) : string :=
  match n, s with
  | S n', String _ rest => drop n' rest
  | _, _ => s
  end.

(** Does [s] start with [word], letter case ignored? *)
Fixpoint starts_with_nocase (word s : string) : bool :=
  match word, s with
  | EmptyString, _ => true
  | String w word', String c rest => Ascii.eqb w (tolower c) && starts_with_nocase word' rest
  | String _ _, EmptyString => false
  end.

(** The binary64 nearest to [m * 2 ^ e], infinity when it is out of range. *)
Definition double_of (m e : Z) : float := SF2Prim (binary_normalize prec emax m e false).

(** The binary64 nearest to [m / d], for [0 <= m] and [0 < d].  The quotient
    is taken with 1080 binary places, more than any binary64 has (1074), and
    one more bit tells whether the division left a remainder: no binary64 and
    no middle of two neighbouring ones lies strictly between two numbers of
    1080 places that follow each other, so the rounding of this number is the
    rounding of [m / d]. *)
Definition double_ratio (m d : Z) : float :=
  let q := Z.shiftl m 1080 / d in
  let rest := if Z.shiftl m 1080 mod d =? 0 then 0 else 1 in
  double_of (2 * q + rest) (- 1081).

(** An optional sign: is it a minus, and the characters it takes. *)
Definition sign_part (s : string) : bool * nat :=
  match s with
  | String c _ =>
      if Ascii.eqb c "-" then (true, 1%nat)
      else if Ascii.eqb c "+" then (false, 1%nat)
      else (false, O)
  | EmptyString => (false, O)
  end.

(** The digits of a literal, with at most one point among them: the value of
    all the digits read as one number, the number of digits after the point,
    the number of digits, and the characters consumed. *)
Definition mantissa (is_digit : ascii -> bool) (value : ascii -> Z) (base : Z) (s : string)
  : Z * nat * nat * nat :=
  let (whole, nwhole) := digits is_digit value base 0 s in
  match drop nwhole s with
  | String c rest =>
      if Ascii.eqb c "." then
        let (all, nfrac) := digits is_digit value base whole rest in
        (all, nfrac, (nwhole + nfrac)%nat, S (nwhole + nfrac))
      else (whole, O, nwhole, nwhole)
  | EmptyString => (whole, O, nwhole, nwhole)
  end.

(** An exponent part: the letter [mark] (either case), an optional sign and
    at least one digit.  Returns the exponent and the characters consumed,
    [(0, 0)] when there is no exponent part. *)
Definition exponent_part (mark : ascii) (s : string) : Z * nat :=
  match s with
  | String c rest =>
      if Ascii.eqb (tolower c) mark then
        let (negative, nsign) := sign_part rest in
        let (e, n) := digits isdigit digit_value 10 0 (drop nsign rest) in
        if (n =? 0)%nat then (0, O)
        else (if negative then - e else e, S (nsign + n))
      else (0, O)
  | EmptyString => (0, O)
  end.

(** A decimal literal, which needs one digit at least, and the characters
    it takes. *)
Definition decimal (s : string) : float * nat :=
  let '(m, nfrac, ndigits, n) := mantissa isdigit digit_value 10 s in
  if (ndigits =? 0)%nat then (0%float, O)
  else
    let (e, ne) := exponent_part "e" (drop n s) in
    let e := e - Z.of_nat nfrac in
    (double_ratio (m * 10 ^ Z.max e 0) (10 ^ Z.max (- e) 0), (n + ne)%nat).

(** What follows [0x] in a hexadecimal literal, which needs one digit at
    least; the exponent counts powers of two. *)
Definition hexadecimal (s : string) : float * nat :=
  let '(m, nfrac, ndigits, n) := mantissa isxdigit xdigit_value 16 s in
  if (ndigits =? 0)%nat then (0%float, O)
  else
    let (e, ne) := exponent_part "p" (drop n s) in
    (double_of m (e - 4 * Z.of_nat nfrac), (n + ne)%nat).

(** The characters of a sequence in parentheses after [nan]: letters, digits
    and underscores between the two parentheses; 0 when there is none. *)
Definition nan_sequence (s : string) : nat :=
  match s with
  | String c rest =>
      if Ascii.eqb c "(" then
        let n := sv_run is_name rest in
        match drop n rest with
        | String c' _ => if Ascii.eqb c' ")" then S (S n) else O
        | EmptyString => O
        end
      else O
  | EmptyString => O
  end.

(** A literal without its sign; no character is taken when there is none. *)
Definition magnitude (s : string) : float * nat :=
  if starts_with_nocase "infinity" s then (infinity, 8%nat)
  else if starts_with_nocase "inf" s then (infinity, 3%nat)
  else if starts_with_nocase "nan" s then (nan, (3 + nan_sequence (drop 3 s))%nat)
  else
    let (hex, nhex) := hexadecimal (drop 2 s) in
    if starts_with_nocase "0x" s && negb (nhex =? 0)%nat then (hex, (2 + nhex)%nat)
    else decimal s.

(** The value converted and the number of characters consumed, which is 0
    when there is no literal after the white space and the sign. *)
Definition strtod (nptr : string) : float * nat :=
  let nspace := sv_run isspace nptr in
  let (negative, nsign) := sign_part (drop nspace nptr) in
  let (value, n) := magnitude (drop (nspace + nsign) nptr) in
  if (n =? 0)%nat then (0%float, O)
  else (if negative then PrimFloat.opp value else value, (nspace + nsign + n)%nat).

(** Base 10, no sign and no leading space on a token; a value out of range
    is [LONG_MAX]. *)
Definition strtol (nptr : string) : Z * nat :=
  let (v, n) := digits isdigit digit_value 10 0 nptr in
  (Z.min v LONG_MAX, n).

End Libc.

(** ** Cells and the table *)

Inductive Eval_Status : Type :=
| UNEVALUATED
| INPROGRESS
| EVALUATED.

(** [struct Cell]: the kind and the member of the union that the kind selects;
    an expression cell carries [Cell_Expr]'s three fields. *)
Inductive Cell : Type :=
| CELL_KIND_TEXT (text : string)
| CELL_KIND_NUMBER (number : float)
| CELL_KIND_EXPR (index : Expr_Index) (status : Eval_Status) (value : float).

Record Table : Type := mkTable {
  cells : list Cell;
  rows : Z;
  cols : Z
}.

(** [table_cell_at] returns the address of a cell, modelled by the cell's
    offset in [cells]. *)
Definition table_cell_at (table : Table) (row col : Z) : outcome nat :=
  _ <- assert (row <? rows table) ASSERT_row ;;
  _ <- assert (col <? cols table) ASSERT_col ;;
  Done (Z.to_nat (size_t (row * cols table + col))).

(** Reading [*cell]. *)
Definition cell_load (table : Table) (cell : nat) : outcome Cell :=
  match nth_error (cells table) cell with
  | Some c => Done c
  | None => Stop UNDEFINED
  end.

Definition cell_store (table : Table) (cell : nat) (c : Cell) : Table :=
  {| cells := list_store (cells table) cell c;
     rows := rows table; cols := cols table |}.

(** [cell->as.expr.status = status] *)
Definition cell_set_status (table : Table) (cell : nat) (status : Eval_Status) : outcome Table :=
  c <- cell_load table cell ;;
  match c with
  | CELL_KIND_EXPR index _ value => Done (cell_store table cell (CELL_KIND_EXPR index status value))
  | _ => Stop UNDEFINED
  end.

(** [cell->as.expr.value = value] *)
Definition cell_set_value (table : Table) (cell : nat) (value : float) : outcome Table :=
  c <- cell_load table cell ;;
  match c with
  | CELL_KIND_EXPR index status _ => Done (cell_store table cell (CELL_KIND_EXPR index status value))
  | _ => Stop UNDEFINED
  end.

(** ** The evaluator

    [table_eval_expr] and [table_eval_cell] call each other.  The body of
    [table_eval_cell] is written over the function it calls for the cell's
    expression; [table_eval_expr] recurses on its fuel, one unit for each
    activation. *)

Definition table_eval_cell_with
    (eval_expr : Table -> Expr_Buffer -> Expr_Index -> outcome (float * Table))
    (table : Table) (eb : Expr_Buffer) (cell : nat) : outcome Table :=
  c <- cell_load table cell ;;
  match c with
  | CELL_KIND_EXPR index INPROGRESS _ => Stop ERROR_circular
  | CELL_KIND_EXPR index UNEVALUATED _ =>
      table <- cell_set_status table cell INPROGRESS ;;
      '(value, table) <- eval_expr table eb index ;;
      table <- cell_set_value table cell value ;;
      cell_set_status table cell EVALUATED
  | _ => Done table
  end.

Fixpoint table_eval_expr (fuel : nat) (table : Table) (eb : Expr_Buffer)
    (expr_index : Expr_Index) : outcome (float * Table) :=
  match fuel with
  | O => OutOfFuel
  | S fuel =>
      expr <- expr_buffer_at eb expr_index ;;
      e <- expr_load eb expr ;;
      match e with
      | EXPR_KIND_NUMBER number => Done (number, table)
      | EXPR_KIND_CELL row col =>
          cell <- table_cell_at table row col ;;
          c <- cell_load table cell ;;
          match c with
          | CELL_KIND_NUMBER number => Done (number, table)
          | CELL_KIND_TEXT _ => Stop ERROR_text_in_math
          | CELL_KIND_EXPR _ _ _ =>
              table <- table_eval_cell_with (table_eval_expr fuel) table eb cell ;;
              c <- cell_load table cell ;;
              match c with
              | CELL_KIND_EXPR _ _ value => Done (value, table)
              | _ => Stop UNDEFINED
              end
          end
      | EXPR_KIND_PLUS lhs rhs =>
          '(lhs, table) <- table_eval_expr fuel table eb lhs ;;
          '(rhs, table) <- table_eval_expr fuel table eb rhs ;;
          Done ((lhs + rhs)%float, table)
      end
  end.

Definition table_eval_cell (fuel : nat) (table : Table) (eb : Expr_Buffer) (cell : nat)
  : outcome Table :=
  table_eval_cell_with (table_eval_expr fuel) table eb cell.


(** The loop of [main] over the cells it visits, here any list of cell
    addresses. *)
Fixpoint table_eval_cells (fuel : nat) (table : Table) (eb : Expr_Buffer) (visit : list nat)
  : outcome Table :=
  match visit with
  | [] => Done table
  | cell :: visit =>
      table <- table_eval_cell fuel table eb cell ;;
      table_eval_cells fuel table eb visit
  end.

(** ** The evaluator with a counting hook

    The same two functions, which also return the addresses of the cells whose
    expression they evaluated, in the order in which the evaluations began.
    [table_eval_expr_log_erase] relates them to the functions above. *)

Definition table_eval_cell_log_with
    (eval_expr : Table -> Expr_Buffer -> Expr_Index -> outcome (float * Table * list nat))
    (table : Table) (eb : Expr_Buffer) (cell : nat) : outcome (Table * list nat) :=
  c <- cell_load table cell ;;
  match c with
  | CELL_KIND_EXPR index INPROGRESS _ => Stop ERROR_circular
  | CELL_KIND_EXPR index UNEVALUATED _ =>
      table <- cell_set_status table cell INPROGRESS ;;
      '(value, table, log) <- eval_expr table eb index ;;
      table <- cell_set_value table cell value ;;
      table <- cell_set_status table cell EVALUATED ;;
      Done (table, cell :: log)
  | _ => Done (table, [])
  end.

Fixpoint table_eval_expr_log (fuel : nat) (table : Table) (eb : Expr_Buffer)
    (expr_index : Expr_Index) : outcome (float * Table * list nat) :=
  match fuel with
  | O => OutOfFuel
  | S fuel =>
      expr <- expr_buffer_at eb expr_index ;;
      e <- expr_load eb expr ;;
      match e with
      | EXPR_KIND_NUMBER number => Done (number, table, [])
      | EXPR_KIND_CELL row col =>
          cell <- table_cell_at table row col ;;
          c <- cell_load table cell ;;
          match c with
          | CELL_KIND_NUMBER number => Done (number, table, [])
          | CELL_KIND_TEXT _ => Stop ERROR_text_in_math
          | CELL_KIND_EXPR _ _ _ =>
              '(table, log) <- table_eval_cell_log_with (table_eval_expr_log fuel) table eb cell ;;
              c <- cell_load table cell ;;
              match c with
              | CELL_KIND_EXPR _ _ value => Done (value, table, log)
              | _ => Stop UNDEFINED
              end
          end
      | EXPR_KIND_PLUS lhs rhs =>
          '(lhs, table, log_lhs) <- table_eval_expr_log fuel table eb lhs ;;
          '(rhs, table, log_rhs) <- table_eval_expr_log fuel table eb rhs ;;
          Done ((lhs + rhs)%float, table, log_lhs ++ log_rhs)
      end
  end.

Definition table_eval_cell_log (fuel : nat) (table : Table) (eb : Expr_Buffer) (cell : nat)
  : outcome (Table * list nat) :=
  table_eval_cell_log_with (table_eval_expr_log fuel) table eb cell.

Fixpoint table_eval_cells_log (fuel : nat) (table : Table) (eb : Expr_Buffer)
    (visit : list nat) : outcome (Table * list nat) :=
  match visit with
  | [] => Done (table, [])
  | cell :: visit =>
      '(table, log) <- table_eval_cell_log fuel table eb cell ;;
      '(table, more) <- table_eval_cells_log fuel table eb visit ;;
      Done (table, log ++ more)
  end.

(** [*expr_buffer_at(eb, index)]: the node an index stands for. *)
Definition expr_at (eb : Expr_Buffer) (index : Expr_Index) : outcome Expr :=
  expr <- expr_buffer_at eb index ;;
  expr_load eb expr.

(** ** Expression trees

    The tree that an index of the arena is the root of. *)

Inductive Expr_Tree : Type :=
| TREE_NUMBER (number : float)
| TREE_CELL (row col : Z)
| TREE_PLUS (lhs rhs : Expr_Tree).

Fixpoint expr_is_tree (eb : Expr_Buffer) (index : Expr_Index) (tree : Expr_Tree) : Prop :=
  0 <= index /\
  match tree with
  | TREE_NUMBER number => expr_at eb index = Done (EXPR_KIND_NUMBER number)
  | TREE_CELL row col => expr_at eb index = Done (EXPR_KIND_CELL row col)
  | TREE_PLUS lhs rhs =>
      exists lhs_index rhs_index,
        expr_at eb index = Done (EXPR_KIND_PLUS lhs_index rhs_index) /\
        expr_is_tree eb lhs_index lhs /\ expr_is_tree eb rhs_index rhs
  end.

(** ** The evaluation rules in the specification's words

    Section 4.4 of the specification, as two relations between the table
    before, the expression or cell, the value and the table after.  Lookups
    are the bounds-checked accesses [expr_at] and [table_cell_at]. *)

Inductive eval_expr_spec (eb : Expr_Buffer) : Table -> Expr_Index -> float -> Table -> Prop :=
| spec_Number table index v :
    expr_at eb index = Done (EXPR_KIND_NUMBER v) ->
    eval_expr_spec eb table index v table
| spec_CellRef_Number table index row col cell v :
    expr_at eb index = Done (EXPR_KIND_CELL row col) ->
    table_cell_at table row col = Done cell ->
    cell_load table cell = Done (CELL_KIND_NUMBER v) ->
    eval_expr_spec eb table index v table
| spec_CellRef_Formula table index row col cell expr status cached table' expr' status' cached' :
    expr_at eb index = Done (EXPR_KIND_CELL row col) ->
    table_cell_at table row col = Done cell ->
    cell_load table cell = Done (CELL_KIND_EXPR expr status cached) ->
    eval_cell_spec eb table cell table' ->
    cell_load table' cell = Done (CELL_KIND_EXPR expr' status' cached') ->
    eval_expr_spec eb table index cached' table'
| spec_Add table index lhs rhs a table1 b table2 :
    expr_at eb index = Done (EXPR_KIND_PLUS lhs rhs) ->
    eval_expr_spec eb table lhs a table1 ->
    eval_expr_spec eb table1 rhs b table2 ->
    eval_expr_spec eb table index (a + b)%float table2

with eval_cell_spec (eb : Expr_Buffer) : Table -> nat -> Table -> Prop :=
| spec_Unevaluated table cell expr cached v table' expr' status' cached' :
    cell_load table cell = Done (CELL_KIND_EXPR expr UNEVALUATED cached) ->
    eval_expr_spec eb (cell_store table cell (CELL_KIND_EXPR expr INPROGRESS cached)) expr v table' ->
    cell_load table' cell = Done (CELL_KIND_EXPR expr' status' cached') ->
    eval_cell_spec eb table cell (cell_store table' cell (CELL_KIND_EXPR expr' EVALUATED v))
| spec_Evaluated table cell expr cached :
    cell_load table cell = Done (CELL_KIND_EXPR expr EVALUATED cached) ->
    eval_cell_spec eb table cell table
| spec_Text table cell text :
    cell_load table cell = Done (CELL_KIND_TEXT text) ->
    eval_cell_spec eb table cell table
| spec_Plain_Number table cell number :
    cell_load table cell = Done (CELL_KIND_NUMBER number) ->
    eval_cell_spec eb table cell table.

Scheme eval_expr_spec_mut := Minimality for eval_expr_spec Sort Prop
  with eval_cell_spec_mut := Minimality for eval_cell_spec Sort Prop.
Combined Scheme eval_spec_mutind from eval_expr_spec_mut, eval_cell_spec_mut.

(** The evaluations that the specification's two evaluation-time errors end:
    the call tree reaches a reference to a text cell ([ERROR_text_in_math]) or
    a cell whose status is in progress ([ERROR_circular]), everything before
    that point having returned. *)

Inductive expr_stops (eb : Expr_Buffer) : Table -> Expr_Index -> Failure -> Prop :=
| stops_text table index row col cell text :
    expr_at eb index = Done (EXPR_KIND_CELL row col) ->
    table_cell_at table row col = Done cell ->
    cell_load table cell = Done (CELL_KIND_TEXT text) ->
    expr_stops eb table index ERROR_text_in_math
| stops_reference table index row col cell why :
    expr_at eb index = Done (EXPR_KIND_CELL row col) ->
    table_cell_at table row col = Done cell ->
    cell_stops eb table cell why ->
    expr_stops eb table index why
| stops_lhs table index lhs rhs why :
    expr_at eb index = Done (EXPR_KIND_PLUS lhs rhs) ->
    expr_stops eb table lhs why ->
    expr_stops eb table index why
| stops_rhs table index lhs rhs a table1 why :
    expr_at eb index = Done (EXPR_KIND_PLUS lhs rhs) ->
    eval_expr_spec eb table lhs a table1 ->
    expr_stops eb table1 rhs why ->
    expr_stops eb table index why

with cell_stops (eb : Expr_Buffer) : Table -> nat -> Failure -> Prop :=
| stops_inprogress table cell expr cached :
    cell_load table cell = Done (CELL_KIND_EXPR expr INPROGRESS cached) ->
    cell_stops eb table cell ERROR_circular
| stops_unevaluated table cell expr cached why :
    cell_load table cell = Done (CELL_KIND_EXPR expr UNEVALUATED cached) ->
    expr_stops eb (cell_store table cell (CELL_KIND_EXPR expr INPROGRESS cached)) expr why ->
    cell_stops eb table cell why.

Scheme expr_stops_mut := Minimality for expr_stops Sort Prop
  with cell_stops_mut := Minimality for cell_stops Sort Prop.
Combined Scheme stops_mutind from expr_stops_mut, cell_stops_mut.

(** ** Tables of the examples

    The loader leaves a formula cell with the index of its parsed expression,
    the status [UNEVALUATED] and the value [0] (the table is cleared with
    [memset] before it is filled). *)

Definition formula_cell (index : Expr_Index) : Cell := CELL_KIND_EXPR index UNEVALUATED 0%float.

Definition parse (source : string) (eb : Expr_Buffer)
  : outcome (Expr_Index * string * Expr_Buffer) :=
  parse_expr Libc.strtod Libc.strtol source eb.

(** [A0 = 10 | B0 = "=A0+5"] *)
Definition table_sum : outcome (Table * Expr_Buffer) :=
  '(b0, _, eb) <- parse "A0+5" Expr_Buffer_zero ;;
  Done ({| cells := [CELL_KIND_NUMBER 10%float; formula_cell b0]; rows := 1; cols := 2 |}, eb).

(** [A0 = "hello" | B0 = "=A0+1"] *)
Definition table_text : outcome (Table * Expr_Buffer) :=
  '(b0, _, eb) <- parse "A0+1" Expr_Buffer_zero ;;
  Done ({| cells := [CELL_KIND_TEXT "hello"; formula_cell b0]; rows := 1; cols := 2 |}, eb).

(** [A0 = "=B0" | B0 = "=A0"] *)
Definition table_cycle : outcome (Table * Expr_Buffer) :=
  '(a0, _, eb) <- parse "B0" Expr_Buffer_zero ;;
  '(b0, _, eb) <- parse "A0" eb ;;
  Done ({| cells := [formula_cell a0; formula_cell b0]; rows := 1; cols := 2 |}, eb).

(** [A0 = 1 | B0 = "=A0+A0" | C0 = "=B0+B0"] *)
Definition table_fan_in : outcome (Table * Expr_Buffer) :=
  '(b0, _, eb) <- parse "A0+A0" Expr_Buffer_zero ;;
  '(c0, _, eb) <- parse "B0+B0" eb ;;
  Done ({| cells := [CELL_KIND_NUMBER 1%float; formula_cell b0; formula_cell c0];
           rows := 1; cols := 3 |}, eb).

(** [A0 = "=B0+1" | B0 = "=2+A0"] *)
Definition table_cycle_sums : outcome (Table * Expr_Buffer) :=
  '(a0, _, eb) <- parse "B0+1" Expr_Buffer_zero ;;
  '(b0, _, eb) <- parse "2+A0" eb ;;
  Done ({| cells := [formula_cell a0; formula_cell b0]; rows := 1; cols := 2 |}, eb).

(** [A0 = "=A0"] *)
Definition table_self : outcome (Table * Expr_Buffer) :=
  '(a0, _, eb) <- parse "A0" Expr_Buffer_zero ;;
  Done ({| cells := [formula_cell a0]; rows := 1; cols := 1 |}, eb).

(** An arena whose block of 128 slots is full. *)
Definition Expr_Buffer_full : Expr_Buffer :=
  {| count := 128; capacity := 128; items := repeat (Some (EXPR_KIND_NUMBER 1%float)) 128 |}.

(** The table and the arena of an example that loaded. *)
Definition the_table (loaded : outcome (Table * Expr_Buffer)) : Table :=
  match loaded with
  | Done (table, _) => table
  | _ => {| cells := []; rows := 0; cols := 0 |}
  end.

Definition the_arena (loaded : outcome (Table * Expr_Buffer)) : Expr_Buffer :=
  match loaded with
  | Done (_, eb) => eb
  | _ => Expr_Buffer_zero
  end.

(** [A0 = 10 | B0 = "=C0"], a reference past the last column. *)
Definition table_outside : outcome (Table * Expr_Buffer) :=
  '(b0, _, eb) <- parse "C0" Expr_Buffer_zero ;;
  Done ({| cells := [CELL_KIND_NUMBER 10%float; formula_cell b0]; rows := 1; cols := 2 |}, eb).

(** Forgetting the log of a run. *)
Definition erase {A : Type} (m : outcome (A * list nat)) : outcome A :=
  match m with
  | Done (a, _) => Done a
  | Stop why => Stop why
  | OutOfFuel => OutOfFuel
  end.

(** What a run that returned has done to the table, [log] being the cells
    whose expression it evaluated: no cell twice; each of them a formula cell
    that was unevaluated and is now evaluated; every other cell as it was. *)
Record log_run (table table' : Table) (log : list nat) : Prop := mk_log_run {
  run_rows : rows table' = rows table;
  run_cols : cols table' = cols table;
  run_once : NoDup log;
  run_logged : forall cell, In cell log ->
    exists index value cached,
      cell_load table cell = Done (CELL_KIND_EXPR index UNEVALUATED value) /\
      cell_load table' cell = Done (CELL_KIND_EXPR index EVALUATED cached);
  run_frame : forall cell, ~ In cell log -> cell_load table' cell = cell_load table cell
}.

(** Is every character of the view whitespace (an empty view included)? *)
Fixpoint all_space (sv : string) : bool :=
  match sv with
  | String c rest => isspace c && all_space rest
  | EmptyString => true
  end.

(** The formulas in which the input ends where a primary expression is
    expected: at once, the formula being empty or whitespace, or after a
    primary expression and a ["+"]. *)
Inductive ends_early (strtod : string -> float * nat) (strtol : string -> Z * nat)
  : string -> Expr_Buffer -> Prop :=
| ends_at_once source eb :
    all_space source = true ->
    ends_early strtod strtol source eb
| ends_after_plus source eb lhs_index rest eb1 after :
    parse_primary_expr strtod strtol source eb = Done (lhs_index, rest, eb1) ->
    next_token rest = Done (Some "+"%string, after) ->
    ends_early strtod strtol after eb1 ->
    ends_early strtod strtol source eb.

(** The arena that a parse left. *)
Definition arena_of (parsed : outcome (Expr_Index * string * Expr_Buffer)) : Expr_Buffer :=
  match parsed with
  | Done (_, _, eb) => eb
  | _ => Expr_Buffer_zero
  end.

(** A table with no cell, for the evaluation of formulas without references. *)
Definition Table_zero : Table := {| cells := []; rows := 0; cols := 0 |}.

(** ** Chains of primary expressions

    The formula [first + tok1 + ... + tokn] written without spaces, and the
    tree that leans to the right over the nodes of its tokens. *)

Fixpoint sv_all (predicate : ascii -> bool) (sv : string) : bool :=
  match sv with
  | String c rest => predicate c && sv_all predicate rest
  | EmptyString => true
  end.

Definition not_space (c : ascii) : bool := negb (isspace c).

(** A token made of name characters. *)
Definition name_token (tok : string) : Prop :=
  tok <> EmptyString /\ sv_all is_name tok = true.

Fixpoint plus_chain (first : string) (more : list string) : string :=
  match more with
  | [] => first
  | tok :: more' => (first ++ "+" ++ plus_chain tok more')%string
  end.

Fixpoint plus_tree (first : Expr_Tree) (more : list Expr_Tree) : Expr_Tree :=
  match more with
  | [] => first
  | tree :: more' => TREE_PLUS first (plus_tree tree more')
  end.

(** The node that [parse_primary_expr] writes for a token. *)
Definition primary_node (strtod : string -> float * nat) (strtol : string -> Z * nat)
    (tok : string) : outcome Expr :=
  let (number, is_number) := sv_strtod strtod tok in
  if is_number then Done (EXPR_KIND_NUMBER number)
  else
    match tok with
    | EmptyString => Stop UNDEFINED
    | String c more =>
        if negb (isupper c) then Stop ERROR_cell_capital else
        let (row, is_integer) := sv_strtol strtol more in
        if negb is_integer then Stop ERROR_cell_row else
        Done (EXPR_KIND_CELL (size_t row)
                (size_t (Z.of_N (N_of_ascii c) - Z.of_N (N_of_ascii "A"))))
    end.

(** The tree of a node without sides. *)
Definition leaf_tree (e : Expr) : Expr_Tree :=
  match e with
  | EXPR_KIND_NUMBER number => TREE_NUMBER number
  | EXPR_KIND_CELL row col => TREE_CELL row col
  | EXPR_KIND_PLUS _ _ => TREE_NUMBER 0%float
  end.

Definition is_leaf (e : Expr) : bool :=
  match e with
  | EXPR_KIND_PLUS _ _ => false
  | _ => true
  end.

(** An arena in its normal state that has room for [n] more nodes: the
    capacity is what [expr_buffer_alloc] makes it (128, or at most twice the
    count), and the count stays so small that the size in bytes of the block,
    [sizeof(Expr) * capacity], does not wrap when the capacity doubles: with
    fewer than [2 ^ 57] nodes the capacity stays below [2 ^ 58] slots and a
    block of twice as many has fewer than [24 * 2 ^ 59] bytes. *)
Definition eb_fits (n : Z) (eb : Expr_Buffer) : Prop :=
  0 <= count eb <= capacity eb /\
  Z.of_nat (List.length (items eb)) = capacity eb /\
  capacity eb <= Z.max 128 (2 * count eb) /\
  0 <= n /\ count eb + n < 2 ^ 57.

(** ** Termination of the evaluator

    The arena as the parser builds it: the two sides of a plus node are
    stored before the node. *)
Definition eb_ordered (eb : Expr_Buffer) : Prop :=
  forall index lhs rhs,
    expr_at eb index = Done (EXPR_KIND_PLUS lhs rhs) ->
    0 <= lhs < index /\ 0 <= rhs < index.

Definition is_unevaluated (c : Cell) : bool :=
  match c with
  | CELL_KIND_EXPR _ UNEVALUATED _ => true
  | _ => false
  end.

(** The number of formula cells that are still to be evaluated. *)
Definition unevaluated (table : Table) : nat :=
  List.length (filter is_unevaluated (cells table)).

(** Fuel that is enough to evaluate an expression: every unevaluated cell
    may start one walk down the arena, and the walk under way goes down from
    [index]. *)
Definition eval_fuel (table : Table) (eb : Expr_Buffer) (index : Expr_Index) : nat :=
  (unevaluated table * S (Z.to_nat (count eb))
   + Z.to_nat (Z.min index (count eb)) + 1)%nat.

(** ** The arenas the program builds

    [eb_allocated n eb]: [eb] is the arena [{0}] after [n] calls of
    [expr_buffer_alloc], with any writes through node pointers between
    them. *)
Inductive eb_allocated : nat -> Expr_Buffer -> Prop :=
| allocated_zero : eb_allocated 0 Expr_Buffer_zero
| allocated_alloc (n : nat) (eb eb' : Expr_Buffer) (index : Expr_Index) :
    eb_allocated n eb ->
    expr_buffer_alloc eb = Done (index, eb') ->
    eb_allocated (S n) eb'
| allocated_store (n : nat) (eb : Expr_Buffer) (index : Expr_Index) (e : Expr) :
    eb_allocated n eb ->
    eb_allocated n (expr_store eb index e).

(** ** What an evaluation may change

    A cell after an evaluation that returned: as it was, or a formula that
    was unevaluated and is now evaluated, with the same expression. *)
Definition cell_step (before after : outcome Cell) : Prop :=
  after = before \/
  exists index value cached,
    before = Done (CELL_KIND_EXPR index UNEVALUATED value) /\
    after = Done (CELL_KIND_EXPR index EVALUATED cached).

Definition table_step (table table' : Table) : Prop :=
  rows table' = rows table /\ cols table' = cols table /\
  List.length (cells table') = List.length (cells table) /\
  forall cell, cell_step (cell_load table cell) (cell_load table' cell).

(** ** What a formula denotes

    The value of an expression read off the arena and the table alone,
    whatever the status and the cached value of the cells: a number node is
    its number, a reference is the number of the cell or the value of the
    cell's formula, a sum is the sum of its sides. *)
Inductive expr_value (eb : Expr_Buffer) (table : Table) : Expr_Index -> float -> Prop :=
| value_number index number :
    expr_at eb index = Done (EXPR_KIND_NUMBER number) ->
    expr_value eb table index number
| value_cell_number index row col cell number :
    expr_at eb index = Done (EXPR_KIND_CELL row col) ->
    table_cell_at table row col = Done cell ->
    cell_load table cell = Done (CELL_KIND_NUMBER number) ->
    expr_value eb table index number
| value_cell_formula index row col cell expr status cached value :
    expr_at eb index = Done (EXPR_KIND_CELL row col) ->
    table_cell_at table row col = Done cell ->
    cell_load table cell = Done (CELL_KIND_EXPR expr status cached) ->
    expr_value eb table expr value ->
    expr_value eb table index value
| value_plus index lhs rhs a b :
    expr_at eb index = Done (EXPR_KIND_PLUS lhs rhs) ->
    expr_value eb table lhs a ->
    expr_value eb table rhs b ->
    expr_value eb table index (a + b)%float.

(** The cached value of every evaluated cell of [table] is the value of the
    cell's formula in [base]. *)
Definition caches_agree (eb : Expr_Buffer) (base table : Table) : Prop :=
  forall cell expr cached,
    cell_load table cell = Done (CELL_KIND_EXPR expr EVALUATED cached) ->
    expr_value eb base expr cached.

(** A cell without its status and cached value. *)
Definition cell_reset (c : outcome Cell) : outcome Cell :=
  match c with
  | Done (CELL_KIND_EXPR index _ _) => Done (CELL_KIND_EXPR index UNEVALUATED 0%float)
  | other => other
  end.

(** Two tables that differ in the status and cached value of formulas only. *)
Definition same_formulas (table table' : Table) : Prop :=
  rows table' = rows table /\ cols table' = cols table /\
  forall cell, cell_reset (cell_load table' cell) = cell_reset (cell_load table cell).

(** Does every position below the length of [cells] occur in [visit]? *)
Definition visits_all (table : Table) (visit : list nat) : Prop :=
  forall cell, (cell < List.length (cells table))%nat -> In cell visit.

Definition is_evaluated (c : Cell) : bool :=
  match c with
  | CELL_KIND_EXPR _ EVALUATED _ => true
  | _ => false
  end.

Definition is_inprogress (c : Cell) : bool :=
  match c with
  | CELL_KIND_EXPR _ INPROGRESS _ => true
  | _ => false
  end.

(** ** Dependencies between expressions

    [expr_refers eb table index index']: the evaluation of [index] asks for
    [index'], a side of the sum or the formula of the cell referred to. *)
Inductive expr_refers (eb : Expr_Buffer) (table : Table) : Expr_Index -> Expr_Index -> Prop :=
| refers_lhs index lhs rhs :
    expr_at eb index = Done (EXPR_KIND_PLUS lhs rhs) ->
    expr_refers eb table index lhs
| refers_rhs index lhs rhs :
    expr_at eb index = Done (EXPR_KIND_PLUS lhs rhs) ->
    expr_refers eb table index rhs
| refers_cell index row col cell expr status cached :
    expr_at eb index = Done (EXPR_KIND_CELL row col) ->
    table_cell_at table row col = Done cell ->
    cell_load table cell = Done (CELL_KIND_EXPR expr status cached) ->
    expr_refers eb table index expr.

(** In any number of steps, none included. *)
Inductive expr_leads (eb : Expr_Buffer) (table : Table) : Expr_Index -> Expr_Index -> Prop :=
| leads_here index : expr_leads eb table index index
| leads_on index next last :
    expr_refers eb table index next ->
    expr_leads eb table next last ->
    expr_leads eb table index last.

(** A cycle of dependencies: an expression that asks for another that leads
    back to it. *)
Definition expr_cycle (eb : Expr_Buffer) (table : Table) : Prop :=
  exists index next,
    expr_refers eb table index next /\ expr_leads eb table next index.

(** ** Loading the table ([estimate_table_size], [parse_table_from_content]) *)

(** Modelled from the spec: [sv_chop_by_delim] of [sv.h], which is not among
    the source files; it returns the characters before the first [delim] and
    consumes them together with that [delim] (all of the view when it holds
    no [delim]).  The second component is what is left in view. *)
Fixpoint sv_chop_by_delim (sv : string) (delim : ascii) : string * string :=
  match sv with
  | EmptyString => (EmptyString, EmptyString)
  | String c rest =>
      if Ascii.eqb c delim then (EmptyString, rest)
      else let (chopped, left) := sv_chop_by_delim rest delim in (String c chopped, left)
  end.

(** Modelled from the spec: [sv_starts_with] of [sv.h], which is not among the
    source files; is [prefix] a prefix of the view? *)
Fixpoint sv_starts_with (sv prefix : string) : bool :=
  match prefix, sv with
  | EmptyString, _ => true
  | String p prefix', String c rest => Ascii.eqb c p && sv_starts_with rest prefix'
  | String _ _, EmptyString => false
  end.

(** The inner loop of [estimate_table_size]: the fields of a line are
    counted from [col]. *)
Fixpoint estimate_line (fuel : nat) (col : Z) (line : string) : outcome Z :=
  match fuel with
  | O => OutOfFuel
  | S fuel =>
      match line with
      | EmptyString => Done col
      | String _ _ =>
          let (_, line) := sv_chop_by_delim line "|" in
          estimate_line fuel (size_t (col + 1)) line
      end
  end.

(** The outer loop of [estimate_table_size]. *)
Fixpoint estimate_lines (fuel : nat) (rows cols : Z) (content : string) : outcome (Z * Z) :=
  match fuel with
  | O => OutOfFuel
  | S fuel =>
      match content with
      | EmptyString => Done (rows, cols)
      | String _ _ =>
          let (line, content) := sv_chop_by_delim content "010" in
          col <- estimate_line (S (String.length line)) 0 line ;;
          let cols := if cols <? col then col else cols in
          estimate_lines fuel (size_t (rows + 1)) cols content
      end
  end.

(** Every turn of either loop consumes a character, so one more unit of fuel
    than the view is long is never exhausted ([estimate_table_size_returns]).
    Both out-pointers are given, as in [main]. *)
Definition estimate_table_size (content : string) : outcome (Z * Z) :=
  estimate_lines (S (String.length content)) 0 0 content.

(** The block of cells while the table is loaded.  A slot is [None] while its
    bytes are the zeros that [memset] left. *)
Definition slot_load (slots : list (option Cell)) (cell : nat) : outcome (option Cell) :=
  match nth_error slots cell with
  | Some slot => Done slot
  | None => Stop UNDEFINED
  end.

(** The [status] and the [value] that a slot holds once its kind and index
    are written: those of the expression cell it was, or those of the zero
    bytes ([UNEVALUATED] is 0, and all bits clear is the number [+0.0]).  The
    bytes of a text or a number read as these fields are not modelled. *)
Definition slot_expr_fields (slot : option Cell) : outcome (Eval_Status * float) :=
  match slot with
  | None => Done (UNEVALUATED, 0%float)
  | Some (CELL_KIND_EXPR _ status value) => Done (status, value)
  | Some _ => Stop UNDEFINED
  end.

(** A slot as the evaluator and the printer read it: kind 0 is
    [CELL_KIND_TEXT], and the zero bytes are the empty text. *)
Definition cell_of_slot (slot : option Cell) : Cell :=
  match slot with
  | Some c => c
  | None => CELL_KIND_TEXT EmptyString
  end.

Section Loader.

Variable strtod : string -> float * nat.
Variable strtol : string -> Z * nat.

(** The body of the inner loop of [parse_table_from_content].  [table] gives
    the numbers of rows and columns; the cells are in [slots]. *)
Definition parse_table_cell (table : Table) (slots : list (option Cell)) (eb : Expr_Buffer)
    (row col : Z) (cell_value : string) : outcome (list (option Cell) * Expr_Buffer) :=
  cell <- table_cell_at table row col ;;
  old <- slot_load slots cell ;;
  if sv_starts_with cell_value "=" then
    let (_, cell_value) := sv_chop_left cell_value 1 in
    '(index, _, eb) <- parse_expr strtod strtol cell_value eb ;;
    '(status, value) <- slot_expr_fields old ;;
    Done (list_store slots cell (Some (CELL_KIND_EXPR index status value)), eb)
  else
    let (number, is_number) := sv_strtod strtod cell_value in
    if is_number then Done (list_store slots cell (Some (CELL_KIND_NUMBER number)), eb)
    else Done (list_store slots cell (Some (CELL_KIND_TEXT cell_value)), eb).

(** The inner loop of [parse_table_from_content]. *)
Fixpoint parse_table_line (fuel : nat) (table : Table) (slots : list (option Cell))
    (eb : Expr_Buffer) (row col : Z) (line : string)
  : outcome (list (option Cell) * Expr_Buffer) :=
  match fuel with
  | O => OutOfFuel
  | S fuel =>
      match line with
      | EmptyString => Done (slots, eb)
      | String _ _ =>
          let (field, line) := sv_chop_by_delim line "|" in
          '(slots, eb) <- parse_table_cell table slots eb row col (sv_trim field) ;;
          parse_table_line fuel table slots eb row (size_t (col + 1)) line
      end
  end.

(** The outer loop of [parse_table_from_content]. *)
Fixpoint parse_table_lines (fuel : nat) (table : Table) (slots : list (option Cell))
    (eb : Expr_Buffer) (row : Z) (content : string)
  : outcome (list (option Cell) * Expr_Buffer) :=
  match fuel with
  | O => OutOfFuel
  | S fuel =>
      match content with
      | EmptyString => Done (slots, eb)
      | String _ _ =>
          let (line, content) := sv_chop_by_delim content "010" in
          '(slots, eb) <- parse_table_line (S (String.length line)) table slots eb row 0 line ;;
          parse_table_lines fuel table slots eb (size_t (row + 1)) content
      end
  end.

Definition parse_table_from_content (table : Table) (slots : list (option Cell))
    (eb : Expr_Buffer) (content : string) : outcome (list (option Cell) * Expr_Buffer) :=
  parse_table_lines (S (String.length content)) table slots eb 0 content.

(** ** [main], from the content of the input file on *)

(** [sizeof(Cell)] where [size_t], pointers and [double] have 64 bits: the
    kind, padded to 8 bytes, and the 24 bytes of [Cell_Expr]. *)
Definition SIZEOF_CELL : Z := 32.

(** [main] up to the evaluation: the table is sized, obtained from [malloc]
    (taken to succeed), cleared and filled.  The block has room for as many
    cells as the bytes asked for hold. *)
Definition main_load (content : string) : outcome (Table * Expr_Buffer) :=
  '(rows, cols) <- estimate_table_size content ;;
  let size := size_t (size_t (SIZEOF_CELL * rows) * cols) in
  let slots := repeat None (Z.to_nat (size / SIZEOF_CELL)) in
  let table := {| cells := []; rows := rows; cols := cols |} in
  '(slots, eb) <- parse_table_from_content table slots Expr_Buffer_zero content ;;
  Done ({| cells := map cell_of_slot slots; rows := rows; cols := cols |}, eb).

End Loader.

(** What [main] writes to the stream [stdout], one item for each [printf].
    The stream is flushed when [main] returns and when the run ends in
    [exit]: what was written is then the standard output of the program.
    [abort], which ends the run when an [assert] fails, need not flush it:
    what was written and is still in the buffer of the stream then does not
    reach the standard output. *)
Inductive Output : Type :=
| PRINT_TEXT (text : string)
| PRINT_NUMBER (value : float)
| PRINT_BAR
| PRINT_NEWLINE.

(** The [switch] of [main] on the kind of the cell. *)
Definition print_cell (c : Cell) : Output :=
  match c with
  | CELL_KIND_TEXT text => PRINT_TEXT text
  | CELL_KIND_NUMBER number => PRINT_NUMBER number
  | CELL_KIND_EXPR _ _ value => PRINT_NUMBER value
  end.

(** The values [0], [1], ..., [n - 1] of a loop counter. *)
Definition counter (n : Z) : list Z := map Z.of_nat (seq 0 (Z.to_nat n)).

(** The inner loop of [main] over the columns that are left; [out] is what has
    been written to [stdout] so far.  For a run that stops, it is what the
    calls of [printf] before the stop have written to the stream, flushed or
    not. *)
Fixpoint main_row (fuel : nat) (table : Table) (eb : Expr_Buffer) (row : Z)
    (columns : list Z) (out : list Output) : list Output * outcome Table :=
  match columns with
  | [] => (out, Done table)
  | col :: columns =>
      match (cell <- table_cell_at table row col ;;
             table <- table_eval_cell fuel table eb cell ;;
             c <- cell_load table cell ;;
             Done (table, c)) with
      | Done (table, c) =>
          let out := out ++ [print_cell c] in
          let out := if col <? size_t (cols table - 1) then out ++ [PRINT_BAR] else out in
          main_row fuel table eb row columns out
      | Stop why => (out, Stop why)
      | OutOfFuel => (out, OutOfFuel)
      end
  end.

(** The outer loop of [main]. *)
Fixpoint main_rows (fuel : nat) (table : Table) (eb : Expr_Buffer) (todo : list Z)
    (out : list Output) : list Output * outcome Table :=
  match todo with
  | [] => (out, Done table)
  | row :: todo =>
      match main_row fuel table eb row (counter (cols table)) out with
      | (out, Done table) => main_rows fuel table eb todo (out ++ [PRINT_NEWLINE])
      | stopped => stopped
      end
  end.

(** [main] once the file is read: what is written to [stdout], and how the
    run ends.  [fuel] bounds the activations of one evaluation. *)
Definition main (strtod : string -> float * nat) (strtol : string -> Z * nat)
    (fuel : nat) (content : string) : list Output * outcome Table :=
  match main_load strtod strtol content with
  | Done (table, eb) => main_rows fuel table eb (counter (rows table)) []
  | Stop why => ([], Stop why)
  | OutOfFuel => ([], OutOfFuel)
  end.

(** The diagnostics of the parser. *)
Definition is_syntax_error (why : Failure) : bool :=
  match why with
  | ERROR_unknown_token _ | ERROR_expected_primary | ERROR_cell_capital | ERROR_cell_row => true
  | _ => false
  end.

(** Every index below the count stands for a node that has been written, a
    reference holds coordinates that are not negative. *)
Definition eb_full (eb : Expr_Buffer) : Prop :=
  forall index, 0 <= index < count eb ->
    exists e, expr_at eb index = Done e /\
              match e with
              | EXPR_KIND_CELL row col => 0 <= row /\ 0 <= col
              | _ => True
              end.

(** The table and the arena as [main] has them when the evaluation begins. *)
Record loaded (table : Table) (eb : Expr_Buffer) : Prop := mk_loaded {
  loaded_rows : 0 <= rows table;
  loaded_cols : 0 <= cols table;
  loaded_size : Z.of_nat (List.length (cells table)) = rows table * cols table;
  loaded_small : rows table * cols table < 2 ^ SIZE_WIDTH;
  loaded_formulas : forall cell index status value,
    cell_load table cell = Done (CELL_KIND_EXPR index status value) ->
    0 <= index < count eb;
  loaded_ordered : eb_ordered eb;
  loaded_full : eb_full eb
}.

(** The state of the loader when the cells at the offsets below [next] are
    written; [room] bounds the characters of the content that are still to be
    read, [total] is the length of the content. *)
Record loading (table : Table) (total : Z) (slots : list (option Cell)) (eb : Expr_Buffer)
    (next room : Z) : Prop := mk_loading {
  loading_size : rows table * cols table <= Z.of_nat (List.length slots);
  loading_ahead : forall n, next <= Z.of_nat n -> (n < List.length slots)%nat ->
    nth_error slots n = Some None;
  loading_slots : forall n index status value,
    nth_error slots n = Some (Some (CELL_KIND_EXPR index status value)) ->
    status = UNEVALUATED /\ 0 <= index < count eb;
  loading_formulas :
    Z.of_nat (List.length (filter is_unevaluated (map cell_of_slot slots))) <= count eb;
  loading_fits : eb_fits 0 eb;
  loading_ordered : eb_ordered eb;
  loading_full : eb_full eb;
  loading_room : 0 <= room /\ count eb + room <= total
}.

(** The diagnostics of the evaluator, and the assertions of [table_cell_at]
    that a reference outside the table trips. *)
Definition is_eval_error (why : Failure) : bool :=
  match why with
  | ERROR_text_in_math | ERROR_circular | ASSERT_row | ASSERT_col => true
  | _ => false
  end.

(** ** The table, printed

    What the two loops of [main] print for a table that needs no evaluation
    any more: the cells of each row, a bar after each but the last, and a
    newline after each row. *)
Definition render_cell (table : Table) (row col : Z) : list Output :=
  match (cell <- table_cell_at table row col ;; cell_load table cell) with
  | Done c =>
      print_cell c :: (if col <? size_t (cols table - 1) then [PRINT_BAR] else [])
  | _ => []
  end.

Definition render_row (table : Table) (row : Z) (columns : list Z) : list Output :=
  flat_map (render_cell table row) columns.

Definition render_rows (table : Table) (todo : list Z) : list Output :=
  flat_map (fun row => render_row table row (counter (cols table)) ++ [PRINT_NEWLINE]) todo.

Definition render (table : Table) : list Output :=
  render_rows table (counter (rows table)).

(** The offsets of the cells in the order in which [main] visits them. *)
Definition main_visit (table : Table) : list nat :=
  flat_map (fun row => map (fun col => Z.to_nat (size_t (row * cols table + col)))
                           (counter (cols table)))
           (counter (rows table)).

(** A content of two lines: [1|=A0+2] and [hi]. *)
Definition content_sum : string := ("1|=A0+2" ++ String "010" "hi")%string.

(** ** The lines and the fields of the content

    What repeated calls of [sv_chop_by_delim] take off a view, until it is
    empty: the pieces between the delimiters, without an empty last piece. *)
Fixpoint sv_split (delim : ascii) (sv : string) : list string :=
  match sv with
  | EmptyString => []
  | String c rest =>
      if Ascii.eqb c delim then EmptyString :: sv_split delim rest
      else
        match sv_split delim rest with
        | [] => [String c EmptyString]
        | field :: more => String c field :: more
        end
  end.



(** The greatest number of fields in a line. *)
Definition most_fields (lines : list string) : nat :=
  list_max (map (fun line => List.length (sv_split "|" line)) lines).

(** ** [dump_expr]

    What [dump_expr] writes to the stream, one item for each [fprintf]: the
    padding of ["%*s"] with its width, then the line of the node. *)
Inductive Dump : Type :=
| DUMP_INDENT (width : Z)
| DUMP_NUMBER (number : float)
| DUMP_CELL (row col : Z)
| DUMP_PLUS.

Definition INT_MIN : Z := - 2 ^ 31.
Definition INT_MAX : Z := 2 ^ 31 - 1.

(** A result of [int] arithmetic; an overflow is undefined. *)
Definition int (z : Z) : outcome Z :=
  if (INT_MIN <=? z) && (z <=? INT_MAX) then Done z else Stop UNDEFINED.

(** [out] is what has been written to the stream so far, flushed or not. *)
Fixpoint dump_expr (fuel : nat) (eb : Expr_Buffer) (expr_index : Expr_Index) (level : Z)
    (out : list Dump) : list Dump * outcome unit :=
  match fuel with
  | O => (out, OutOfFuel)
  | S fuel =>
      match int (level * 2) with
      | Done width =>
          let out := out ++ [DUMP_INDENT width] in
          match expr_at eb expr_index with
          | Done (EXPR_KIND_NUMBER number) => (out ++ [DUMP_NUMBER number], Done tt)
          | Done (EXPR_KIND_CELL row col) => (out ++ [DUMP_CELL row col], Done tt)
          | Done (EXPR_KIND_PLUS lhs rhs) =>
              let out := out ++ [DUMP_PLUS] in
              match int (level + 1) with
              | Done level =>
                  match dump_expr fuel eb lhs level out with
                  | (out, Done _) => dump_expr fuel eb rhs level out
                  | stopped => stopped
                  end
              | Stop why => (out, Stop why)
              | OutOfFuel => (out, OutOfFuel)
              end
          | Stop why => (out, Stop why)
          | OutOfFuel => (out, OutOfFuel)
          end
      | Stop why => (out, Stop why)
      | OutOfFuel => (out, OutOfFuel)
      end
  end.

(** A tree written in pre-order, a node at depth [d] below the root being
    padded to the width [2 * (level + d)]. *)
Fixpoint dump_tree (tree : Expr_Tree) (level : Z) : list Dump :=
  match tree with
  | TREE_NUMBER number => [DUMP_INDENT (level * 2); DUMP_NUMBER number]
  | TREE_CELL row col => [DUMP_INDENT (level * 2); DUMP_CELL row col]
  | TREE_PLUS lhs rhs =>
      [DUMP_INDENT (level * 2); DUMP_PLUS]
      ++ dump_tree lhs (level + 1) ++ dump_tree rhs (level + 1)
  end.

Fixpoint tree_depth (tree : Expr_Tree) : nat :=
  match tree with
  | TREE_PLUS lhs rhs => S (Nat.max (tree_depth lhs) (tree_depth rhs))
  | _ => O
  end.

(** Does the view hold no NUL character? *)
Definition no_nul (sv : string) : bool := sv_all (fun c => negb (Ascii.eqb c Ascii.zero)) sv.

(** A reference that the evaluation cannot follow: to a text cell, or to
    coordinates outside the table. *)
Inductive bad_reference (eb : Expr_Buffer) (table : Table) : Expr_Index -> Failure -> Prop :=
| bad_text index row col cell text :
    expr_at eb index = Done (EXPR_KIND_CELL row col) ->
    table_cell_at table row col = Done cell ->
    cell_load table cell = Done (CELL_KIND_TEXT text) ->
    bad_reference eb table index ERROR_text_in_math
| bad_coordinates index row col why :
    expr_at eb index = Done (EXPR_KIND_CELL row col) ->
    table_cell_at table row col = Stop why ->
    bad_reference eb table index why.

(** The diagnostics that a reference raises. *)
Definition is_reference_error (why : Failure) : bool :=
  match why with
  | ERROR_text_in_math | ASSERT_row | ASSERT_col => true
  | _ => false
  end.

(** * Properties *)

(** ** Outcomes *)

Lemma bind_Done {A B : Type} (m : outcome A) (k : A -> outcome B) (b : B) :
  bind m k = Done b -> exists a, m = Done a /\ k a = Done b.
Proof.
  destruct m as [a | why |]; simpl; intros H; try discriminate.
  exists a. split; [reflexivity | exact H].
Qed.

Lemma bind_Stop {A B : Type} (m : outcome A) (k : A -> outcome B) (why : Failure) :
  bind m k = Stop why -> m = Stop why \/ exists a, m = Done a /\ k a = Stop why.
Proof.
  destruct m as [a | why' |]; simpl; intros H; try discriminate.
  - right. exists a. split; [reflexivity | exact H].
  - left. injection H as ->. reflexivity.
Qed.

Lemma assert_Done (b : bool) (why : Failure) (u : unit) :
  assert b why = Done u -> b = true.
Proof. destruct b; simpl; [reflexivity | discriminate]. Qed.

(** ** Arithmetic of [size_t] *)

Lemma size_max : 2 ^ SIZE_WIDTH = 18446744073709551616.
Proof. reflexivity. Qed.

Lemma size_t_small (z : Z) : 0 <= z < 2 ^ SIZE_WIDTH -> size_t z = z.
Proof. intros H. unfold size_t. apply Z.mod_small. exact H. Qed.

Lemma size_t_range (z : Z) : 0 <= size_t z < 2 ^ SIZE_WIDTH.
Proof. unfold size_t. apply Z.mod_pos_bound. rewrite size_max. lia. Qed.

(** ** Stores in a list *)

Lemma list_store_length {A : Type} (l : list A) (n : nat) (a : A) :
  List.length (list_store l n a) = List.length l.
Proof.
  revert n. induction l as [| x l IH]; intros [| n]; simpl; auto.
Qed.

Lemma list_store_same {A : Type} (l : list A) (n : nat) (a : A) :
  (n < List.length l)%nat -> nth_error (list_store l n a) n = Some a.
Proof.
  revert n. induction l as [| x l IH]; intros [| n] H; simpl in *; try lia.
  - reflexivity.
  - apply IH. lia.
Qed.

Lemma list_store_other {A : Type} (l : list A) (n m : nat) (a : A) :
  n <> m -> nth_error (list_store l n a) m = nth_error l m.
Proof.
  revert n m. induction l as [| x l IH]; intros [| n] [| m] H; simpl; auto.
  congruence.
Qed.

Lemma list_store_twice {A : Type} (l : list A) (n : nat) (a b : A) :
  list_store (list_store l n a) n b = list_store l n b.
Proof.
  revert n. induction l as [| x l IH]; intros [| n]; simpl; auto.
  rewrite IH. reflexivity.
Qed.

Lemma list_store_outside {A : Type} (l : list A) (n : nat) (a : A) :
  (List.length l <= n)%nat -> list_store l n a = l.
Proof.
  revert n. induction l as [| x l IH]; intros [| n] H; simpl in *; auto; try lia.
  rewrite IH by lia. reflexivity.
Qed.

(** ** The arena *)

(** A block of [sizeof(Expr) * n] bytes has room for [n] slots. *)
Lemma size_slots (n : Z) : SIZEOF_EXPR * n / SIZEOF_EXPR = n.
Proof. rewrite Z.mul_comm. apply Z.div_mul. unfold SIZEOF_EXPR. discriminate. Qed.

Lemma realloc_length (old : list (option Expr)) (n : Z) :
  (List.length old <= Z.to_nat n)%nat ->
  List.length (realloc old (SIZEOF_EXPR * n)) = Z.to_nat n.
Proof.
  intros H. unfold realloc. cbv zeta.
  rewrite size_slots.
  rewrite length_app, repeat_length, firstn_all2 by exact H. lia.
Qed.

Lemma realloc_old (old : list (option Expr)) (n : Z) (i : nat) :
  (List.length old <= Z.to_nat n)%nat -> (i < List.length old)%nat ->
  nth_error (realloc old (SIZEOF_EXPR * n)) i = nth_error old i.
Proof.
  intros H Hi. unfold realloc. cbv zeta.
  rewrite size_slots.
  rewrite firstn_all2 by exact H. apply nth_error_app1. exact Hi.
Qed.

Lemma realloc_fresh (old : list (option Expr)) (n : Z) (i : nat) :
  (List.length old <= i)%nat -> (i < Z.to_nat n)%nat ->
  nth_error (realloc old (SIZEOF_EXPR * n)) i = Some None.
Proof.
  intros H Hi. unfold realloc. cbv zeta.
  rewrite size_slots.
  rewrite firstn_all2 by lia.
  rewrite nth_error_app2 by exact H.
  apply nth_error_repeat. lia.
Qed.

Lemma expr_at_Done (eb : Expr_Buffer) (index : Expr_Index) (e : Expr) :
  expr_at eb index = Done e <->
  index < count eb /\ nth_error (items eb) (Z.to_nat index) = Some (Some e).
Proof.
  unfold expr_at, expr_buffer_at, expr_load, assert.
  destruct (Z.ltb_spec index (count eb)) as [Hlt | Hge]; simpl.
  - destruct (nth_error (items eb) (Z.to_nat index)) as [[e' |] |]; split.
    + intros H. injection H as ->. auto.
    + intros [_ H]. injection H as ->. reflexivity.
    + discriminate.
    + intros [_ H]. discriminate.
    + discriminate.
    + intros [_ H]. discriminate.
  - split; [discriminate | lia].
Qed.

(** What [expr_buffer_alloc] does to an arena in its normal state. *)
Lemma expr_buffer_alloc_spec (eb : Expr_Buffer) :
  eb_wf eb ->
  exists eb',
    expr_buffer_alloc eb = Done (count eb, eb') /\
    count eb' = count eb + 1 /\
    capacity eb' = (if count eb <? capacity eb then capacity eb
                    else if capacity eb =? 0 then 128 else 2 * capacity eb) /\
    Z.of_nat (List.length (items eb')) = capacity eb' /\
    count eb' <= capacity eb' /\
    (forall i, (i < List.length (items eb))%nat ->
               nth_error (items eb') i = nth_error (items eb) i) /\
    nth_error (items eb') (Z.to_nat (count eb)) =
      (if count eb <? capacity eb then nth_error (items eb) (Z.to_nat (count eb))
       else Some None).
Proof.
  intros (Hcount & Hlen & Hcap). rewrite size_max in Hcap.
  unfold SIZEOF_EXPR in Hcap.
  unfold expr_buffer_alloc.
  destruct (Z.leb_spec (capacity eb) (count eb)) as [Hfull | Hroom].
  - assert (Heq : count eb = capacity eb) by lia.
    destruct (Z.ltb_spec (count eb) (capacity eb)) as [Hlt | _]; [lia |].
    destruct (Z.eqb_spec (capacity eb) 0) as [Hzero | Hpos].
    + assert (Hnil : items eb = []).
      { destruct (items eb); [reflexivity | simpl in Hlen; lia]. }
      rewrite Hnil. cbn [bind assert count capacity items].
      rewrite (size_t_small (SIZEOF_EXPR * 128))
        by (unfold SIZEOF_EXPR; rewrite size_max; lia).
      eexists. split.
      * rewrite size_t_small by (rewrite size_max; lia). reflexivity.
      * cbn [count capacity items]. rewrite Heq, Hzero.
        split; [lia |]. split; [reflexivity |].
        split; [rewrite realloc_length by (simpl; lia); lia |].
        split; [lia |].
        split; [intros i Hi; simpl in Hi; lia |].
        apply realloc_fresh; simpl; lia.
    + cbn [bind count capacity items].
      rewrite (size_t_small (capacity eb * 2)) by (rewrite size_max; lia).
      rewrite (size_t_small (SIZEOF_EXPR * (capacity eb * 2)))
        by (unfold SIZEOF_EXPR; rewrite size_max; lia).
      eexists. split.
      * rewrite size_t_small by (rewrite size_max; lia). reflexivity.
      * cbn [count capacity items].
        split; [lia |]. split; [lia |].
        split; [rewrite realloc_length by lia; lia |].
        split; [lia |].
        split; [intros i Hi; apply realloc_old; lia |].
        apply realloc_fresh; lia.
  - destruct (Z.ltb_spec (count eb) (capacity eb)) as [_ | Hge]; [| lia].
    simpl bind. eexists. split.
    + rewrite size_t_small by (rewrite size_max; lia). reflexivity.
    + cbn [count capacity items].
      split; [lia |]. split; [reflexivity |].
      split; [exact Hlen |].
      split; [lia |].
      split; [reflexivity | reflexivity].
Qed.

Lemma expr_buffer_alloc_keeps (eb eb' : Expr_Buffer) (index : Expr_Index) (e : Expr) :
  eb_wf eb -> expr_buffer_alloc eb = Done (count eb, eb') ->
  expr_at eb index = Done e -> expr_at eb' index = Done e.
Proof.
  intros Hwf Halloc Hat.
  destruct (expr_buffer_alloc_spec eb Hwf) as (eb2 & Heq & Hcount & _ & _ & _ & Hold & _).
  rewrite Heq in Halloc. injection Halloc as <-.
  apply expr_at_Done in Hat. destruct Hat as [Hlt Hnth].
  apply expr_at_Done. split; [lia |].
  rewrite Hold; [exact Hnth |].
  apply nth_error_Some. rewrite Hnth. discriminate.
Qed.

Lemma expr_store_at (eb : Expr_Buffer) (index : Expr_Index) (e : Expr) :
  0 <= index < count eb -> index < Z.of_nat (List.length (items eb)) ->
  expr_at (expr_store eb index e) index = Done e.
Proof.
  intros Hcount Hlen. apply expr_at_Done. cbn [expr_store count items].
  split; [lia |]. apply list_store_same. lia.
Qed.

Lemma expr_store_other (eb : Expr_Buffer) (index other : Expr_Index) (e : Expr) :
  0 <= index -> 0 <= other -> index <> other ->
  expr_at (expr_store eb index e) other = expr_at eb other.
Proof.
  intros Hi Ho Hne. unfold expr_at, expr_buffer_at, expr_load, assert.
  cbn [expr_store count items].
  destruct (other <? count eb); simpl; [| reflexivity].
  rewrite list_store_other by lia. reflexivity.
Qed.

(** A node that is allocated and written leaves the nodes before it alone. *)
Lemma expr_alloc_store_keeps (eb eb' : Expr_Buffer) (e node : Expr) (index : Expr_Index) :
  eb_wf eb -> expr_buffer_alloc eb = Done (count eb, eb') ->
  0 <= index -> expr_at eb index = Done node ->
  expr_at (expr_store eb' (count eb) e) index = Done node.
Proof.
  intros Hwf Halloc Hpos Hat.
  pose proof (proj1 (expr_at_Done _ _ _) Hat) as [Hlt _].
  pose proof Hwf as (Hc & Hl & Hd).
  rewrite expr_store_other by lia.
  eapply expr_buffer_alloc_keeps; eauto.
Qed.

(** C8, as amended: in an arena in its normal state (the block has
    [capacity] slots, and the size in bytes of a block of twice as many does
    not wrap), [expr_buffer_alloc] returns the count of the allocations made
    before and adds one slot; the capacity is kept while a slot is free and
    otherwise becomes 128 (from 0) or twice what it was, and the block has as
    many slots as the new capacity; the nodes stored at the existing indices,
    and every slot of the old block, are kept.  The slot it hands out is not
    zeroed: it is indeterminate when the block has just grown, and a read of
    it is undefined. *)
Theorem expr_buffer_alloc_contract (eb : Expr_Buffer) :
  eb_wf eb ->
  exists eb',
    expr_buffer_alloc eb = Done (count eb, eb') /\
    count eb' = count eb + 1 /\
    capacity eb' = (if count eb <? capacity eb then capacity eb
                    else if capacity eb =? 0 then 128 else 2 * capacity eb) /\
    Z.of_nat (List.length (items eb')) = capacity eb' /\
    (forall index e, expr_at eb index = Done e -> expr_at eb' index = Done e) /\
    (forall i, (i < List.length (items eb))%nat ->
               nth_error (items eb') i = nth_error (items eb) i) /\
    (capacity eb <= count eb -> expr_load eb' (count eb) = Stop UNDEFINED).
Proof.
  intros Hwf.
  destruct (expr_buffer_alloc_spec eb Hwf)
    as (eb' & Heq & Hcount & Hcap & Hlen & Hle & Hold & Hnew).
  exists eb'. destruct Hwf as (Hc & _ & _).
  split; [exact Heq |]. split; [exact Hcount |]. split; [exact Hcap |].
  split; [exact Hlen |].
  split.
  { intros index e Hat.
    apply expr_at_Done in Hat. destruct Hat as [Hlt Hnth].
    apply expr_at_Done. split; [lia |].
    rewrite Hold; [exact Hnth |].
    apply nth_error_Some. rewrite Hnth. discriminate. }
  split; [exact Hold |].
  intros Hfull. unfold expr_load. rewrite Hnew.
  destruct (Z.ltb_spec (count eb) (capacity eb)); [lia | reflexivity].
Qed.

Lemma expr_buffer_alloc_contract_witness :
  eb_wf Expr_Buffer_full /\
  exists eb',
    expr_buffer_alloc Expr_Buffer_full = Done (128, eb') /\
    count eb' = 129 /\ capacity eb' = 256 /\
    Z.of_nat (List.length (items eb')) = 256 /\
    expr_at eb' 127 = Done (EXPR_KIND_NUMBER 1%float) /\
    expr_load eb' 128 = Stop UNDEFINED.
Proof.
  assert (Hwf : eb_wf Expr_Buffer_full).
  { unfold eb_wf. rewrite size_max. simpl. lia. }
  split; [exact Hwf |].
  destruct (expr_buffer_alloc_contract Expr_Buffer_full Hwf)
    as (eb' & Heq & Hcount & Hcap & Hlen & Hkeep & _ & Hfresh).
  exists eb'.
  split; [exact Heq |]. split; [exact Hcount |]. split; [exact Hcap |].
  split; [rewrite Hlen; exact Hcap |].
  split; [apply Hkeep; reflexivity |].
  apply Hfresh. simpl. lia.
Defined.

(** C8, as the claim states it, fails on the empty arena: the slot that the
    first allocation returns is not the zero node. *)
Lemma expr_buffer_alloc_slot_not_zeroed :
  ~ (exists index eb',
       expr_buffer_alloc Expr_Buffer_zero = Done (index, eb') /\
       expr_at eb' index = Done Expr_zero).
Proof.
  intros (index & eb' & Halloc & Hat).
  vm_compute in Halloc. injection Halloc as <- <-.
  vm_compute in Hat. discriminate.
Qed.

(** Outside that state the block can have fewer slots than the capacity says:
    when the capacity doubles from [2^60] to [2^61], the size in bytes
    [sizeof(Expr) * capacity] wraps to 0, so that [realloc] is asked for a
    block that holds no slot. *)
Example expr_buffer_alloc_size_wraps (old : list (option Expr)) :
  expr_buffer_alloc {| count := 2 ^ 60; capacity := 2 ^ 60; items := old |} =
  Done (2 ^ 60, {| count := 2 ^ 60 + 1; capacity := 2 ^ 61; items := [] |}).
Proof.
  unfold expr_buffer_alloc. cbn [count capacity items].
  replace (2 ^ 60 <=? 2 ^ 60) with true by reflexivity.
  replace (2 ^ 60 =? 0) with false by reflexivity.
  cbn [bind count capacity items].
  replace (size_t (SIZEOF_EXPR * size_t (2 ^ 60 * 2))) with 0 by reflexivity.
  replace (size_t (2 ^ 60 * 2)) with (2 ^ 61) by reflexivity.
  replace (size_t (2 ^ 60 + 1)) with (2 ^ 60 + 1) by reflexivity.
  reflexivity.
Qed.

(** ** The evaluator: more fuel changes nothing once there is enough *)

Lemma table_eval_cell_with_mono
    (f g : Table -> Expr_Buffer -> Expr_Index -> outcome (float * Table))
    (table : Table) (eb : Expr_Buffer) (cell : nat) :
  (forall t i, f t eb i <> OutOfFuel -> g t eb i = f t eb i) ->
  table_eval_cell_with f table eb cell <> OutOfFuel ->
  table_eval_cell_with g table eb cell = table_eval_cell_with f table eb cell.
Proof.
  intros Hfg. unfold table_eval_cell_with.
  destruct (cell_load table cell) as [c | why |]; simpl; auto.
  destruct c as [text | number | index status value]; auto.
  destruct status; auto.
  destruct (cell_set_status table cell INPROGRESS) as [t1 | why |]; simpl; auto.
  intros Hf.
  rewrite Hfg; [reflexivity |].
  intros Hout. apply Hf. rewrite Hout. reflexivity.
Qed.

Lemma table_eval_expr_mono (fuel : nat) :
  forall (table : Table) (eb : Expr_Buffer) (index : Expr_Index),
    table_eval_expr fuel table eb index <> OutOfFuel ->
    forall fuel', (fuel <= fuel')%nat ->
      table_eval_expr fuel' table eb index = table_eval_expr fuel table eb index.
Proof.
  induction fuel as [| fuel IH]; intros table eb index Hrun fuel' Hle.
  - exfalso. apply Hrun. reflexivity.
  - destruct fuel' as [| fuel']; [lia |].
    assert (Hle' : (fuel <= fuel')%nat) by lia.
    simpl in Hrun |- *.
    destruct (expr_buffer_at eb index) as [p | why |]; simpl in *; auto.
    destruct (expr_load eb p) as [e | why |]; simpl in *; auto.
    destruct e as [number | row col | lhs rhs]; auto.
    + destruct (table_cell_at table row col) as [cell | why |]; simpl in *; auto.
      destruct (cell_load table cell) as [c | why |]; simpl in *; auto.
      destruct c as [text | number | i status value]; auto.
      rewrite (table_eval_cell_with_mono (table_eval_expr fuel) (table_eval_expr fuel')).
      * reflexivity.
      * intros t j Htj. apply IH; assumption.
      * intros Hout. apply Hrun. rewrite Hout. reflexivity.
    + destruct (table_eval_expr fuel table eb lhs) as [[a t1] | why |] eqn:Hlhs.
      * rewrite (IH table eb lhs) by (rewrite ?Hlhs; auto; discriminate).
        rewrite Hlhs. simpl in *.
        destruct (table_eval_expr fuel t1 eb rhs) as [[b t2] | why |] eqn:Hrhs.
        -- rewrite (IH t1 eb rhs) by (rewrite ?Hrhs; auto; discriminate).
           rewrite Hrhs. reflexivity.
        -- rewrite (IH t1 eb rhs) by (rewrite ?Hrhs; auto; discriminate).
           rewrite Hrhs. reflexivity.
        -- exfalso. apply Hrun. reflexivity.
      * rewrite (IH table eb lhs) by (rewrite ?Hlhs; auto; discriminate).
        rewrite Hlhs. reflexivity.
      * exfalso. apply Hrun. reflexivity.
Qed.

Lemma table_eval_expr_more (fuel fuel' : nat) (table : Table) (eb : Expr_Buffer)
    (index : Expr_Index) (r : float * Table) :
  table_eval_expr fuel table eb index = Done r -> (fuel <= fuel')%nat ->
  table_eval_expr fuel' table eb index = Done r.
Proof.
  intros H Hle. rewrite (table_eval_expr_mono fuel) by (rewrite ?H; auto; discriminate).
  exact H.
Qed.

Lemma table_eval_expr_more_Stop (fuel fuel' : nat) (table : Table) (eb : Expr_Buffer)
    (index : Expr_Index) (why : Failure) :
  table_eval_expr fuel table eb index = Stop why -> (fuel <= fuel')%nat ->
  table_eval_expr fuel' table eb index = Stop why.
Proof.
  intros H Hle. rewrite (table_eval_expr_mono fuel) by (rewrite ?H; auto; discriminate).
  exact H.
Qed.

Lemma table_eval_cell_more (fuel fuel' : nat) (table : Table) (eb : Expr_Buffer)
    (cell : nat) (r : outcome Table) :
  table_eval_cell fuel table eb cell = r -> r <> OutOfFuel -> (fuel <= fuel')%nat ->
  table_eval_cell fuel' table eb cell = r.
Proof.
  intros H Hr Hle. unfold table_eval_cell in *.
  rewrite (table_eval_cell_with_mono (table_eval_expr fuel) (table_eval_expr fuel')).
  - exact H.
  - intros t i Hti. apply table_eval_expr_mono; assumption.
  - rewrite H. exact Hr.
Qed.

(** ** Reads and writes of cells *)

Lemma cell_load_Done (table : Table) (cell : nat) (c : Cell) :
  cell_load table cell = Done c <-> nth_error (cells table) cell = Some c.
Proof.
  unfold cell_load. destruct (nth_error (cells table) cell) as [c' |]; split;
    intros H; try discriminate; injection H as ->; reflexivity.
Qed.

Lemma cell_load_store_same (table : Table) (cell : nat) (c c' : Cell) :
  cell_load table cell = Done c -> cell_load (cell_store table cell c') cell = Done c'.
Proof.
  intros H. apply cell_load_Done in H. apply cell_load_Done. cbn [cell_store cells].
  apply list_store_same. apply nth_error_Some. rewrite H. discriminate.
Qed.

Lemma cell_load_store_other (table : Table) (cell other : nat) (c' : Cell) :
  cell <> other -> cell_load (cell_store table cell c') other = cell_load table other.
Proof.
  intros H. unfold cell_load. cbn [cell_store cells].
  rewrite list_store_other by exact H. reflexivity.
Qed.

Lemma cell_store_twice (table : Table) (cell : nat) (c c' : Cell) :
  cell_store (cell_store table cell c) cell c' = cell_store table cell c'.
Proof.
  unfold cell_store. cbn [cells rows cols]. rewrite list_store_twice. reflexivity.
Qed.

Lemma cell_set_status_Done (table table' : Table) (cell : nat) (status : Eval_Status) :
  cell_set_status table cell status = Done table' <->
  exists index status0 value,
    cell_load table cell = Done (CELL_KIND_EXPR index status0 value) /\
    table' = cell_store table cell (CELL_KIND_EXPR index status value).
Proof.
  unfold cell_set_status. split.
  - intros H. apply bind_Done in H. destruct H as (c & Hload & H).
    destruct c as [text | number | index status0 value]; try discriminate.
    injection H as <-. eauto.
  - intros (index & status0 & value & Hload & ->). rewrite Hload. reflexivity.
Qed.

Lemma cell_set_value_Done (table table' : Table) (cell : nat) (value : float) :
  cell_set_value table cell value = Done table' <->
  exists index status value0,
    cell_load table cell = Done (CELL_KIND_EXPR index status value0) /\
    table' = cell_store table cell (CELL_KIND_EXPR index status value).
Proof.
  unfold cell_set_value. split.
  - intros H. apply bind_Done in H. destruct H as (c & Hload & H).
    destruct c as [text | number | index status value0]; try discriminate.
    injection H as <-. eauto.
  - intros (index & status & value0 & Hload & ->). rewrite Hload. reflexivity.
Qed.

(** The two writes that end an evaluation of a cell, put together. *)
Lemma cell_finish_Done (table table' : Table) (cell : nat) (value : float) :
  (table1 <- cell_set_value table cell value ;; cell_set_status table1 cell EVALUATED)
    = Done table' <->
  exists index status value0,
    cell_load table cell = Done (CELL_KIND_EXPR index status value0) /\
    table' = cell_store table cell (CELL_KIND_EXPR index EVALUATED value).
Proof.
  split.
  - intros H. apply bind_Done in H. destruct H as (t1 & Hvalue & Hstatus).
    apply cell_set_value_Done in Hvalue.
    destruct Hvalue as (index & status & value0 & Hload & ->).
    apply cell_set_status_Done in Hstatus.
    destruct Hstatus as (index' & status' & value' & Hload' & ->).
    rewrite (cell_load_store_same _ _ _ _ Hload) in Hload'.
    injection Hload' as <- <- <-.
    rewrite cell_store_twice. eauto.
  - intros (index & status & value0 & Hload & ->).
    unfold cell_set_value. rewrite Hload. simpl.
    unfold cell_set_status. rewrite (cell_load_store_same _ _ _ _ Hload). simpl.
    rewrite cell_store_twice. reflexivity.
Qed.

Lemma expr_at_steps (eb : Expr_Buffer) (index : Expr_Index) (e : Expr) :
  expr_at eb index = Done e <->
  expr_buffer_at eb index = Done index /\ expr_load eb index = Done e.
Proof.
  unfold expr_at, expr_buffer_at, assert.
  destruct (index <? count eb); simpl; split.
  - auto.
  - intros [_ H]. exact H.
  - discriminate.
  - intros [H _]. discriminate.
Qed.

Lemma expr_buffer_at_Done (eb : Expr_Buffer) (index p : Expr_Index) :
  expr_buffer_at eb index = Done p -> p = index.
Proof.
  unfold expr_buffer_at, assert. destruct (index <? count eb); simpl; intros H;
    [injection H as <-; reflexivity | discriminate].
Qed.

(** ** The evaluator against the specification's rules *)

Lemma table_eval_cell_with_Done
    (f : Table -> Expr_Buffer -> Expr_Index -> outcome (float * Table))
    (eb : Expr_Buffer) (table table' : Table) (cell : nat) :
  (forall t i v t', f t eb i = Done (v, t') -> eval_expr_spec eb t i v t') ->
  table_eval_cell_with f table eb cell = Done table' ->
  eval_cell_spec eb table cell table'.
Proof.
  intros Hf H. unfold table_eval_cell_with in H.
  apply bind_Done in H. destruct H as (c & Hload & H).
  destruct c as [text | number | index status value].
  - injection H as <-. eapply spec_Text. exact Hload.
  - injection H as <-. eapply spec_Plain_Number. exact Hload.
  - destruct status.
    + apply bind_Done in H. destruct H as (t1 & Hmark & H).
      apply cell_set_status_Done in Hmark.
      destruct Hmark as (index' & status' & value' & Hload' & ->).
      rewrite Hload in Hload'. injection Hload' as <- <- <-.
      apply bind_Done in H. destruct H as ([v t2] & Heval & H).
      apply cell_finish_Done in H. destruct H as (index2 & status2 & value2 & Hload2 & ->).
      eapply spec_Unevaluated; eauto.
    + discriminate.
    + injection H as <-. eapply spec_Evaluated. exact Hload.
Qed.

Lemma table_eval_expr_sound (fuel : nat) :
  forall (eb : Expr_Buffer) (table : Table) (index : Expr_Index) (v : float) (table' : Table),
    table_eval_expr fuel table eb index = Done (v, table') ->
    eval_expr_spec eb table index v table'.
Proof.
  induction fuel as [| fuel IH]; intros eb table index v table' H; [discriminate |].
  simpl in H.
  apply bind_Done in H. destruct H as (p & Hat & H).
  pose proof (expr_buffer_at_Done _ _ _ Hat) as ->.
  apply bind_Done in H. destruct H as (e & Hload & H).
  assert (He : expr_at eb index = Done e) by (apply expr_at_steps; auto).
  destruct e as [number | row col | lhs rhs].
  - injection H as <- <-. apply spec_Number. exact He.
  - apply bind_Done in H. destruct H as (cell & Hcell & H).
    apply bind_Done in H. destruct H as (c & Hc & H).
    destruct c as [text | number | i status value].
    + discriminate.
    + injection H as <- <-. eapply spec_CellRef_Number; eauto.
    + apply bind_Done in H. destruct H as (t1 & Heval & H).
      apply bind_Done in H. destruct H as (c' & Hc' & H).
      destruct c' as [text' | number' | i' status' value']; try discriminate.
      injection H as <- <-.
      eapply spec_CellRef_Formula; eauto.
      eapply table_eval_cell_with_Done; [| exact Heval].
      intros t j w t' Hj. apply IH. exact Hj.
  - apply bind_Done in H. destruct H as ([a t1] & Hlhs & H).
    apply bind_Done in H. destruct H as ([b t2] & Hrhs & H).
    injection H as <- <-.
    eapply spec_Add; eauto.
Qed.

(** One activation of [table_eval_expr], once the node is known. *)
Lemma table_eval_expr_step (fuel : nat) (table : Table) (eb : Expr_Buffer)
    (index : Expr_Index) (e : Expr) :
  expr_at eb index = Done e ->
  table_eval_expr (S fuel) table eb index =
    match e with
    | EXPR_KIND_NUMBER number => Done (number, table)
    | EXPR_KIND_CELL row col =>
        cell <- table_cell_at table row col ;;
        c <- cell_load table cell ;;
        match c with
        | CELL_KIND_NUMBER number => Done (number, table)
        | CELL_KIND_TEXT _ => Stop ERROR_text_in_math
        | CELL_KIND_EXPR _ _ _ =>
            table <- table_eval_cell fuel table eb cell ;;
            c <- cell_load table cell ;;
            match c with
            | CELL_KIND_EXPR _ _ value => Done (value, table)
            | _ => Stop UNDEFINED
            end
        end
    | EXPR_KIND_PLUS lhs rhs =>
        '(lhs, table) <- table_eval_expr fuel table eb lhs ;;
        '(rhs, table) <- table_eval_expr fuel table eb rhs ;;
        Done ((lhs + rhs)%float, table)
    end.
Proof.
  intros H. apply expr_at_steps in H. destruct H as [Hat Hload].
  simpl. rewrite Hat. simpl. rewrite Hload. reflexivity.
Qed.

Lemma table_eval_spec_complete (eb : Expr_Buffer) :
  (forall table index v table',
      eval_expr_spec eb table index v table' ->
      exists fuel, table_eval_expr fuel table eb index = Done (v, table')) /\
  (forall table cell table',
      eval_cell_spec eb table cell table' ->
      exists fuel, table_eval_cell fuel table eb cell = Done table').
Proof.
  apply eval_spec_mutind.
  - intros table index v He. exists 1%nat.
    rewrite (table_eval_expr_step _ _ _ _ _ He). reflexivity.
  - intros table index row col cell v He Hcell Hload. exists 1%nat.
    rewrite (table_eval_expr_step _ _ _ _ _ He), Hcell. simpl. rewrite Hload. reflexivity.
  - intros table index row col cell expr status cached table' expr' status' cached'
      He Hcell Hload _ [fuel IH] Hload'.
    exists (S fuel).
    rewrite (table_eval_expr_step _ _ _ _ _ He), Hcell. simpl. rewrite Hload.
    rewrite IH. simpl. rewrite Hload'. reflexivity.
  - intros table index lhs rhs a table1 b table2 He _ [fuel1 IH1] _ [fuel2 IH2].
    exists (S (Nat.max fuel1 fuel2)).
    rewrite (table_eval_expr_step _ _ _ _ _ He).
    rewrite (table_eval_expr_more _ (Nat.max fuel1 fuel2) _ _ _ _ IH1) by lia. simpl.
    rewrite (table_eval_expr_more _ (Nat.max fuel1 fuel2) _ _ _ _ IH2) by lia.
    reflexivity.
  - intros table cell expr cached v table' expr' status' cached' Hload _ [fuel IH] Hload'.
    exists fuel. unfold table_eval_cell, table_eval_cell_with.
    rewrite Hload. simpl. unfold cell_set_status at 1. rewrite Hload. simpl.
    rewrite IH. simpl.
    apply cell_finish_Done. eauto.
  - intros table cell expr cached Hload. exists 0%nat.
    unfold table_eval_cell, table_eval_cell_with. rewrite Hload. reflexivity.
  - intros table cell text Hload. exists 0%nat.
    unfold table_eval_cell, table_eval_cell_with. rewrite Hload. reflexivity.
  - intros table cell number Hload. exists 0%nat.
    unfold table_eval_cell, table_eval_cell_with. rewrite Hload. reflexivity.
Qed.

Lemma table_eval_cell_sound (fuel : nat) (eb : Expr_Buffer) (table table' : Table) (cell : nat) :
  table_eval_cell fuel table eb cell = Done table' -> eval_cell_spec eb table cell table'.
Proof.
  intros H. eapply table_eval_cell_with_Done; [| exact H].
  intros t i v t' Hi. eapply table_eval_expr_sound. exact Hi.
Qed.

(** C3: [table_eval_expr] and [table_eval_cell] return exactly what the
    specification's rules derive: the number of a number node, the sum of the
    values of the two sides of a plus node (the left side first, the right
    side on the table the left side left), the stored value of a referenced
    number cell, and, for a referenced formula cell, the value cached once
    [table_eval_cell] has returned.  A derivation in the rules is a run of the
    function that returns with enough fuel, and conversely.  On
    [A0 = 10 | B0 = "=A0+5"], evaluating [B0] leaves 15 in its cache. *)
Theorem table_eval_expr_correct :
  (forall eb table index v table',
      (exists fuel, table_eval_expr fuel table eb index = Done (v, table')) <->
      eval_expr_spec eb table index v table') /\
  (forall eb table cell table',
      (exists fuel, table_eval_cell fuel table eb cell = Done table') <->
      eval_cell_spec eb table cell table') /\
  table_eval_cell 2 (the_table table_sum) (the_arena table_sum) 1 =
    Done {| cells := [CELL_KIND_NUMBER 10%float; CELL_KIND_EXPR 2 EVALUATED 15%float];
            rows := 1; cols := 2 |}.
Proof.
  split; [| split].
  - intros eb table index v table'. split.
    + intros [fuel H]. eapply table_eval_expr_sound. exact H.
    + apply table_eval_spec_complete.
  - intros eb table cell table'. split.
    + intros [fuel H]. eapply table_eval_cell_sound. exact H.
    + apply table_eval_spec_complete.
  - vm_compute. reflexivity.
Qed.

(** ** Evaluations that end in a diagnostic *)

Lemma cell_stops_is_formula (eb : Expr_Buffer) (table : Table) (cell : nat) (why : Failure) :
  cell_stops eb table cell why ->
  exists index status value, cell_load table cell = Done (CELL_KIND_EXPR index status value).
Proof. intros H. inversion H; subst; eauto. Qed.

Lemma stops_sound (eb : Expr_Buffer) :
  (forall table index why,
      expr_stops eb table index why ->
      exists n, forall fuel, (n <= fuel)%nat ->
        table_eval_expr fuel table eb index = Stop why) /\
  (forall table cell why,
      cell_stops eb table cell why ->
      exists n, forall fuel, (n <= fuel)%nat ->
        table_eval_cell fuel table eb cell = Stop why).
Proof.
  apply stops_mutind.
  - intros table index row col cell text He Hcell Hload. exists 1%nat.
    intros [| fuel] Hle; [lia |].
    rewrite (table_eval_expr_step _ _ _ _ _ He), Hcell. simpl. rewrite Hload. reflexivity.
  - intros table index row col cell why He Hcell Hstops [n IH].
    destruct (cell_stops_is_formula _ _ _ _ Hstops) as (i & status & value & Hload).
    exists (S n). intros [| fuel] Hle; [lia |].
    rewrite (table_eval_expr_step _ _ _ _ _ He), Hcell. simpl. rewrite Hload.
    rewrite IH by lia. reflexivity.
  - intros table index lhs rhs why He _ [n IH].
    exists (S n). intros [| fuel] Hle; [lia |].
    rewrite (table_eval_expr_step _ _ _ _ _ He).
    rewrite IH by lia. reflexivity.
  - intros table index lhs rhs a table1 why He Hlhs _ [n IH].
    destruct (proj1 (table_eval_spec_complete eb) _ _ _ _ Hlhs) as [m Hm].
    exists (S (Nat.max m n)). intros [| fuel] Hle; [lia |].
    rewrite (table_eval_expr_step _ _ _ _ _ He).
    rewrite (table_eval_expr_more _ fuel _ _ _ _ Hm) by lia. simpl.
    rewrite IH by lia. reflexivity.
  - intros table cell expr cached Hload. exists 0%nat. intros fuel _.
    unfold table_eval_cell, table_eval_cell_with. rewrite Hload. reflexivity.
  - intros table cell expr cached why Hload _ [n IH].
    exists n. intros fuel Hle.
    unfold table_eval_cell, table_eval_cell_with. rewrite Hload. simpl.
    unfold cell_set_status. rewrite Hload. simpl.
    rewrite IH by exact Hle. reflexivity.
Qed.

(** A run that stops with enough fuel returns at no fuel. *)
Lemma table_eval_expr_Stop_never_Done (table : Table) (eb : Expr_Buffer)
    (index : Expr_Index) (why : Failure) (n : nat) :
  (forall fuel, (n <= fuel)%nat -> table_eval_expr fuel table eb index = Stop why) ->
  forall fuel r, table_eval_expr fuel table eb index <> Done r.
Proof.
  intros Hstop fuel r Hdone.
  pose proof (table_eval_expr_more _ (Nat.max fuel n) _ _ _ _ Hdone) as H.
  rewrite Hstop in H by lia. specialize (H ltac:(lia)). discriminate.
Qed.

Lemma table_eval_cell_Stop_never_Done (table : Table) (eb : Expr_Buffer)
    (cell : nat) (why : Failure) (n : nat) :
  (forall fuel, (n <= fuel)%nat -> table_eval_cell fuel table eb cell = Stop why) ->
  forall fuel r, table_eval_cell fuel table eb cell <> Done r.
Proof.
  intros Hstop fuel r Hdone.
  assert (H : table_eval_cell (Nat.max fuel n) table eb cell = Done r).
  { eapply table_eval_cell_more; [exact Hdone | discriminate | lia]. }
  rewrite Hstop in H by lia. discriminate.
Qed.

Lemma table_cell_at_store (table : Table) (cell : nat) (c : Cell) (row col : Z) :
  table_cell_at (cell_store table cell c) row col = table_cell_at table row col.
Proof. reflexivity. Qed.

(** The two places where the diagnostics are raised, at any fuel. *)
Lemma table_eval_cell_inprogress (fuel : nat) (eb : Expr_Buffer) (table : Table) (cell : nat)
    (index : Expr_Index) (value : float) :
  cell_load table cell = Done (CELL_KIND_EXPR index INPROGRESS value) ->
  table_eval_cell fuel table eb cell = Stop ERROR_circular.
Proof.
  intros Hload. unfold table_eval_cell, table_eval_cell_with. rewrite Hload. reflexivity.
Qed.

Lemma table_eval_expr_text_reference (fuel : nat) (eb : Expr_Buffer) (table : Table)
    (index : Expr_Index) (row col : Z) (cell : nat) (text : string) :
  expr_at eb index = Done (EXPR_KIND_CELL row col) ->
  table_cell_at table row col = Done cell ->
  cell_load table cell = Done (CELL_KIND_TEXT text) ->
  table_eval_expr (S fuel) table eb index = Stop ERROR_text_in_math.
Proof.
  intros He Hcell Hload.
  rewrite (table_eval_expr_step _ _ _ _ _ He), Hcell. simpl. rewrite Hload. reflexivity.
Qed.

(** Two formula cells that are references to each other (or one that is a
    reference to itself, when [a = b]). *)
Lemma mutual_reference_stops (eb : Expr_Buffer) (table : Table) (a b : nat)
    (a_index b_index : Expr_Index) (a_value b_value : float) (a_row a_col b_row b_col : Z) :
  cell_load table a = Done (CELL_KIND_EXPR a_index UNEVALUATED a_value) ->
  cell_load table b = Done (CELL_KIND_EXPR b_index UNEVALUATED b_value) ->
  expr_at eb a_index = Done (EXPR_KIND_CELL b_row b_col) ->
  table_cell_at table b_row b_col = Done b ->
  expr_at eb b_index = Done (EXPR_KIND_CELL a_row a_col) ->
  table_cell_at table a_row a_col = Done a ->
  cell_stops eb table a ERROR_circular.
Proof.
  intros Ha Hb Hae Hab Hbe Hba.
  eapply stops_unevaluated; [exact Ha |].
  eapply stops_reference; [exact Hae | rewrite table_cell_at_store; exact Hab |].
  destruct (Nat.eq_dec a b) as [-> | Hne].
  - eapply stops_inprogress. eapply cell_load_store_same. exact Ha.
  - eapply stops_unevaluated.
    + rewrite cell_load_store_other by exact Hne. exact Hb.
    + eapply stops_reference;
        [exact Hbe | rewrite !table_cell_at_store; exact Hba |].
      eapply stops_inprogress.
      rewrite cell_load_store_other by congruence.
      eapply cell_load_store_same. exact Ha.
Qed.

(** C1: when the evaluation of a cell comes back, through the references
    and the sides of plus nodes it walks, to a cell whose status is
    [INPROGRESS] ([cell_stops] with [ERROR_circular]: the cell itself is in
    progress, or it is unevaluated and the walk from its expression, with the
    cell marked, reaches one), [table_eval_cell] ends the run with the
    circular dependency diagnostic.  With enough fuel that is the outcome, and
    whatever the fuel the call returns no table. *)
Theorem table_eval_cell_circular (eb : Expr_Buffer) (table : Table) (cell : nat) :
  cell_stops eb table cell ERROR_circular ->
  (exists n, forall fuel, (n <= fuel)%nat ->
     table_eval_cell fuel table eb cell = Stop ERROR_circular) /\
  (forall fuel table', table_eval_cell fuel table eb cell <> Done table').
Proof.
  intros H.
  destruct (proj2 (stops_sound eb) _ _ _ H) as [n Hn].
  split.
  - exists n. exact Hn.
  - eapply table_eval_cell_Stop_never_Done. exact Hn.
Qed.

Lemma table_eval_cell_circular_witness :
  cell_stops (the_arena table_cycle) (the_table table_cycle) 0 ERROR_circular /\
  (exists n, forall fuel, (n <= fuel)%nat ->
     table_eval_cell fuel (the_table table_cycle) (the_arena table_cycle) 0
       = Stop ERROR_circular) /\
  (forall fuel table',
     table_eval_cell fuel (the_table table_cycle) (the_arena table_cycle) 0 <> Done table').
Proof.
  assert (H : cell_stops (the_arena table_cycle) (the_table table_cycle) 0 ERROR_circular).
  { apply (mutual_reference_stops _ _ 0%nat 1%nat 0 1 0%float 0%float 0 0 0 1);
      vm_compute; reflexivity. }
  split; [exact H |].
  exact (table_eval_cell_circular _ _ _ H).
Defined.

(** C5: when the evaluation of an expression reaches a reference to a text
    cell ([expr_stops] with [ERROR_text_in_math]: the expression is such a
    reference, or the walk through references to formula cells and sides of
    plus nodes reaches one), [table_eval_expr] ends the run with the
    diagnostic for text in a math expression; it returns no number, whatever
    the fuel. *)
Theorem table_eval_expr_rejects_text (eb : Expr_Buffer) (table : Table) (index : Expr_Index) :
  expr_stops eb table index ERROR_text_in_math ->
  (exists n, forall fuel, (n <= fuel)%nat ->
     table_eval_expr fuel table eb index = Stop ERROR_text_in_math) /\
  (forall fuel v table', table_eval_expr fuel table eb index <> Done (v, table')).
Proof.
  intros H.
  destruct (proj1 (stops_sound eb) _ _ _ H) as [n Hn].
  split.
  - exists n. exact Hn.
  - intros fuel v table'. eapply table_eval_expr_Stop_never_Done. exact Hn.
Qed.

Lemma table_eval_expr_rejects_text_witness :
  expr_stops (the_arena table_text) (the_table table_text) 2 ERROR_text_in_math /\
  ((exists n, forall fuel, (n <= fuel)%nat ->
      table_eval_expr fuel (the_table table_text) (the_arena table_text) 2
        = Stop ERROR_text_in_math) /\
   (forall fuel v table',
      table_eval_expr fuel (the_table table_text) (the_arena table_text) 2
        <> Done (v, table'))) /\
  table_eval_cell 2 (the_table table_text) (the_arena table_text) 1
    = Stop ERROR_text_in_math.
Proof.
  assert (H : expr_stops (the_arena table_text) (the_table table_text) 2 ERROR_text_in_math).
  { apply (stops_lhs _ _ 2 0 1); [vm_compute; reflexivity |].
    apply (stops_text _ _ 0 0 0 0%nat "hello"); vm_compute; reflexivity. }
  split; [exact H |].
  split; [exact (table_eval_expr_rejects_text _ _ _ H) |].
  vm_compute. reflexivity.
Defined.

(** C6: [table_cell_at] checks both coordinates against the table's bounds
    before it forms an address: for a row that is not below [rows], or a
    column that is not below [cols], the assertion fails and no cell is
    yielded; an evaluation that follows a reference to such coordinates ends
    there, without a read of [cells]. *)
Theorem table_cell_at_bounds (table : Table) (row col : Z) :
  rows table <= row \/ cols table <= col ->
  table_cell_at table row col = Stop (if row <? rows table then ASSERT_col else ASSERT_row) /\
  (forall cell, table_cell_at table row col <> Done cell) /\
  (forall fuel eb index,
     expr_at eb index = Done (EXPR_KIND_CELL row col) ->
     table_eval_expr (S fuel) table eb index =
       Stop (if row <? rows table then ASSERT_col else ASSERT_row)).
Proof.
  intros Hout.
  assert (H : table_cell_at table row col =
              Stop (if row <? rows table then ASSERT_col else ASSERT_row)).
  { unfold table_cell_at, assert.
    destruct (Z.ltb_spec row (rows table)) as [Hrow | Hrow]; simpl; [| reflexivity].
    destruct (Z.ltb_spec col (cols table)) as [Hcol | Hcol]; simpl; [lia | reflexivity]. }
  split; [exact H |]. split.
  - intros cell Hcell. rewrite H in Hcell. discriminate.
  - intros fuel eb index He.
    rewrite (table_eval_expr_step _ _ _ _ _ He), H. reflexivity.
Qed.

Lemma table_cell_at_bounds_witness :
  (rows (the_table table_outside) <= 0 \/ cols (the_table table_outside) <= 2) /\
  (table_cell_at (the_table table_outside) 0 2 = Stop ASSERT_col /\
   (forall cell, table_cell_at (the_table table_outside) 0 2 <> Done cell) /\
   (forall fuel eb index,
      expr_at eb index = Done (EXPR_KIND_CELL 0 2) ->
      table_eval_expr (S fuel) (the_table table_outside) eb index = Stop ASSERT_col)) /\
  table_eval_cell 1 (the_table table_outside) (the_arena table_outside) 1 = Stop ASSERT_col.
Proof.
  assert (H : rows (the_table table_outside) <= 0 \/ cols (the_table table_outside) <= 2).
  { right. vm_compute. discriminate. }
  split; [exact H |].
  split; [exact (table_cell_at_bounds (the_table table_outside) 0 2 H) |].
  vm_compute. reflexivity.
Defined.

(** ** The counting hook *)

Lemma table_eval_cell_log_with_erase
    (f : Table -> Expr_Buffer -> Expr_Index -> outcome (float * Table))
    (g : Table -> Expr_Buffer -> Expr_Index -> outcome (float * Table * list nat))
    (table : Table) (eb : Expr_Buffer) (cell : nat) :
  (forall t i, erase (g t eb i) = f t eb i) ->
  erase (table_eval_cell_log_with g table eb cell) = table_eval_cell_with f table eb cell.
Proof.
  intros Hfg. unfold table_eval_cell_log_with, table_eval_cell_with.
  destruct (cell_load table cell) as [c | why |]; simpl; auto.
  destruct c as [text | number | index status value]; simpl; auto.
  destruct status; simpl; auto.
  destruct (cell_set_status table cell INPROGRESS) as [t1 | why |]; simpl; auto.
  rewrite <- Hfg.
  destruct (g t1 eb index) as [[[v t2] log] | why |]; simpl; auto.
  destruct (cell_set_value t2 cell v) as [t3 | why |]; simpl; auto.
  destruct (cell_set_status t3 cell EVALUATED) as [t4 | why |]; simpl; auto.
Qed.

(** The functions with the hook compute what the functions without it do. *)
Lemma table_eval_expr_log_erase (fuel : nat) :
  forall (table : Table) (eb : Expr_Buffer) (index : Expr_Index),
    erase (table_eval_expr_log fuel table eb index) = table_eval_expr fuel table eb index.
Proof.
  induction fuel as [| fuel IH]; intros table eb index; [reflexivity |].
  simpl.
  destruct (expr_buffer_at eb index) as [p | why |]; simpl; auto.
  destruct (expr_load eb p) as [e | why |]; simpl; auto.
  destruct e as [number | row col | lhs rhs]; simpl; auto.
  - destruct (table_cell_at table row col) as [cell | why |]; simpl; auto.
    destruct (cell_load table cell) as [c | why |]; simpl; auto.
    destruct c as [text | number | i status value]; simpl; auto.
    rewrite <- (table_eval_cell_log_with_erase (table_eval_expr fuel) (table_eval_expr_log fuel))
      by (intros t j; apply IH).
    destruct (table_eval_cell_log_with (table_eval_expr_log fuel) table eb cell)
      as [[t1 log] | why |]; simpl; auto.
    destruct (cell_load t1 cell) as [c | why |]; simpl; auto.
    destruct c; reflexivity.
  - rewrite <- (IH table eb lhs).
    destruct (table_eval_expr_log fuel table eb lhs) as [[[a t1] l1] | why |]; simpl; auto.
    rewrite <- (IH t1 eb rhs).
    destruct (table_eval_expr_log fuel t1 eb rhs) as [[[b t2] l2] | why |]; simpl; auto.
Qed.

Lemma table_eval_cell_log_erase (fuel : nat) (table : Table) (eb : Expr_Buffer) (cell : nat) :
  erase (table_eval_cell_log fuel table eb cell) = table_eval_cell fuel table eb cell.
Proof.
  apply table_eval_cell_log_with_erase. intros t i. apply table_eval_expr_log_erase.
Qed.

Lemma table_eval_cells_log_erase (fuel : nat) (eb : Expr_Buffer) (visit : list nat) :
  forall table,
    erase (table_eval_cells_log fuel table eb visit) = table_eval_cells fuel table eb visit.
Proof.
  induction visit as [| cell visit IH]; intros table; [reflexivity |].
  simpl. rewrite <- table_eval_cell_log_erase.
  destruct (table_eval_cell_log fuel table eb cell) as [[t1 l1] | why |]; simpl; auto.
  rewrite <- IH.
  destruct (table_eval_cells_log fuel t1 eb visit) as [[t2 l2] | why |]; simpl; auto.
Qed.

Lemma log_run_nil (table : Table) : log_run table table [].
Proof.
  constructor; auto.
  - constructor.
  - intros cell [].
Qed.

Lemma log_run_app (table table1 table2 : Table) (log1 log2 : list nat) :
  log_run table table1 log1 -> log_run table1 table2 log2 ->
  log_run table table2 (log1 ++ log2).
Proof.
  intros [Hr1 Hc1 Hn1 Hl1 Hf1] [Hr2 Hc2 Hn2 Hl2 Hf2].
  assert (Hdisjoint : forall cell, In cell log1 -> ~ In cell log2).
  { intros cell H1 H2.
    destruct (Hl1 cell H1) as (i1 & v1 & c1 & _ & Hafter).
    destruct (Hl2 cell H2) as (i2 & v2 & c2 & Hbefore & _).
    rewrite Hafter in Hbefore. discriminate. }
  constructor.
  - congruence.
  - congruence.
  - apply NoDup_app; assumption.
  - intros cell Hin. apply in_app_or in Hin. destruct Hin as [H1 | H2].
    + destruct (Hl1 cell H1) as (i1 & v1 & c1 & Hbefore & Hafter).
      exists i1, v1, c1. split; [exact Hbefore |].
      rewrite Hf2 by (apply Hdisjoint; exact H1). exact Hafter.
    + destruct (Hl2 cell H2) as (i2 & v2 & c2 & Hbefore & Hafter).
      exists i2, v2, c2. split; [| exact Hafter].
      rewrite <- Hf1; [exact Hbefore |].
      intros H1. exact (Hdisjoint cell H1 H2).
  - intros cell Hout.
    rewrite Hf2 by (intros H; apply Hout; apply in_or_app; auto).
    apply Hf1. intros H; apply Hout; apply in_or_app; auto.
Qed.

Lemma log_run_cell (table table' : Table) (cell : nat) (log : list nat)
    (index index' : Expr_Index) (status' : Eval_Status) (value value' v : float) :
  cell_load table cell = Done (CELL_KIND_EXPR index UNEVALUATED value) ->
  log_run (cell_store table cell (CELL_KIND_EXPR index INPROGRESS value)) table' log ->
  cell_load table' cell = Done (CELL_KIND_EXPR index' status' value') ->
  index' = index /\
  log_run table (cell_store table' cell (CELL_KIND_EXPR index' EVALUATED v)) (cell :: log).
Proof.
  intros Hload [Hr Hc Hn Hl Hf] Hload'.
  assert (Hmarked : cell_load (cell_store table cell (CELL_KIND_EXPR index INPROGRESS value)) cell
                    = Done (CELL_KIND_EXPR index INPROGRESS value))
    by (eapply cell_load_store_same; exact Hload).
  assert (Hfresh : ~ In cell log).
  { intros Hin. destruct (Hl cell Hin) as (i & w & c & Hbefore & _).
    rewrite Hmarked in Hbefore. discriminate. }
  assert (Hsame : index' = index).
  { rewrite (Hf cell Hfresh), Hmarked in Hload'. injection Hload' as -> _ _. reflexivity. }
  split; [exact Hsame |]. subst index'.
  constructor.
  - exact Hr.
  - exact Hc.
  - constructor; assumption.
  - intros other [<- | Hin].
    + exists index, value, v. split; [exact Hload |].
      eapply cell_load_store_same. exact Hload'.
    + assert (Hne : cell <> other) by (intros ->; exact (Hfresh Hin)).
      destruct (Hl other Hin) as (i & w & c & Hbefore & Hafter).
      rewrite cell_load_store_other in Hbefore by exact Hne.
      exists i, w, c. split; [exact Hbefore |].
      rewrite cell_load_store_other by exact Hne. exact Hafter.
  - intros other Hout.
    assert (Hne : cell <> other) by (intros ->; apply Hout; left; reflexivity).
    rewrite cell_load_store_other by exact Hne.
    rewrite Hf by (intros H; apply Hout; right; exact H).
    apply cell_load_store_other. exact Hne.
Qed.

Lemma table_eval_cell_log_with_run
    (g : Table -> Expr_Buffer -> Expr_Index -> outcome (float * Table * list nat))
    (eb : Expr_Buffer) (table table' : Table) (cell : nat) (log : list nat) :
  (forall t i v t' l, g t eb i = Done (v, t', l) -> log_run t t' l) ->
  table_eval_cell_log_with g table eb cell = Done (table', log) ->
  log_run table table' log.
Proof.
  intros Hg H. unfold table_eval_cell_log_with in H.
  apply bind_Done in H. destruct H as (c & Hload & H).
  destruct c as [text | number | index status value].
  - injection H as <- <-. apply log_run_nil.
  - injection H as <- <-. apply log_run_nil.
  - destruct status.
    + apply bind_Done in H. destruct H as (t1 & Hmark & H).
      apply cell_set_status_Done in Hmark.
      destruct Hmark as (index' & status' & value' & Hload' & ->).
      rewrite Hload in Hload'. injection Hload' as <- <- <-.
      apply bind_Done in H. destruct H as ([[v t2] l] & Heval & H).
      apply bind_Done in H. destruct H as (t3 & Hvalue & H).
      apply bind_Done in H. destruct H as (t4 & Hstatus & H).
      injection H as <- <-.
      assert (Hfinish : (table1 <- cell_set_value t2 cell v ;;
                         cell_set_status table1 cell EVALUATED) = Done t4).
      { rewrite Hvalue. exact Hstatus. }
      apply cell_finish_Done in Hfinish.
      destruct Hfinish as (index2 & status2 & value2 & Hload2 & ->).
      eapply log_run_cell; [exact Hload | | exact Hload2].
      eapply Hg. exact Heval.
    + discriminate.
    + injection H as <- <-. apply log_run_nil.
Qed.

Lemma table_eval_expr_log_run (fuel : nat) :
  forall (eb : Expr_Buffer) (table : Table) (index : Expr_Index)
         (v : float) (table' : Table) (log : list nat),
    table_eval_expr_log fuel table eb index = Done (v, table', log) ->
    log_run table table' log.
Proof.
  induction fuel as [| fuel IH]; intros eb table index v table' log H; [discriminate |].
  simpl in H.
  apply bind_Done in H. destruct H as (p & Hat & H).
  apply bind_Done in H. destruct H as (e & Hload & H).
  destruct e as [number | row col | lhs rhs].
  - injection H as <- <- <-. apply log_run_nil.
  - apply bind_Done in H. destruct H as (cell & Hcell & H).
    apply bind_Done in H. destruct H as (c & Hc & H).
    destruct c as [text | number | i status value].
    + discriminate.
    + injection H as <- <- <-. apply log_run_nil.
    + apply bind_Done in H. destruct H as ([t1 l1] & Heval & H).
      apply bind_Done in H. destruct H as (c' & Hc' & H).
      destruct c' as [text' | number' | i' status' value']; try discriminate.
      injection H as <- <- <-.
      eapply table_eval_cell_log_with_run; [| exact Heval].
      intros t j w t' l Hj. eapply IH. exact Hj.
  - apply bind_Done in H. destruct H as ([[a t1] l1] & Hlhs & H).
    apply bind_Done in H. destruct H as ([[b t2] l2] & Hrhs & H).
    injection H as <- <- <-.
    eapply log_run_app; eapply IH; eassumption.
Qed.

Lemma table_eval_cell_log_run (fuel : nat) (eb : Expr_Buffer) (table table' : Table)
    (cell : nat) (log : list nat) :
  table_eval_cell_log fuel table eb cell = Done (table', log) -> log_run table table' log.
Proof.
  intros H. eapply table_eval_cell_log_with_run; [| exact H].
  intros t i v t' l Hi. eapply table_eval_expr_log_run. exact Hi.
Qed.

Lemma table_eval_cells_log_run (fuel : nat) (eb : Expr_Buffer) (visit : list nat) :
  forall table table' log,
    table_eval_cells_log fuel table eb visit = Done (table', log) -> log_run table table' log.
Proof.
  induction visit as [| cell visit IH]; intros table table' log H.
  - injection H as <- <-. apply log_run_nil.
  - simpl in H.
    apply bind_Done in H. destruct H as ([t1 l1] & Hcell & H).
    apply bind_Done in H. destruct H as ([t2 l2] & Hrest & H).
    injection H as <- <-.
    eapply log_run_app; [eapply table_eval_cell_log_run; exact Hcell | eapply IH; exact Hrest].
Qed.

(** A run keeps the expression of every formula cell, and keeps an evaluated
    cell as it is. *)
Lemma log_run_formula (table table' : Table) (log : list nat) (cell : nat)
    (index : Expr_Index) (status : Eval_Status) (value : float) :
  log_run table table' log ->
  cell_load table cell = Done (CELL_KIND_EXPR index status value) ->
  exists status' value',
    cell_load table' cell = Done (CELL_KIND_EXPR index status' value') /\
    (status = EVALUATED -> status' = EVALUATED /\ value' = value).
Proof.
  intros [_ _ _ Hl Hf] Hload.
  destruct (in_dec Nat.eq_dec cell log) as [Hin | Hout].
  - destruct (Hl cell Hin) as (i & w & c & Hbefore & Hafter).
    rewrite Hload in Hbefore. injection Hbefore as -> -> ->.
    exists EVALUATED, c. split; [exact Hafter | discriminate].
  - exists status, value. rewrite (Hf cell Hout). split; [exact Hload | auto].
Qed.

(** A call that returns leaves the formula cell it was made for evaluated. *)
Lemma table_eval_cell_log_evaluates (fuel : nat) (eb : Expr_Buffer) (table table' : Table)
    (cell : nat) (log : list nat) (index : Expr_Index) (status : Eval_Status) (value : float) :
  table_eval_cell_log fuel table eb cell = Done (table', log) ->
  cell_load table cell = Done (CELL_KIND_EXPR index status value) ->
  exists cached, cell_load table' cell = Done (CELL_KIND_EXPR index EVALUATED cached).
Proof.
  intros H Hload.
  pose proof (table_eval_cell_log_run _ _ _ _ _ _ H) as Hrun.
  unfold table_eval_cell_log, table_eval_cell_log_with in H.
  rewrite Hload in H. simpl in H.
  destruct status.
  - apply bind_Done in H. destruct H as (t1 & _ & H).
    apply bind_Done in H. destruct H as ([[v t2] l] & _ & H).
    apply bind_Done in H. destruct H as (t3 & _ & H).
    apply bind_Done in H. destruct H as (t4 & _ & H).
    injection H as <- <-.
    destruct (run_logged _ _ _ Hrun cell (or_introl eq_refl)) as (i & w & c & Hbefore & Hafter).
    rewrite Hload in Hbefore. injection Hbefore as -> ->.
    exists c. exact Hafter.
  - discriminate.
  - injection H as <- <-. exists value. exact Hload.
Qed.

(** What a call finds at an evaluated cell: nothing to do. *)
Lemma table_eval_cell_log_evaluated (fuel : nat) (eb : Expr_Buffer) (table : Table)
    (cell : nat) (index : Expr_Index) (cached : float) :
  cell_load table cell = Done (CELL_KIND_EXPR index EVALUATED cached) ->
  table_eval_cell_log fuel table eb cell = Done (table, []).
Proof.
  intros Hload. unfold table_eval_cell_log, table_eval_cell_log_with.
  rewrite Hload. reflexivity.
Qed.

Lemma table_eval_expr_log_evaluated (fuel : nat) (eb : Expr_Buffer) (table : Table)
    (cell : nat) (index expr : Expr_Index) (row col : Z) (cached : float) :
  cell_load table cell = Done (CELL_KIND_EXPR expr EVALUATED cached) ->
  expr_at eb index = Done (EXPR_KIND_CELL row col) ->
  table_cell_at table row col = Done cell ->
  table_eval_expr_log (S fuel) table eb index = Done (cached, table, []).
Proof.
  intros Hload He Hcell. apply expr_at_steps in He. destruct He as [Hat Hnode].
  simpl. rewrite Hat. simpl. rewrite Hnode. simpl. rewrite Hcell. simpl.
  rewrite Hload. simpl. unfold table_eval_cell_log_with. rewrite Hload. simpl.
  rewrite Hload. reflexivity.
Qed.

Lemma table_eval_cells_log_visited (fuel : nat) (eb : Expr_Buffer) (visit : list nat) :
  forall table table' log cell index status value,
    table_eval_cells_log fuel table eb visit = Done (table', log) ->
    In cell visit ->
    cell_load table cell = Done (CELL_KIND_EXPR index status value) ->
    exists cached, cell_load table' cell = Done (CELL_KIND_EXPR index EVALUATED cached).
Proof.
  induction visit as [| first visit IH];
    intros table table' log cell index status value H Hin Hload; [destruct Hin |].
  simpl in H.
  apply bind_Done in H. destruct H as ([t1 l1] & Hfirst & H).
  apply bind_Done in H. destruct H as ([t2 l2] & Hrest & H).
  injection H as <- <-.
  destruct Hin as [-> | Hin].
  - destruct (table_eval_cell_log_evaluates _ _ _ _ _ _ _ _ _ Hfirst Hload) as [cached Hcached].
    pose proof (table_eval_cells_log_run _ _ _ _ _ _ Hrest) as Hrun.
    destruct (log_run_formula _ _ _ _ _ _ _ Hrun Hcached) as (status' & value' & Hafter & Hkeep).
    destruct (Hkeep eq_refl) as [-> ->].
    exists cached. exact Hafter.
  - pose proof (table_eval_cell_log_run _ _ _ _ _ _ Hfirst) as Hrun.
    destruct (log_run_formula _ _ _ _ _ _ _ Hrun Hload) as (status' & value' & Hafter & _).
    eapply IH; eassumption.
Qed.

(** C2: take any sequence of calls of [table_eval_cell], on any cells, some
    of them perhaps several times, that all return.  With the counting hook,
    the log of the cells whose expression was evaluated has no cell twice: an
    expression is evaluated at most once, however many calls and references
    lead to its cell.  Every formula cell that was visited is left
    [EVALUATED], with its expression index; from then on a call for it
    returns the table as it is with an empty log, whatever the fuel (even
    none), and a reference to it returns the cached value, the table as it is
    and an empty log.  The functions without the hook return the same
    table. *)
Theorem table_eval_cell_memoized (fuel : nat) (eb : Expr_Buffer) (visit : list nat)
    (table table' : Table) (log : list nat) :
  table_eval_cells_log fuel table eb visit = Done (table', log) ->
  table_eval_cells fuel table eb visit = Done table' /\
  NoDup log /\
  (forall cell index status value,
      In cell visit ->
      cell_load table cell = Done (CELL_KIND_EXPR index status value) ->
      exists cached,
        cell_load table' cell = Done (CELL_KIND_EXPR index EVALUATED cached) /\
        (forall fuel', table_eval_cell_log fuel' table' eb cell = Done (table', [])) /\
        (forall fuel', table_eval_cell fuel' table' eb cell = Done table') /\
        (forall fuel' reference row col,
            expr_at eb reference = Done (EXPR_KIND_CELL row col) ->
            table_cell_at table' row col = Done cell ->
            table_eval_expr_log (S fuel') table' eb reference = Done (cached, table', []) /\
            table_eval_expr (S fuel') table' eb reference = Done (cached, table'))).
Proof.
  intros H. split; [| split].
  - rewrite <- table_eval_cells_log_erase, H. reflexivity.
  - exact (run_once _ _ _ (table_eval_cells_log_run _ _ _ _ _ _ H)).
  - intros cell index status value Hin Hload.
    destruct (table_eval_cells_log_visited _ _ _ _ _ _ _ _ _ _ H Hin Hload) as [cached Hcached].
    exists cached. split; [exact Hcached |].
    split; [| split].
    + intros fuel'. eapply table_eval_cell_log_evaluated. exact Hcached.
    + intros fuel'. rewrite <- table_eval_cell_log_erase.
      rewrite (table_eval_cell_log_evaluated _ _ _ _ _ _ Hcached). reflexivity.
    + intros fuel' reference row col He Hcell.
      pose proof (table_eval_expr_log_evaluated fuel' _ _ _ _ _ _ _ _ Hcached He Hcell) as Hlog.
      split; [exact Hlog |].
      rewrite <- table_eval_expr_log_erase, Hlog. reflexivity.
Qed.

Lemma table_eval_cell_memoized_witness :
  let table := the_table table_fan_in in
  let eb := the_arena table_fan_in in
  let table' := {| cells := [CELL_KIND_NUMBER 1%float; CELL_KIND_EXPR 2 EVALUATED 2%float;
                             CELL_KIND_EXPR 5 EVALUATED 4%float];
                   rows := 1; cols := 3 |} in
  table_eval_cells_log 4 table eb [2%nat] = Done (table', [2%nat; 1%nat]) /\
  table_eval_cells 4 table eb [2%nat] = Done table' /\
  NoDup [2%nat; 1%nat] /\
  (forall cell index status value,
      In cell [2%nat] ->
      cell_load table cell = Done (CELL_KIND_EXPR index status value) ->
      exists cached,
        cell_load table' cell = Done (CELL_KIND_EXPR index EVALUATED cached) /\
        (forall fuel', table_eval_cell_log fuel' table' eb cell = Done (table', [])) /\
        (forall fuel', table_eval_cell fuel' table' eb cell = Done table') /\
        (forall fuel' reference row col,
            expr_at eb reference = Done (EXPR_KIND_CELL row col) ->
            table_cell_at table' row col = Done cell ->
            table_eval_expr_log (S fuel') table' eb reference = Done (cached, table', []) /\
            table_eval_expr (S fuel') table' eb reference = Done (cached, table'))).
Proof.
  intros table eb table'.
  assert (H : table_eval_cells_log 4 table eb [2%nat] = Done (table', [2%nat; 1%nat])).
  { vm_compute. reflexivity. }
  split; [exact H |].
  exact (table_eval_cell_memoized 4 eb [2%nat] table table' [2%nat; 1%nat] H).
Defined.

(** ** String views and tokens *)

Lemma sv_trim_left_length (sv : string) :
  (String.length (sv_trim_left sv) <= String.length sv)%nat.
Proof.
  induction sv as [| c rest IH]; simpl; [lia |].
  destruct (isspace c); simpl; lia.
Qed.

Lemma sv_trim_right_length (sv : string) :
  (String.length (sv_trim_right sv) <= String.length sv)%nat.
Proof.
  induction sv as [| c rest IH]; simpl; [lia |].
  destruct (sv_trim_right rest) as [| c' kept]; simpl in *.
  - destruct (isspace c); simpl; lia.
  - lia.
Qed.

Lemma sv_trim_length (sv : string) :
  (String.length (sv_trim sv) <= String.length sv)%nat.
Proof.
  unfold sv_trim.
  pose proof (sv_trim_right_length (sv_trim_left sv)).
  pose proof (sv_trim_left_length sv). lia.
Qed.

Lemma sv_trim_left_all_space (sv : string) :
  sv_trim_left sv = EmptyString <-> all_space sv = true.
Proof.
  induction sv as [| c rest IH]; simpl.
  - split; reflexivity.
  - destruct (isspace c); simpl.
    + exact IH.
    + split; discriminate.
Qed.

Lemma sv_trim_right_empty (sv : string) :
  sv_trim_right sv = EmptyString <-> all_space sv = true.
Proof.
  induction sv as [| c rest IH]; simpl.
  - split; reflexivity.
  - destruct (sv_trim_right rest) as [| c' kept].
    + destruct (isspace c); simpl.
      * split; [intros _; apply IH; reflexivity | reflexivity].
      * split; discriminate.
    + split; [discriminate |].
      intros H. apply andb_true_iff in H. destruct H as [_ H].
      apply IH in H. discriminate.
Qed.

Lemma sv_trim_left_head (sv : string) (c : ascii) (rest : string) :
  sv_trim_left sv = String c rest -> isspace c = false.
Proof.
  induction sv as [| d more IH]; simpl; [discriminate |].
  destruct (isspace d) eqn:Hd; [exact IH |].
  intros H. injection H as <- _. exact Hd.
Qed.

(** A view is trimmed to nothing exactly when it holds whitespace only. *)
Lemma sv_trim_empty (sv : string) :
  sv_trim sv = EmptyString <-> all_space sv = true.
Proof.
  unfold sv_trim. split.
  - intros H. apply sv_trim_right_empty in H.
    destruct (sv_trim_left sv) as [| c rest] eqn:Hleft.
    + apply sv_trim_left_all_space. exact Hleft.
    + pose proof (sv_trim_left_head _ _ _ Hleft) as Hc.
      simpl in H. rewrite Hc in H. discriminate.
  - intros H. apply sv_trim_left_all_space in H. rewrite H. reflexivity.
Qed.

Lemma sv_chop_left_length (sv : string) :
  forall n chopped left,
    sv_chop_left sv n = (chopped, left) ->
    (String.length chopped + String.length left = String.length sv)%nat.
Proof.
  induction sv as [| c rest IH]; intros [| n] chopped left H; simpl in H;
    try (injection H as <- <-; reflexivity).
  destruct (sv_chop_left rest n) as [a b] eqn:Hrest.
  injection H as <- <-. simpl. rewrite (IH _ _ _ Hrest). reflexivity.
Qed.

(** What [next_token] returns when it returns a token: the token is not
    empty, it is ["+"] or starts with a name character, and it has been
    consumed. *)
Lemma next_token_Some (source : string) (token : option string) (rest : string) :
  next_token source = Done (token, rest) ->
  match token with
  | Some tok =>
      tok <> EmptyString /\
      (String.length rest < String.length source)%nat /\
      (tok = "+"%string \/ exists c more, tok = String c more /\ is_name c = true)
  | None => rest = EmptyString /\ all_space source = true
  end.
Proof.
  unfold next_token. pose proof (sv_trim_length source) as Hlen.
  destruct (sv_trim source) as [| c s] eqn:Htrim.
  - intros H. injection H as <- <-. split; [reflexivity |].
    apply sv_trim_empty. exact Htrim.
  - simpl in Hlen. destruct (Ascii.eqb_spec c "+") as [-> | Hc].
    + simpl. intros H. injection H as <- <-.
      split; [discriminate |]. split; [lia |]. left. reflexivity.
    + destruct (is_name c) eqn:Hname; [| discriminate].
      unfold sv_chop_left_while. simpl. rewrite Hname. simpl.
      destruct (sv_chop_left s (sv_run is_name s)) as [a b] eqn:Hchop.
      intros H. injection H as <- <-.
      pose proof (sv_chop_left_length _ _ _ _ Hchop).
      split; [discriminate |]. split; [lia |].
      right. exists c, a. split; [reflexivity | exact Hname].
Qed.

Lemma is_plus_token_true (token : option string) :
  is_plus_token token = true <-> token = Some "+"%string.
Proof.
  destruct token as [s |]; simpl.
  - rewrite String.eqb_eq. split; [intros ->; reflexivity | intros H; injection H; auto].
  - split; discriminate.
Qed.

(** ** The parser *)

Section ParserProperties.

Variable strtod : string -> float * nat.
Variable strtol : string -> Z * nat.

(** A primary expression that is parsed is one token, which is consumed. *)
Lemma parse_primary_expr_Done (source rest : string) (eb eb' : Expr_Buffer) (index : Expr_Index) :
  parse_primary_expr strtod strtol source eb = Done (index, rest, eb') ->
  exists tok, next_token source = Done (Some tok, rest) /\
              (String.length rest < String.length source)%nat.
Proof.
  unfold parse_primary_expr. intros H.
  apply bind_Done in H. destruct H as ([token source0] & Htoken & H).
  destruct (sv_count token =? 0) eqn:Hcount; [discriminate |].
  apply bind_Done in H. destruct H as ([expr_index eb1] & _ & H).
  apply bind_Done in H. destruct H as (p & _ & H).
  assert (Hrest : rest = source0).
  { destruct (sv_strtod strtod (sv_chars token)) as [number [|]]; simpl in H.
    - injection H as _ <- _. reflexivity.
    - destruct (sv_chars token) as [| c more]; [discriminate |].
      destruct (isupper c); simpl in H; [| discriminate].
      destruct (sv_strtol strtol more) as [row [|]]; simpl in H; [| discriminate].
      injection H as _ <- _. reflexivity. }
  subst source0.
  destruct token as [tok |]; [| discriminate].
  exists tok. split; [exact Htoken |].
  apply (next_token_Some _ _ _ Htoken).
Qed.

(** One level of [parse_plus_expr], once its primary expression and the token
    after it are known. *)
Lemma parse_plus_expr_step (fuel : nat) (source rest after : string)
    (eb eb1 : Expr_Buffer) (lhs_index : Expr_Index) (token : option string) :
  parse_primary_expr strtod strtol source eb = Done (lhs_index, rest, eb1) ->
  next_token rest = Done (token, after) ->
  parse_plus_expr strtod strtol (S fuel) source eb =
    if is_plus_token token then
      '(rhs_index, source, eb) <- parse_plus_expr strtod strtol fuel after eb1 ;;
      '(expr_index, eb) <- expr_buffer_alloc eb ;;
      expr <- expr_buffer_at eb expr_index ;;
      Done (expr_index, source, expr_store eb expr (EXPR_KIND_PLUS lhs_index rhs_index))
    else Done (lhs_index, after, eb1).
Proof.
  intros Hprimary Htoken. simpl. rewrite Hprimary. simpl. rewrite Htoken. reflexivity.
Qed.

Lemma parse_plus_expr_mono (fuel : nat) :
  forall (source : string) (eb : Expr_Buffer),
    parse_plus_expr strtod strtol fuel source eb <> OutOfFuel ->
    forall fuel', (fuel <= fuel')%nat ->
      parse_plus_expr strtod strtol fuel' source eb = parse_plus_expr strtod strtol fuel source eb.
Proof.
  induction fuel as [| fuel IH]; intros source eb Hrun fuel' Hle.
  - exfalso. apply Hrun. reflexivity.
  - destruct fuel' as [| fuel']; [lia |].
    simpl in Hrun |- *.
    destruct (parse_primary_expr strtod strtol source eb) as [[[lhs rest] eb1] | why |]; simpl in *; auto.
    destruct (next_token rest) as [[token after] | why |]; simpl in *; auto.
    destruct (is_plus_token token); auto.
    rewrite IH; [reflexivity | | lia].
    intros Hout. apply Hrun. rewrite Hout. reflexivity.
Qed.

Lemma next_token_returns (source : string) : next_token source <> OutOfFuel.
Proof.
  unfold next_token. destruct (sv_trim source) as [| c rest]; [discriminate |].
  destruct (Ascii.eqb c "+").
  - destruct (sv_chop_left (String c rest) 1); discriminate.
  - destruct (is_name c); [| discriminate].
    destruct (sv_chop_left_while (String c rest) is_name); discriminate.
Qed.

Lemma expr_buffer_alloc_returns (eb : Expr_Buffer) : expr_buffer_alloc eb <> OutOfFuel.
Proof.
  unfold expr_buffer_alloc, assert.
  destruct (capacity eb <=? count eb); simpl; [| discriminate].
  destruct (capacity eb =? 0); simpl; [| discriminate].
  destruct (items eb); simpl; discriminate.
Qed.

Lemma expr_buffer_at_returns (eb : Expr_Buffer) (index : Expr_Index) :
  expr_buffer_at eb index <> OutOfFuel.
Proof.
  unfold expr_buffer_at, assert. destruct (index <? count eb); simpl; discriminate.
Qed.

Lemma parse_primary_expr_returns (source : string) (eb : Expr_Buffer) :
  parse_primary_expr strtod strtol source eb <> OutOfFuel.
Proof.
  unfold parse_primary_expr.
  pose proof (next_token_returns source) as Htoken.
  destruct (next_token source) as [[token rest] | why |]; simpl; try discriminate; [| congruence].
  destruct (sv_count token =? 0); [discriminate |].
  pose proof (expr_buffer_alloc_returns eb) as Halloc.
  destruct (expr_buffer_alloc eb) as [[index eb1] | why |]; simpl; try discriminate;
    [| congruence].
  pose proof (expr_buffer_at_returns eb1 index) as Hat.
  destruct (expr_buffer_at eb1 index) as [p | why |]; simpl; try discriminate; [| congruence].
  destruct (sv_strtod strtod (sv_chars token)) as [number [|]]; [discriminate |].
  destruct (sv_chars token) as [| c more]; [discriminate |].
  destruct (isupper c); simpl; [| discriminate].
  destruct (sv_strtol strtol more) as [row [|]]; simpl; discriminate.
Qed.

(** The fuel that [parse_expr] gives is never exhausted. *)
Lemma parse_plus_expr_fuel (fuel : nat) :
  forall (source : string) (eb : Expr_Buffer),
    (String.length source < fuel)%nat ->
    parse_plus_expr strtod strtol fuel source eb <> OutOfFuel.
Proof.
  induction fuel as [| fuel IH]; intros source eb Hlen; [lia |].
  simpl.
  pose proof (parse_primary_expr_returns source eb) as Hreturns.
  destruct (parse_primary_expr strtod strtol source eb) as [[[lhs rest] eb1] | why |]
    eqn:Hprimary; simpl; try discriminate; [| congruence].
  destruct (parse_primary_expr_Done _ _ _ _ _ Hprimary) as (tok & _ & Hrest).
  pose proof (next_token_returns rest) as Hnext.
  destruct (next_token rest) as [[token after] | why |] eqn:Htoken;
    simpl; try discriminate; [| congruence].
  destruct (is_plus_token token) eqn:Hplus; [| discriminate].
  apply is_plus_token_true in Hplus. subst token.
  pose proof (next_token_Some _ _ _ Htoken) as (_ & Hafter & _).
  specialize (IH after eb1 ltac:(lia)).
  destruct (parse_plus_expr strtod strtol fuel after eb1) as [[[rhs rest'] eb2] | why |];
    simpl; try discriminate; [| congruence].
  pose proof (expr_buffer_alloc_returns eb2) as Halloc.
  destruct (expr_buffer_alloc eb2) as [[expr_index eb3] | why |];
    simpl; try discriminate; [| congruence].
  pose proof (expr_buffer_at_returns eb3 expr_index) as Hat.
  destruct (expr_buffer_at eb3 expr_index) as [p | why |]; simpl; try discriminate.
  congruence.
Qed.

Lemma parse_expr_returns (source : string) (eb : Expr_Buffer) :
  parse_expr strtod strtol source eb <> OutOfFuel.
Proof. unfold parse_expr. apply parse_plus_expr_fuel. lia. Qed.

(** With enough fuel, [parse_plus_expr] is [parse_expr]. *)
Lemma parse_plus_expr_enough (fuel : nat) (source : string) (eb : Expr_Buffer) :
  (String.length source < fuel)%nat ->
  parse_plus_expr strtod strtol fuel source eb = parse_expr strtod strtol source eb.
Proof.
  intros Hlen. unfold parse_expr.
  apply parse_plus_expr_mono; [| lia].
  apply parse_plus_expr_fuel. lia.
Qed.

Lemma next_token_all_space (source : string) :
  all_space source = true -> next_token source = Done (None, EmptyString).
Proof.
  intros H. apply sv_trim_empty in H. unfold next_token. rewrite H. reflexivity.
Qed.

Lemma parse_primary_expr_all_space (source : string) (eb : Expr_Buffer) :
  all_space source = true ->
  parse_primary_expr strtod strtol source eb = Stop ERROR_expected_primary.
Proof.
  intros H. unfold parse_primary_expr. rewrite (next_token_all_space _ H). reflexivity.
Qed.

(** C9: when the input ends where a primary expression is expected (the
    formula is empty or holds whitespace only, or what follows a primary
    expression and a ["+"] is such an input, at any depth of the recursion),
    [parse_expr] ends the run with the diagnostic for an expected primary
    expression at the end of the input. *)
Theorem parse_expr_end_of_input (source : string) (eb : Expr_Buffer) :
  ends_early strtod strtol source eb ->
  parse_expr strtod strtol source eb = Stop ERROR_expected_primary.
Proof.
  intros H. induction H as [source eb Hspace | source eb lhs rest eb1 after Hprimary Htoken _ IH].
  - unfold parse_expr. simpl.
    rewrite (parse_primary_expr_all_space _ _ Hspace). reflexivity.
  - destruct (parse_primary_expr_Done _ _ _ _ _ Hprimary) as (tok & _ & Hrest).
    pose proof (next_token_Some _ _ _ Htoken) as (_ & Hafter & _).
    unfold parse_expr.
    rewrite (parse_plus_expr_step _ _ _ _ _ _ _ _ Hprimary Htoken).
    cbn [is_plus_token String.eqb Ascii.eqb Bool.eqb andb].
    rewrite parse_plus_expr_enough by lia.
    rewrite IH. reflexivity.
Qed.

(** C10: when a primary expression is followed by a token that is not
    ["+"], [parse_expr] returns the index of the primary expression and the
    arena as the primary expression left it; the token has been consumed,
    and what follows it in the input, whatever it is, is returned
    unread. *)
Theorem parse_expr_drops_token (source rest after tok : string) (eb eb1 : Expr_Buffer)
    (lhs_index : Expr_Index) :
  parse_primary_expr strtod strtol source eb = Done (lhs_index, rest, eb1) ->
  next_token rest = Done (Some tok, after) ->
  tok <> "+"%string ->
  parse_expr strtod strtol source eb = Done (lhs_index, after, eb1).
Proof.
  intros Hprimary Htoken Hplus. unfold parse_expr.
  rewrite (parse_plus_expr_step _ _ _ _ _ _ _ _ Hprimary Htoken).
  destruct (is_plus_token (Some tok)) eqn:His; [| reflexivity].
  apply is_plus_token_true in His. injection His as ->. contradiction.
Qed.

(** C4: [parse_expr] parses one primary expression and reads the next
    token.  If the token is ["+"], the rest of the input is parsed as a plus
    expression of its own, and the result is a new plus node, stored at the
    next index of the arena, whose left side is the primary expression and
    whose right side is the whole of that recursive result; the nodes stored
    before are kept.  If the token is anything else, or the input has ended,
    the result is the primary expression alone. *)
Theorem parse_expr_right_recursive (source rest after : string) (eb eb1 : Expr_Buffer)
    (lhs_index : Expr_Index) (token : option string) :
  parse_primary_expr strtod strtol source eb = Done (lhs_index, rest, eb1) ->
  next_token rest = Done (token, after) ->
  (token = Some "+"%string ->
   forall rhs_index rest' eb2,
     parse_expr strtod strtol after eb1 = Done (rhs_index, rest', eb2) ->
     eb_wf eb2 ->
     exists eb3,
       parse_expr strtod strtol source eb = Done (count eb2, rest', eb3) /\
       expr_at eb3 (count eb2) = Done (EXPR_KIND_PLUS lhs_index rhs_index) /\
       count eb3 = count eb2 + 1 /\
       (forall index e, 0 <= index ->
                        expr_at eb2 index = Done e -> expr_at eb3 index = Done e)) /\
  (token <> Some "+"%string ->
   parse_expr strtod strtol source eb = Done (lhs_index, after, eb1)).
Proof.
  intros Hprimary Htoken.
  destruct (parse_primary_expr_Done _ _ _ _ _ Hprimary) as (tok & _ & Hrest).
  split.
  - intros -> rhs_index rest' eb2 Hrhs Hwf.
    pose proof (next_token_Some _ _ _ Htoken) as (_ & Hafter & _).
    destruct (expr_buffer_alloc_spec eb2 Hwf)
      as (eb3 & Halloc & Hcount & Hcap & Hlen & Hle & Hold & _).
    pose proof Hwf as (Hc & Hl & Hd).
    exists (expr_store eb3 (count eb2) (EXPR_KIND_PLUS lhs_index rhs_index)).
    split; [| split; [| split]].
    + unfold parse_expr.
      rewrite (parse_plus_expr_step _ _ _ _ _ _ _ _ Hprimary Htoken).
      cbn [is_plus_token String.eqb Ascii.eqb Bool.eqb andb].
      rewrite parse_plus_expr_enough by lia.
      rewrite Hrhs. cbn [bind]. rewrite Halloc. cbn [bind].
      unfold expr_buffer_at, assert.
      destruct (Z.ltb_spec (count eb2) (count eb3)) as [_ | Hge]; [| lia].
      reflexivity.
    + apply expr_store_at; lia.
    + cbn [expr_store count]. exact Hcount.
    + intros index e Hpos Hat.
      eapply expr_alloc_store_keeps; eauto.
  - intros Hne. unfold parse_expr.
    rewrite (parse_plus_expr_step _ _ _ _ _ _ _ _ Hprimary Htoken).
    destruct (is_plus_token token) eqn:His; [| reflexivity].
    apply is_plus_token_true in His. contradiction.
Qed.

(** [parse_primary_expr] on a token, in an arena in its normal state: the
    node is allocated at the index [count eb], cleared, and then written. *)
Lemma parse_primary_expr_token (source rest tok : string) (eb : Expr_Buffer) :
  eb_wf eb ->
  next_token source = Done (Some tok, rest) ->
  exists eb1,
    expr_buffer_alloc eb = Done (count eb, eb1) /\
    parse_primary_expr strtod strtol source eb =
      let (number, is_number) := sv_strtod strtod tok in
      if is_number then
        Done (count eb, rest,
              expr_store (expr_store eb1 (count eb) Expr_zero) (count eb)
                         (EXPR_KIND_NUMBER number))
      else
        match tok with
        | EmptyString => Stop UNDEFINED
        | String c more =>
            if negb (isupper c) then Stop ERROR_cell_capital else
            let (row, is_integer) := sv_strtol strtol more in
            if negb is_integer then Stop ERROR_cell_row else
            Done (count eb, rest,
                  expr_store (expr_store eb1 (count eb) Expr_zero) (count eb)
                    (EXPR_KIND_CELL (size_t row)
                       (size_t (Z.of_N (N_of_ascii c) - Z.of_N (N_of_ascii "A")))))
        end.
Proof.
  intros Hwf Htoken.
  destruct (expr_buffer_alloc_spec eb Hwf) as (eb1 & Halloc & Hcount & _).
  exists eb1. split; [exact Halloc |].
  pose proof (next_token_Some _ _ _ Htoken) as (Hne & _ & _).
  unfold parse_primary_expr. rewrite Htoken. cbn [bind sv_count sv_chars].
  destruct tok as [| c more]; [contradiction |].
  destruct (Z.eqb_spec (Z.of_nat (String.length (String c more))) 0) as [Hzero | _];
    [simpl in Hzero; lia |].
  rewrite Halloc. cbn [bind].
  unfold expr_buffer_at, assert.
  destruct (Z.ltb_spec (count eb) (count eb1)) as [_ | Hge]; [| lia].
  cbn [bind].
  destruct (sv_strtod strtod (String c more)) as [number is_number].
  destruct is_number; [reflexivity |].
  destruct (isupper c); [| reflexivity].
  cbn [negb sv_chop_left]. reflexivity.
Qed.



End ParserProperties.

(** ** The parser on the example formulas, with the C library's conversions *)


Lemma parse_expr_right_recursive_witness :
  let eb1 := arena_of (parse "1" Expr_Buffer_zero) in
  let eb2 := arena_of (parse "2+3" eb1) in
  let eb3 := arena_of (parse "1+2+3" Expr_Buffer_zero) in
  parse_primary_expr Libc.strtod Libc.strtol "1+2+3" Expr_Buffer_zero
    = Done (0, "+2+3"%string, eb1) /\
  next_token "+2+3" = Done (Some "+"%string, "2+3"%string) /\
  parse "2+3" eb1 = Done (3, EmptyString, eb2) /\
  eb_wf eb2 /\
  (exists eb3',
     parse "1+2+3" Expr_Buffer_zero = Done (count eb2, EmptyString, eb3') /\
     expr_at eb3' (count eb2) = Done (EXPR_KIND_PLUS 0 3) /\
     count eb3' = count eb2 + 1 /\
     (forall index e, 0 <= index ->
                      expr_at eb2 index = Done e -> expr_at eb3' index = Done e)) /\
  parse "1+2+3" Expr_Buffer_zero = Done (4, EmptyString, eb3) /\
  expr_is_tree eb3 4
    (TREE_PLUS (TREE_NUMBER 1%float)
               (TREE_PLUS (TREE_NUMBER 2%float) (TREE_NUMBER 3%float))) /\
  table_eval_expr 3 Table_zero eb3 4 = Done (6%float, Table_zero).
Proof.
  intros eb1 eb2 eb3.
  assert (H1 : parse_primary_expr Libc.strtod Libc.strtol "1+2+3" Expr_Buffer_zero
               = Done (0, "+2+3"%string, eb1)) by (vm_compute; reflexivity).
  assert (H2 : next_token "+2+3" = Done (Some "+"%string, "2+3"%string))
    by (vm_compute; reflexivity).
  assert (H3 : parse "2+3" eb1 = Done (3, EmptyString, eb2)) by (vm_compute; reflexivity).
  assert (H4 : eb_wf eb2).
  { unfold eb_wf. rewrite size_max. vm_compute. repeat split; discriminate. }
  split; [exact H1 |]. split; [exact H2 |]. split; [exact H3 |]. split; [exact H4 |].
  split.
  { exact (proj1 (parse_expr_right_recursive Libc.strtod Libc.strtol _ _ _ _ _ _ _ H1 H2)
                 eq_refl 3 EmptyString eb2 H3 H4). }
  split; [vm_compute; reflexivity |].
  split.
  { split; [lia |]. exists 0, 3. split; [vm_compute; reflexivity |].
    split; [split; [lia | vm_compute; reflexivity] |].
    split; [lia |]. exists 1, 2. split; [vm_compute; reflexivity |].
    split; (split; [lia | vm_compute; reflexivity]). }
  vm_compute. reflexivity.
Defined.


Lemma parse_expr_end_of_input_witness :
  ends_early Libc.strtod Libc.strtol "1 + " Expr_Buffer_zero /\
  parse "1 + " Expr_Buffer_zero = Stop ERROR_expected_primary.
Proof.
  assert (H : ends_early Libc.strtod Libc.strtol "1 + " Expr_Buffer_zero).
  { apply (ends_after_plus _ _ "1 + " Expr_Buffer_zero 0 " +"
             (arena_of (parse "1" Expr_Buffer_zero)) "").
    - vm_compute. reflexivity.
    - vm_compute. reflexivity.
    - apply ends_at_once. reflexivity. }
  split; [exact H |].
  exact (parse_expr_end_of_input Libc.strtod Libc.strtol _ _ H).
Defined.

Lemma parse_expr_drops_token_witness :
  let eb1 := arena_of (parse "1" Expr_Buffer_zero) in
  parse_primary_expr Libc.strtod Libc.strtol "1 2 $" Expr_Buffer_zero
    = Done (0, " 2 $"%string, eb1) /\
  next_token " 2 $" = Done (Some "2"%string, " $"%string) /\
  "2"%string <> "+"%string /\
  parse "1 2 $" Expr_Buffer_zero = Done (0, " $"%string, eb1) /\
  next_token " $" = Stop (ERROR_unknown_token "$").
Proof.
  intros eb1.
  assert (H1 : parse_primary_expr Libc.strtod Libc.strtol "1 2 $" Expr_Buffer_zero
               = Done (0, " 2 $"%string, eb1)) by (vm_compute; reflexivity).
  assert (H2 : next_token " 2 $" = Done (Some "2"%string, " $"%string))
    by (vm_compute; reflexivity).
  assert (H3 : "2"%string <> "+"%string) by discriminate.
  split; [exact H1 |]. split; [exact H2 |]. split; [exact H3 |].
  split.
  - exact (parse_expr_drops_token Libc.strtod Libc.strtol _ _ _ _ _ _ _ H1 H2 H3).
  - vm_compute. reflexivity.
Defined.

(** ** Formulas without spaces *)

Lemma is_name_not_space (c : ascii) : is_name c = true -> not_space c = true.
Proof.
  destruct c as [b0 b1 b2 b3 b4 b5 b6 b7].
  destruct b0, b1, b2, b3, b4, b5, b6, b7; cbv; intros H;
    first [reflexivity | discriminate H].
Qed.

Lemma sv_all_name_not_space (sv : string) :
  sv_all is_name sv = true -> sv_all not_space sv = true.
Proof.
  induction sv as [| c rest IH]; simpl; [reflexivity |].
  intros H. apply andb_true_iff in H. destruct H as [Hc Hrest].
  rewrite (is_name_not_space c Hc), (IH Hrest). reflexivity.
Qed.

Lemma sv_all_app (predicate : ascii -> bool) (a b : string) :
  sv_all predicate (a ++ b) = sv_all predicate a && sv_all predicate b.
Proof.
  induction a as [| c rest IH]; simpl; [reflexivity |].
  rewrite IH, andb_assoc. reflexivity.
Qed.

Lemma sv_length_app (a b : string) :
  String.length (a ++ b) = (String.length a + String.length b)%nat.
Proof. induction a as [| c rest IH]; simpl; [reflexivity | rewrite IH; reflexivity]. Qed.

Lemma sv_app_empty (a : string) : (a ++ "")%string = a.
Proof. induction a as [| c rest IH]; simpl; [reflexivity | rewrite IH; reflexivity]. Qed.

Lemma sv_trim_left_no_space (sv : string) :
  sv_all not_space sv = true -> sv_trim_left sv = sv.
Proof.
  destruct sv as [| c rest]; simpl; [reflexivity |].
  unfold not_space. destruct (isspace c); simpl; [discriminate | reflexivity].
Qed.

Lemma sv_trim_right_no_space (sv : string) :
  sv_all not_space sv = true -> sv_trim_right sv = sv.
Proof.
  induction sv as [| c rest IH]; simpl; [reflexivity |].
  intros H. apply andb_true_iff in H. destruct H as [Hc Hrest].
  rewrite (IH Hrest).
  unfold not_space in Hc. destruct (isspace c); [discriminate |].
  destruct rest; reflexivity.
Qed.

Lemma sv_trim_no_space (sv : string) :
  sv_all not_space sv = true -> sv_trim sv = sv.
Proof.
  intros H. unfold sv_trim. rewrite (sv_trim_left_no_space _ H).
  apply sv_trim_right_no_space. exact H.
Qed.

Lemma sv_chop_left_app (tok rest : string) :
  sv_chop_left (tok ++ rest) (String.length tok) = (tok, rest).
Proof.
  induction tok as [| c more IH]; simpl.
  - reflexivity.
  - rewrite IH. reflexivity.
Qed.

Lemma sv_run_app (predicate : ascii -> bool) (tok rest : string) :
  sv_all predicate tok = true ->
  (rest = EmptyString \/ exists c more, rest = String c more /\ predicate c = false) ->
  sv_run predicate (tok ++ rest) = String.length tok.
Proof.
  intros Htok Hrest. induction tok as [| c more IH]; simpl in *.
  - destruct Hrest as [-> | (c & more & -> & Hc)]; simpl; [reflexivity |].
    rewrite Hc. reflexivity.
  - apply andb_true_iff in Htok. destruct Htok as [Hc Hmore].
    rewrite Hc, (IH Hmore). reflexivity.
Qed.

(** The tokenizer on a name token that the end of the input or a ["+"]
    follows, in a formula without spaces. *)
Lemma next_token_name (tok rest : string) :
  name_token tok ->
  sv_all not_space rest = true ->
  (rest = EmptyString \/ exists more, rest = String "+" more) ->
  next_token (tok ++ rest) = Done (Some tok, rest).
Proof.
  intros [Hne Hname] Hspace Hrest.
  unfold next_token.
  rewrite sv_trim_no_space
    by (rewrite sv_all_app, (sv_all_name_not_space _ Hname), Hspace; reflexivity).
  destruct tok as [| c more]; [contradiction |].
  pose proof Hname as Hall.
  simpl in Hname. apply andb_true_iff in Hname. destruct Hname as [Hc Hmore].
  change (String c more ++ rest)%string with (String c (more ++ rest)).
  cbv beta iota zeta.
  destruct (Ascii.eqb_spec c "+") as [-> | _]; [discriminate Hc |].
  rewrite Hc. unfold sv_chop_left_while.
  change (String c (more ++ rest)) with (String c more ++ rest)%string.
  rewrite (sv_run_app is_name (String c more) rest Hall).
  - rewrite sv_chop_left_app. reflexivity.
  - destruct Hrest as [-> | (r & ->)]; [left; reflexivity |].
    right. exists "+"%char, r. split; reflexivity.
Qed.

Lemma next_token_plus (rest : string) :
  sv_all not_space rest = true ->
  next_token (String "+" rest) = Done (Some "+"%string, rest).
Proof.
  intros Hspace. unfold next_token.
  rewrite sv_trim_no_space by (simpl; rewrite Hspace; reflexivity).
  reflexivity.
Qed.

Lemma plus_chain_no_space (more : list string) :
  forall first,
    name_token first -> Forall name_token more ->
    sv_all not_space (plus_chain first more) = true.
Proof.
  induction more as [| tok more IH]; intros first [_ Hfirst] Hmore; simpl.
  - apply sv_all_name_not_space. exact Hfirst.
  - inversion Hmore as [| ? ? Htok Hrest]; subst.
    rewrite sv_all_app, (sv_all_name_not_space _ Hfirst). simpl.
    apply IH; assumption.
Qed.

(** ** Room in the arena *)

Lemma eb_fits_wf (n : Z) (eb : Expr_Buffer) : eb_fits n eb -> eb_wf eb.
Proof.
  intros (Hc & Hl & Hcap & Hn & Hroom). unfold eb_wf, SIZEOF_EXPR. rewrite size_max.
  change (2 ^ 57) with 144115188075855872 in Hroom.
  repeat split; lia.
Qed.

Lemma expr_store_fits (n : Z) (eb : Expr_Buffer) (index : Expr_Index) (e : Expr) :
  eb_fits n eb -> eb_fits n (expr_store eb index e).
Proof.
  intros (Hc & Hl & Hcap & Hn & Hroom). unfold eb_fits. cbn [expr_store count capacity items].
  rewrite list_store_length. repeat split; lia.
Qed.

Lemma expr_buffer_alloc_fits (n : Z) (eb : Expr_Buffer) :
  eb_fits (n + 1) eb -> 0 <= n ->
  exists eb1,
    expr_buffer_alloc eb = Done (count eb, eb1) /\
    count eb1 = count eb + 1 /\
    eb_fits n eb1.
Proof.
  intros Hfits Hn.
  destruct (expr_buffer_alloc_spec eb (eb_fits_wf _ _ Hfits))
    as (eb1 & Halloc & Hcount & Hcap & Hlen & Hle & _).
  destruct Hfits as (Hc & Hl & Hmax & _ & Hroom).
  exists eb1. split; [exact Halloc |]. split; [exact Hcount |].
  unfold eb_fits. rewrite Hcount.
  destruct (Z.ltb_spec (count eb) (capacity eb)) as [Hlt | Hge].
  - repeat split; lia.
  - destruct (Z.eqb_spec (capacity eb) 0); repeat split; lia.
Qed.

Lemma expr_is_tree_keeps (eb eb' : Expr_Buffer) (tree : Expr_Tree) :
  (forall index node, 0 <= index -> expr_at eb index = Done node ->
                      expr_at eb' index = Done node) ->
  forall index, expr_is_tree eb index tree -> expr_is_tree eb' index tree.
Proof.
  intros Hkeep. induction tree as [number | row col | lhs IHl rhs IHr]; intros index [Hpos H].
  - split; [exact Hpos | apply Hkeep; assumption].
  - split; [exact Hpos | apply Hkeep; assumption].
  - destruct H as (l & r & Hat & Hl & Hr).
    split; [exact Hpos |]. exists l, r. auto.
Qed.

(** ** Right-leaning trees for chains of any length *)

Section ChainProperties.

Variable strtod : string -> float * nat.
Variable strtol : string -> Z * nat.

Lemma primary_node_leaf (tok : string) (e : Expr) :
  primary_node strtod strtol tok = Done e -> is_leaf e = true.
Proof.
  unfold primary_node.
  destruct (sv_strtod strtod tok) as [number [|]].
  - intros H. injection H as <-. reflexivity.
  - destruct tok as [| c more]; [discriminate |].
    destruct (isupper c); simpl; [| discriminate].
    destruct (sv_strtol strtol more) as [row [|]]; simpl; [| discriminate].
    intros H. injection H as <-. reflexivity.
Qed.

(** [parse_primary_expr] stores the node of the token at the next index. *)
Lemma parse_primary_expr_node (source rest tok : string) (eb : Expr_Buffer) (e : Expr) (n : Z) :
  eb_fits (n + 1) eb -> 0 <= n ->
  next_token source = Done (Some tok, rest) ->
  primary_node strtod strtol tok = Done e ->
  exists eb1,
    parse_primary_expr strtod strtol source eb = Done (count eb, rest, eb1) /\
    count eb1 = count eb + 1 /\
    eb_fits n eb1 /\
    expr_at eb1 (count eb) = Done e /\
    (forall index node, 0 <= index -> expr_at eb index = Done node ->
                        expr_at eb1 index = Done node).
Proof.
  intros Hfits Hn Htoken Hnode.
  pose proof (eb_fits_wf _ _ Hfits) as Hwf.
  destruct (parse_primary_expr_token strtod strtol _ _ _ _ Hwf Htoken)
    as (eb0 & Halloc & Hparse).
  destruct (expr_buffer_alloc_fits n eb Hfits Hn) as (eb0' & Halloc' & Hcount & Hfits0).
  rewrite Halloc in Halloc'. injection Halloc' as <-.
  exists (expr_store (expr_store eb0 (count eb) Expr_zero) (count eb) e).
  destruct Hfits as (Hc & _).
  destruct Hfits0 as (Hc0 & Hl0 & Hrest0).
  split; [| split; [| split; [| split]]].
  - rewrite Hparse. unfold primary_node in Hnode.
    destruct (sv_strtod strtod tok) as [number [|]].
    + injection Hnode as <-. reflexivity.
    + destruct tok as [| c more]; [discriminate |].
      destruct (isupper c); simpl in Hnode |- *; [| discriminate].
      destruct (sv_strtol strtol more) as [row [|]]; simpl in Hnode |- *; [| discriminate].
      injection Hnode as <-. reflexivity.
  - exact Hcount.
  - apply expr_store_fits, expr_store_fits. repeat split; tauto.
  - apply expr_store_at; cbn [expr_store count items].
    + lia.
    + rewrite list_store_length. lia.
  - intros index node Hpos Hat.
    pose proof (proj1 (expr_at_Done _ _ _) Hat) as [Hlt _].
    rewrite expr_store_other by lia.
    eapply expr_alloc_store_keeps; eauto.
Qed.

(** X4: a formula [first + tok1 + ... + tokn] without spaces, every token of
    which is a number or a cell reference, is parsed to its end into the tree
    that leans to the right: [first + (tok1 + (... + tokn))].  The arena gets
    one node for each token and one for each ["+"], and keeps the nodes it
    had. *)
Theorem parse_plus_chain (more : list string) :
  forall (first : string) (node : Expr) (nodes : list Expr) (eb : Expr_Buffer) (room : Z),
    name_token first ->
    primary_node strtod strtol first = Done node ->
    Forall2 (fun tok e => name_token tok /\ primary_node strtod strtol tok = Done e)
            more nodes ->
    0 <= room ->
    eb_fits (1 + 2 * Z.of_nat (List.length more) + room) eb ->
    exists root eb',
      parse_expr strtod strtol (plus_chain first more) eb = Done (root, EmptyString, eb') /\
      expr_is_tree eb' root (plus_tree (leaf_tree node) (map leaf_tree nodes)) /\
      count eb' = count eb + 1 + 2 * Z.of_nat (List.length more) /\
      eb_fits room eb' /\
      (forall index e, 0 <= index -> expr_at eb index = Done e -> expr_at eb' index = Done e).
Proof.
  induction more as [| tok more IH];
    intros first node nodes eb room Hfirst Hnode Hmore Hroom Hfits.
  - inversion Hmore; subst. simpl plus_chain. simpl plus_tree.
    change (1 + 2 * Z.of_nat (List.length (@nil string)) + room) with (1 + 0 + room) in Hfits.
    replace (1 + 0 + room) with (room + 1) in Hfits by lia.
    assert (Htoken : next_token first = Done (Some first, EmptyString)).
    { rewrite <- (sv_app_empty first) at 1.
      apply next_token_name; [exact Hfirst | reflexivity | left; reflexivity]. }
    destruct (parse_primary_expr_node _ _ _ _ _ _ Hfits Hroom Htoken Hnode)
      as (eb1 & Hparse & Hcount & Hfits1 & Hat & Hkeep).
    exists (count eb), eb1.
    split; [| split; [| split; [| split]]].
    + unfold parse_expr.
      rewrite (parse_plus_expr_step strtod strtol _ _ _ EmptyString _ _ _ None Hparse eq_refl).
      reflexivity.
    + destruct Hfits as ((Hc & _) & _).
      pose proof (primary_node_leaf _ _ Hnode) as Hleaf.
      destruct node; try discriminate; (split; [lia | exact Hat]).
    + simpl. lia.
    + exact Hfits1.
    + exact Hkeep.
  - inversion Hmore as [| ? e ? nodes' [Htok Hnode'] Hrest]; subst.
    simpl plus_chain. simpl plus_tree.
    assert (Hlen : Z.of_nat (List.length (tok :: more)) = Z.of_nat (List.length more) + 1)
      by (simpl List.length; lia).
    rewrite Hlen in *.
    assert (Hnames : Forall name_token more).
    { clear - Hrest. induction Hrest as [| ? ? ? ? [H _] _ IH']; constructor; assumption. }
    pose proof (plus_chain_no_space more tok Htok Hnames) as Hspace.
    assert (Htoken : next_token (first ++ String "+" (plus_chain tok more))
                     = Done (Some first, String "+" (plus_chain tok more))).
    { apply next_token_name; [exact Hfirst | simpl; exact Hspace | right; eauto]. }
    replace (1 + 2 * (Z.of_nat (List.length more) + 1) + room)
      with ((1 + 2 * Z.of_nat (List.length more) + (room + 1)) + 1) in Hfits by lia.
    destruct (parse_primary_expr_node _ _ _ _ _ _ Hfits ltac:(lia) Htoken Hnode)
      as (eb1 & Hparse & Hcount1 & Hfits1 & Hat1 & Hkeep1).
    destruct (IH tok e nodes' eb1 (room + 1) Htok Hnode' Hrest ltac:(lia) Hfits1)
      as (rhs & eb2 & Hrhs & Htree & Hcount2 & Hfits2 & Hkeep2).
    destruct (expr_buffer_alloc_fits room eb2 Hfits2 Hroom)
      as (eb3 & Halloc & Hcount3 & Hfits3).
    pose proof (eb_fits_wf _ _ Hfits2) as Hwf2.
    assert (Hkeep3 : forall index e0, 0 <= index -> expr_at eb2 index = Done e0 ->
              expr_at (expr_store eb3 (count eb2) (EXPR_KIND_PLUS (count eb) rhs)) index
              = Done e0).
    { intros index e0 Hpos Hat. eapply expr_alloc_store_keeps; eauto. }
    exists (count eb2), (expr_store eb3 (count eb2) (EXPR_KIND_PLUS (count eb) rhs)).
    destruct Hfits as ((Hc & _) & _).
    destruct Hfits2 as ((Hc2 & _) & Hl2 & _).
    destruct Hfits3 as (Hc3 & Hl3 & Hrest3).
    split; [| split; [| split; [| split]]].
    + unfold parse_expr.
      rewrite (parse_plus_expr_step strtod strtol _ _ _ _ _ _ _ _ Hparse
                 (next_token_plus _ Hspace)).
      cbn [is_plus_token String.eqb Ascii.eqb Bool.eqb andb].
      rewrite parse_plus_expr_enough
        by (rewrite sv_length_app; simpl String.length; lia).
      rewrite Hrhs. cbn [bind]. rewrite Halloc. cbn [bind].
      unfold expr_buffer_at, assert.
      destruct (Z.ltb_spec (count eb2) (count eb3)) as [_ | Hge]; [| lia].
      reflexivity.
    + split; [lia |]. exists (count eb), rhs.
      split; [apply expr_store_at; lia |].
      split.
      * pose proof (primary_node_leaf _ _ Hnode) as Hleaf.
        assert (Hat : expr_at (expr_store eb3 (count eb2) (EXPR_KIND_PLUS (count eb) rhs))
                        (count eb) = Done node)
          by (apply Hkeep3; [lia | apply Hkeep2; [lia | exact Hat1]]).
        destruct node; try discriminate; (split; [lia | exact Hat]).
      * eapply expr_is_tree_keeps; [exact Hkeep3 | exact Htree].
    + cbn [expr_store count]. lia.
    + apply expr_store_fits. unfold eb_fits. tauto.
    + intros index e0 Hpos Hat. apply Hkeep3; [exact Hpos |].
      apply Hkeep2; [exact Hpos |]. apply Hkeep1; assumption.
Qed.

End ChainProperties.

(** ** Termination of the evaluator *)

Lemma filter_store_decrease {A : Type} (p : A -> bool) (l : list A) :
  forall n a b,
    nth_error l n = Some a -> p a = true -> p b = false ->
    (List.length (filter p (list_store l n b)) + 1 = List.length (filter p l))%nat.
Proof.
  induction l as [| x l IH]; intros [| n] a b Hnth Ha Hb; simpl in *; try discriminate.
  - injection Hnth as ->. rewrite Ha, Hb. simpl. lia.
  - destruct (p x); simpl; rewrite <- (IH n a b Hnth Ha Hb); lia.
Qed.

Lemma filter_pointwise {A : Type} (p : A -> bool) (l' : list A) :
  forall l,
    (forall n a', nth_error l' n = Some a' -> p a' = true ->
                  exists a, nth_error l n = Some a /\ p a = true) ->
    (List.length (filter p l') <= List.length (filter p l))%nat.
Proof.
  induction l' as [| x l' IH]; intros l H; simpl; [lia |].
  destruct l as [| y l].
  - assert (Hx : p x = false).
    { destruct (p x) eqn:Hpx; [| reflexivity].
      destruct (H 0%nat x eq_refl Hpx) as (a & Ha & _). discriminate. }
    rewrite Hx. apply (IH []).
    intros n a' Hn Hp. destruct (H (S n) a' Hn Hp) as (a & Ha & _). discriminate.
  - assert (Htail : (List.length (filter p l') <= List.length (filter p l))%nat).
    { apply IH. intros n a' Hn Hp. exact (H (S n) a' Hn Hp). }
    simpl. destruct (p x) eqn:Hpx.
    + destruct (H 0%nat x eq_refl Hpx) as (a & Ha & Hpa).
      simpl in Ha. injection Ha as ->. rewrite Hpa. simpl. lia.
    + destruct (p y); simpl; lia.
Qed.

Lemma unevaluated_mark (table : Table) (cell : nat) (index : Expr_Index) (value : float) :
  cell_load table cell = Done (CELL_KIND_EXPR index UNEVALUATED value) ->
  (unevaluated (cell_store table cell (CELL_KIND_EXPR index INPROGRESS value)) + 1
   = unevaluated table)%nat.
Proof.
  intros H. apply cell_load_Done in H. unfold unevaluated. cbn [cell_store cells].
  eapply filter_store_decrease; [exact H | reflexivity | reflexivity].
Qed.

Lemma log_run_unevaluated (table table' : Table) (log : list nat) :
  log_run table table' log -> (unevaluated table' <= unevaluated table)%nat.
Proof.
  intros [_ _ _ Hl Hf]. unfold unevaluated. apply filter_pointwise.
  intros n c' Hn Hp. apply cell_load_Done in Hn.
  destruct (in_dec Nat.eq_dec n log) as [Hin | Hout].
  - destruct (Hl n Hin) as (i & v & w & _ & Hafter).
    rewrite Hafter in Hn. injection Hn as <-. discriminate.
  - rewrite (Hf n Hout) in Hn. apply cell_load_Done in Hn. eauto.
Qed.

Lemma table_eval_expr_unevaluated (fuel : nat) (table table' : Table) (eb : Expr_Buffer)
    (index : Expr_Index) (v : float) :
  table_eval_expr fuel table eb index = Done (v, table') ->
  (unevaluated table' <= unevaluated table)%nat.
Proof.
  intros H. rewrite <- table_eval_expr_log_erase in H.
  destruct (table_eval_expr_log fuel table eb index) as [[[w t] log] | why |] eqn:Hlog;
    try discriminate.
  injection H as -> ->.
  eapply log_run_unevaluated. eapply table_eval_expr_log_run. exact Hlog.
Qed.

Lemma cell_set_status_returns (table : Table) (cell : nat) (status : Eval_Status) :
  cell_set_status table cell status <> OutOfFuel.
Proof.
  unfold cell_set_status, cell_load.
  destruct (nth_error (cells table) cell) as [[| |] |]; discriminate.
Qed.

Lemma cell_set_value_returns (table : Table) (cell : nat) (value : float) :
  cell_set_value table cell value <> OutOfFuel.
Proof.
  unfold cell_set_value, cell_load.
  destruct (nth_error (cells table) cell) as [[| |] |]; discriminate.
Qed.

Lemma table_eval_cell_with_terminates
    (f : Table -> Expr_Buffer -> Expr_Index -> outcome (float * Table))
    (fuel : nat) (table : Table) (eb : Expr_Buffer) (cell : nat) :
  (forall t i, (eval_fuel t eb i <= fuel)%nat -> f t eb i <> OutOfFuel) ->
  (unevaluated table * S (Z.to_nat (count eb)) <= fuel)%nat ->
  table_eval_cell_with f table eb cell <> OutOfFuel.
Proof.
  intros Hf Hfuel. unfold table_eval_cell_with.
  destruct (cell_load table cell) as [c | why |] eqn:Hload; simpl; try discriminate.
  - destruct c as [text | number | index status value]; try discriminate.
    destruct status; try discriminate.
    unfold cell_set_status at 1. rewrite Hload. simpl.
    pose proof (unevaluated_mark _ _ _ _ Hload) as Hmark.
    set (marked := cell_store table cell (CELL_KIND_EXPR index INPROGRESS value)) in *.
    assert (Hrun : f marked eb index <> OutOfFuel).
    { apply Hf. unfold eval_fuel.
      assert (Hmin : (Z.to_nat (Z.min index (count eb)) <= Z.to_nat (count eb))%nat) by lia.
      rewrite <- Hmark in Hfuel. simpl in Hfuel. lia. }
    destruct (f marked eb index) as [[v t2] | why |]; simpl; try discriminate; [| congruence].
    pose proof (cell_set_value_returns t2 cell v) as Hvalue.
    destruct (cell_set_value t2 cell v) as [t3 | why |]; simpl; try discriminate;
      [| congruence].
    apply cell_set_status_returns.
  - unfold cell_load in Hload. destruct (nth_error (cells table) cell); discriminate.
Qed.

(** On an arena in which the sides of every plus node come before the node,
    the evaluator never runs out of the fuel [eval_fuel]: every evaluation
    ends, with a value or with a diagnostic. *)
Lemma table_eval_expr_terminates (eb : Expr_Buffer) :
  eb_ordered eb ->
  forall fuel table index,
    (eval_fuel table eb index <= fuel)%nat ->
    table_eval_expr fuel table eb index <> OutOfFuel.
Proof.
  intros Hord. induction fuel as [| fuel IH]; intros table index Hfuel.
  - unfold eval_fuel in Hfuel. lia.
  - destruct (expr_at eb index) as [e | why |] eqn:He.
    + rewrite (table_eval_expr_step _ _ _ _ _ He).
      pose proof (proj1 (expr_at_Done _ _ _) He) as [Hlt _].
      unfold eval_fuel in Hfuel.
      destruct e as [number | row col | lhs rhs]; try discriminate.
      * destruct (table_cell_at table row col) as [cell | why |] eqn:Hcell;
          simpl; try discriminate.
        -- destruct (cell_load table cell) as [c | why |] eqn:Hload; simpl; try discriminate.
           ++ destruct c as [text | number | i status value]; try discriminate.
              assert (Hcall : table_eval_cell fuel table eb cell <> OutOfFuel).
              { apply (table_eval_cell_with_terminates _ fuel); [exact IH | lia]. }
              destruct (table_eval_cell fuel table eb cell) as [t1 | why |];
                simpl; try discriminate; [| congruence].
              destruct (cell_load t1 cell) as [[| |] | |] eqn:Hload1; simpl; try discriminate.
              unfold cell_load in Hload1. destruct (nth_error (cells t1) cell); discriminate.
           ++ unfold cell_load in Hload. destruct (nth_error (cells table) cell); discriminate.
        -- unfold table_cell_at, assert in Hcell.
           destruct (row <? rows table); simpl in Hcell; [| discriminate].
           destruct (col <? cols table); discriminate.
      * destruct (Hord _ _ _ He) as [Hl Hr].
        assert (Hlhs : table_eval_expr fuel table eb lhs <> OutOfFuel).
        { apply IH. unfold eval_fuel. lia. }
        destruct (table_eval_expr fuel table eb lhs) as [[a t1] | why |] eqn:Hrun;
          simpl; try discriminate; [| congruence].
        pose proof (table_eval_expr_unevaluated _ _ _ _ _ _ Hrun) as Hless.
        assert (Hrhs : table_eval_expr fuel t1 eb rhs <> OutOfFuel).
        { apply IH. unfold eval_fuel.
          pose proof (Nat.mul_le_mono_r _ _ (S (Z.to_nat (count eb))) Hless). lia. }
        destruct (table_eval_expr fuel t1 eb rhs) as [[b t2] | why |];
          simpl; try discriminate. congruence.
    + simpl. unfold expr_at in He.
      destruct (expr_buffer_at eb index) as [p | why' |]; simpl in *; try discriminate.
      rewrite He. discriminate.
    + exfalso. unfold expr_at, expr_buffer_at, expr_load, assert in He.
      destruct (index <? count eb); simpl in He; [| discriminate].
      destruct (nth_error (items eb) (Z.to_nat index)) as [[|] |]; discriminate.
Qed.

Lemma table_eval_cell_terminates (eb : Expr_Buffer) (table : Table) (cell : nat) (fuel : nat) :
  eb_ordered eb ->
  (unevaluated table * S (Z.to_nat (count eb)) <= fuel)%nat ->
  table_eval_cell fuel table eb cell <> OutOfFuel.
Proof.
  intros Hord Hfuel. apply (table_eval_cell_with_terminates _ fuel); [| exact Hfuel].
  intros t i Hi. apply table_eval_expr_terminates; assumption.
Qed.

(** ** The parser stores the sides of a plus node before the node *)

Lemma eb_ordered_zero : eb_ordered Expr_Buffer_zero.
Proof.
  intros index lhs rhs H. apply expr_at_Done in H. destruct H as [_ H].
  simpl in H. destruct (Z.to_nat index); discriminate.
Qed.

Lemma eb_fits_le (n m : Z) (eb : Expr_Buffer) :
  eb_fits n eb -> 0 <= m <= n -> eb_fits m eb.
Proof.
  intros (Hc & Hl & Hcap & Hn & Hroom) Hm. unfold eb_fits. repeat split; lia.
Qed.

(** A node read after an allocation and a write of the new slot is the node
    written or a node that was there before. *)
Lemma expr_alloc_store_back (eb eb' : Expr_Buffer) (e node : Expr) (index : Expr_Index) :
  eb_wf eb -> expr_buffer_alloc eb = Done (count eb, eb') ->
  expr_at (expr_store eb' (count eb) e) index = Done node ->
  (index = count eb \/ index < 0 /\ count eb = 0) /\ node = e \/
  expr_at eb index = Done node.
Proof.
  intros Hwf Halloc Hat.
  destruct (expr_buffer_alloc_spec eb Hwf) as (eb2 & Heq & Hcount & _ & _ & _ & Hold & _).
  rewrite Heq in Halloc. injection Halloc as <-.
  destruct Hwf as (Hc & Hlen & _).
  apply expr_at_Done in Hat. cbn [expr_store count items] in Hat. destruct Hat as [Hlt Hnth].
  destruct (Nat.eq_dec (Z.to_nat (count eb)) (Z.to_nat index)) as [Hsame | Hother].
  - left. rewrite <- Hsame in Hnth.
    assert (Hin : (Z.to_nat (count eb) < List.length (items eb2))%nat).
    { rewrite <- (list_store_length (items eb2) (Z.to_nat (count eb)) (Some e)).
      apply nth_error_Some. rewrite Hnth. discriminate. }
    rewrite list_store_same in Hnth by exact Hin.
    injection Hnth as <-. split; [lia | reflexivity].
  - right. rewrite list_store_other in Hnth by exact Hother.
    apply expr_at_Done. split; [lia |].
    rewrite <- Hold; [exact Hnth | lia].
Qed.

Lemma expr_store_twice (eb : Expr_Buffer) (index : Expr_Index) (e e' : Expr) :
  expr_store (expr_store eb index e) index e' = expr_store eb index e'.
Proof.
  unfold expr_store. cbn [count capacity items]. rewrite list_store_twice. reflexivity.
Qed.

Section ParserOrder.

Variable strtod : string -> float * nat.
Variable strtol : string -> Z * nat.

Lemma parse_primary_expr_ordered (source rest : string) (eb eb1 : Expr_Buffer)
    (index : Expr_Index) (n : Z) :
  eb_fits (n + 1) eb -> 0 <= n -> eb_ordered eb ->
  parse_primary_expr strtod strtol source eb = Done (index, rest, eb1) ->
  index = count eb /\ count eb1 = count eb + 1 /\ eb_fits n eb1 /\ eb_ordered eb1.
Proof.
  intros Hfits Hn Hord Hparse.
  pose proof (eb_fits_wf _ _ Hfits) as Hwf.
  destruct (parse_primary_expr_Done _ _ _ _ _ _ _ Hparse) as (tok & Htoken & _).
  destruct (parse_primary_expr_token strtod strtol _ _ _ _ Hwf Htoken)
    as (eb0 & Halloc & Hshape).
  assert (Hnode : exists e, primary_node strtod strtol tok = Done e).
  { rewrite Hparse in Hshape. unfold primary_node.
    destruct (sv_strtod strtod tok) as [number [|]]; [eauto |].
    destruct tok as [| c more]; [discriminate |].
    destruct (isupper c); simpl in Hshape |- *; [| discriminate].
    destruct (sv_strtol strtol more) as [row [|]]; simpl in Hshape |- *; [eauto | discriminate]. }
  destruct Hnode as [e Hnode].
  destruct (parse_primary_expr_node strtod strtol _ _ _ _ _ _ Hfits Hn Htoken Hnode)
    as (eb1' & Hparse' & Hcount & Hfits1 & Hat & _).
  rewrite Hparse in Hparse'. injection Hparse' as -> <-.
  split; [reflexivity |]. split; [exact Hcount |]. split; [exact Hfits1 |].
  intros i lhs rhs Hi.
  assert (Heb1 : eb1 = expr_store eb0 (count eb) e).
  { rewrite Hparse in Hshape. unfold primary_node in Hnode.
    destruct (sv_strtod strtod tok) as [number [|]].
    - injection Hnode as <-. injection Hshape as ->. apply expr_store_twice.
    - destruct tok as [| c more]; [discriminate |].
      destruct (isupper c); simpl in Hshape, Hnode; [| discriminate].
      destruct (sv_strtol strtol more) as [row [|]]; simpl in Hshape, Hnode; [| discriminate].
      injection Hnode as <-. injection Hshape as ->. apply expr_store_twice. }
  rewrite Heb1 in Hi.
  destruct (expr_alloc_store_back _ _ _ _ _ Hwf Halloc Hi) as [[_ Hnew] | Hold].
  - pose proof (primary_node_leaf strtod strtol _ _ Hnode) as Hleaf.
    rewrite <- Hnew in Hleaf. discriminate.
  - exact (Hord _ _ _ Hold).
Qed.

Lemma parse_plus_expr_ordered (fuel : nat) :
  forall (source rest : string) (eb eb' : Expr_Buffer) (root : Expr_Index) (room : Z),
    eb_fits (Z.of_nat (String.length source) + room) eb -> 0 <= room ->
    eb_ordered eb ->
    parse_plus_expr strtod strtol fuel source eb = Done (root, rest, eb') ->
    eb_ordered eb' /\
    count eb <= root < count eb' /\
    eb_fits (Z.of_nat (String.length rest) + room) eb'.
Proof.
  induction fuel as [| fuel IH];
    intros source rest eb eb' root room Hfits Hroom Hord Hparse; [discriminate |].
  simpl in Hparse.
  apply bind_Done in Hparse. destruct Hparse as ([[lhs rest1] eb1] & Hprimary & Hparse).
  destruct (parse_primary_expr_Done _ _ _ _ _ _ _ Hprimary) as (tok & _ & Hrest1).
  replace (Z.of_nat (String.length source) + room)
    with ((Z.of_nat (String.length source) + room - 1) + 1) in Hfits by lia.
  destruct (parse_primary_expr_ordered _ _ _ _ _ _ Hfits ltac:(lia) Hord Hprimary)
    as (-> & Hcount1 & Hfits1 & Hord1).
  apply bind_Done in Hparse. destruct Hparse as ([token after] & Htoken & Hparse).
  pose proof (next_token_Some _ _ _ Htoken) as Hafter.
  destruct (is_plus_token token) eqn:Hplus.
  - apply is_plus_token_true in Hplus. subst token.
    destruct Hafter as (_ & Hafter & _).
    apply bind_Done in Hparse. destruct Hparse as ([[rhs rest2] eb2] & Hrhs & Hparse).
    apply bind_Done in Hparse. destruct Hparse as ([expr_index eb3] & Halloc & Hparse).
    apply bind_Done in Hparse. destruct Hparse as (p & Hat & Hparse).
    injection Hparse as <- <- <-.
    pose proof (expr_buffer_at_Done _ _ _ Hat) as ->.
    assert (Hfits1' : eb_fits (Z.of_nat (String.length after) + (room + 1)) eb1)
      by (eapply eb_fits_le; [exact Hfits1 | lia]).
    destruct (IH _ _ _ _ _ _ Hfits1' ltac:(lia) Hord1 Hrhs) as (Hord2 & Hroot2 & Hfits2).
    replace (Z.of_nat (String.length rest2) + (room + 1))
      with ((Z.of_nat (String.length rest2) + room) + 1) in Hfits2 by lia.
    pose proof (eb_fits_wf _ _ Hfits2) as Hwf2.
    destruct (expr_buffer_alloc_fits _ eb2 Hfits2 ltac:(lia))
      as (eb3' & Halloc' & Hcount3 & Hfits3).
    rewrite Halloc in Halloc'. injection Halloc' as -> <-.
    destruct Hfits as ((Hc & _) & _).
    split; [| split].
    + intros i l r Hi.
      destruct (expr_alloc_store_back _ _ _ _ _ Hwf2 Halloc Hi) as [[Hnew Heq] | Hold].
      * injection Heq as -> ->. destruct Hnew as [-> | [_ Hzero]]; lia.
      * exact (Hord2 _ _ _ Hold).
    + cbn [expr_store count]. lia.
    + apply expr_store_fits. exact Hfits3.
  - injection Hparse as <- <- <-.
    split; [exact Hord1 |]. split; [lia |].
    eapply eb_fits_le; [exact Hfits1 |].
    destruct token as [tok' |]; [destruct Hafter as (_ & Hlt & _); lia |].
    destruct Hafter as [-> _]. simpl. lia.
Qed.

(** A formula parsed into an ordered arena with room for it leaves an
    ordered arena, and the index returned is one of its nodes. *)
Lemma parse_expr_ordered (source rest : string) (eb eb' : Expr_Buffer) (root : Expr_Index) :
  eb_fits (Z.of_nat (String.length source)) eb -> eb_ordered eb ->
  parse_expr strtod strtol source eb = Done (root, rest, eb') ->
  eb_ordered eb' /\ 0 <= root < count eb' /\ eb_fits (Z.of_nat (String.length rest)) eb'.
Proof.
  intros Hfits Hord Hparse. unfold parse_expr in Hparse.
  replace (Z.of_nat (String.length source))
    with (Z.of_nat (String.length source) + 0) in Hfits by lia.
  destruct (parse_plus_expr_ordered _ _ _ _ _ _ _ Hfits ltac:(lia) Hord Hparse)
    as (Hord' & Hroot & Hfits').
  destruct Hfits as ((Hc & _) & _).
  split; [exact Hord' |]. split; [lia |].
  replace (Z.of_nat (String.length rest) + 0) with (Z.of_nat (String.length rest)) in Hfits'
    by lia.
  exact Hfits'.
Qed.

End ParserOrder.

(** Every formula that is parsed into the empty arena is evaluated to an
    end, in any table: with the fuel [eval_fuel] the evaluation of a cell
    returns a table or stops with a diagnostic. *)
Lemma parsed_formula_terminates (strtod : string -> float * nat) (strtol : string -> Z * nat)
    (source rest : string) (eb : Expr_Buffer) (root : Expr_Index)
    (table : Table) (cell : nat) (fuel : nat) :
  Z.of_nat (String.length source) < 2 ^ 57 ->
  parse_expr strtod strtol source Expr_Buffer_zero = Done (root, rest, eb) ->
  (unevaluated table * S (Z.to_nat (count eb)) <= fuel)%nat ->
  table_eval_cell fuel table eb cell <> OutOfFuel.
Proof.
  intros Hlen Hparse Hfuel.
  apply table_eval_cell_terminates; [| exact Hfuel].
  eapply (parse_expr_ordered strtod strtol source rest Expr_Buffer_zero eb root);
    [| exact eb_ordered_zero | exact Hparse].
  unfold eb_fits. simpl. repeat split; lia.
Qed.

(** ** Formulas on the border between numbers and references *)

(** [E5] is the cell in column 4 and row 5, while [1e5] is a number. *)
Example parse_E5_and_1e5 :
  expr_is_tree (arena_of (parse "E5+1e5" Expr_Buffer_zero)) 2
    (TREE_PLUS (TREE_CELL 5 4) (TREE_NUMBER 100000%float)).
Proof.
  split; [lia |]. exists 0, 1. split; [vm_compute; reflexivity |].
  split; (split; [lia | vm_compute; reflexivity]).
Qed.

(** A formula cannot hold a number with a decimal point: the point starts no
    token. *)
Example parse_decimal_point :
  parse "1.5" Expr_Buffer_zero = Stop (ERROR_unknown_token ".").
Proof. vm_compute. reflexivity. Qed.

(** A row number too large for [long] is read as the largest [long]. *)
Example parse_large_row :
  expr_is_tree (arena_of (parse "B99999999999999999999" Expr_Buffer_zero)) 0
    (TREE_CELL (2 ^ 63 - 1) 1).
Proof. split; [lia | vm_compute; reflexivity]. Qed.

(** A chain of four primaries. *)
Lemma parse_plus_chain_witness :
  let more := ["5"; "B12"; "7"]%string in
  let nodes := [EXPR_KIND_NUMBER 5%float; EXPR_KIND_CELL 12 1; EXPR_KIND_NUMBER 7%float] in
  name_token "A0" /\
  primary_node Libc.strtod Libc.strtol "A0" = Done (EXPR_KIND_CELL 0 0) /\
  Forall2 (fun tok e => name_token tok /\ primary_node Libc.strtod Libc.strtol tok = Done e)
          more nodes /\
  0 <= 0 /\
  eb_fits (1 + 2 * Z.of_nat (List.length more) + 0) Expr_Buffer_zero /\
  exists root eb',
    parse_expr Libc.strtod Libc.strtol (plus_chain "A0" more) Expr_Buffer_zero
      = Done (root, EmptyString, eb') /\
    expr_is_tree eb' root
      (plus_tree (leaf_tree (EXPR_KIND_CELL 0 0)) (map leaf_tree nodes)) /\
    count eb' = count Expr_Buffer_zero + 1 + 2 * Z.of_nat (List.length more) /\
    eb_fits 0 eb' /\
    (forall index e, 0 <= index -> expr_at Expr_Buffer_zero index = Done e ->
                     expr_at eb' index = Done e).
Proof.
  intros more nodes.
  assert (Hfirst : name_token "A0") by (split; [discriminate | reflexivity]).
  assert (Hnode : primary_node Libc.strtod Libc.strtol "A0" = Done (EXPR_KIND_CELL 0 0))
    by (vm_compute; reflexivity).
  assert (Hmore : Forall2 (fun tok e => name_token tok /\
                                        primary_node Libc.strtod Libc.strtol tok = Done e)
                          more nodes).
  { repeat constructor; try discriminate; vm_compute; reflexivity. }
  assert (Hroom : 0 <= 0) by lia.
  assert (Hfits : eb_fits (1 + 2 * Z.of_nat (List.length more) + 0) Expr_Buffer_zero).
  { unfold eb_fits. simpl. repeat split; lia. }
  split; [exact Hfirst |]. split; [exact Hnode |]. split; [exact Hmore |].
  split; [exact Hroom |]. split; [exact Hfits |].
  exact (parse_plus_chain Libc.strtod Libc.strtol more "A0"%string (EXPR_KIND_CELL 0 0) nodes
           Expr_Buffer_zero 0 Hfirst Hnode Hmore Hroom Hfits).
Defined.

(** ** Cycles through sums, and the loop of [main] *)

(** A cycle that goes through the right side of a sum, met from either cell. *)
Example cycle_through_sums :
  table_eval_cell 4 (the_table table_cycle_sums) (the_arena table_cycle_sums) 0
    = Stop ERROR_circular /\
  table_eval_cell 4 (the_table table_cycle_sums) (the_arena table_cycle_sums) 1
    = Stop ERROR_circular.
Proof. split; vm_compute; reflexivity. Qed.

(** A cell that refers to itself. *)
Example cycle_of_one :
  cell_stops (the_arena table_self) (the_table table_self) 0 ERROR_circular /\
  table_eval_cell 1 (the_table table_self) (the_arena table_self) 0 = Stop ERROR_circular.
Proof.
  split; [| vm_compute; reflexivity].
  apply (mutual_reference_stops _ _ 0%nat 0%nat 0 0 0%float 0%float 0 0 0 0);
    vm_compute; reflexivity.
Qed.

(** The loop of [main] over the three cells in row-major order, and over them
    in the opposite order: the same table results. *)
Example fan_in_any_order :
  table_eval_cells 4 (the_table table_fan_in) (the_arena table_fan_in) [0; 1; 2]%nat
    = table_eval_cells 4 (the_table table_fan_in) (the_arena table_fan_in) [2; 1; 0]%nat /\
  table_eval_cells_log 4 (the_table table_fan_in) (the_arena table_fan_in) [0; 1; 2]%nat
    = Done ({| cells := [CELL_KIND_NUMBER 1%float; CELL_KIND_EXPR 2 EVALUATED 2%float;
                         CELL_KIND_EXPR 5 EVALUATED 4%float];
               rows := 1; cols := 3 |}, [1; 2]%nat).
Proof. split; vm_compute; reflexivity. Qed.

(** * More of the program

    ** The tokenizer *)

Lemma sv_chop_left_app_eq (sv : string) :
  forall n chopped left,
    sv_chop_left sv n = (chopped, left) -> sv = (chopped ++ left)%string.
Proof.
  induction sv as [| c rest IH]; intros [| n] chopped left H; simpl in H;
    try (injection H as <- <-; reflexivity).
  destruct (sv_chop_left rest n) as [a b] eqn:Hrest.
  injection H as <- <-. simpl. rewrite <- (IH _ _ _ Hrest). reflexivity.
Qed.

Lemma sv_chop_left_run (predicate : ascii -> bool) (sv : string) :
  forall chopped left,
    sv_chop_left sv (sv_run predicate sv) = (chopped, left) ->
    sv_all predicate chopped = true /\
    (left = EmptyString \/ exists c more, left = String c more /\ predicate c = false).
Proof.
  induction sv as [| c rest IH]; intros chopped left H; simpl in H.
  - injection H as <- <-. split; [reflexivity | left; reflexivity].
  - destruct (predicate c) eqn:Hc; simpl in H.
    + destruct (sv_chop_left rest (sv_run predicate rest)) as [a b].
      injection H as <- <-. destruct (IH _ _ eq_refl) as [Ha Hb].
      split; [simpl; rewrite Hc, Ha; reflexivity | exact Hb].
    + injection H as <- <-. split; [reflexivity |]. right. eauto.
Qed.

(** X1: a token that [next_token] returns, followed by what it leaves in
    view, is the input with the whitespace at both ends removed; the token is
    ["+"], or it is a run of name characters that is not empty and cannot be
    made longer (the input ends after it, or goes on with a character that
    is not a name character). *)
Theorem next_token_splits (source rest tok : string) :
  next_token source = Done (Some tok, rest) ->
  sv_trim source = (tok ++ rest)%string /\
  (tok = "+"%string \/
   (tok <> EmptyString /\ sv_all is_name tok = true /\
    (rest = EmptyString \/ exists c more, rest = String c more /\ is_name c = false))).
Proof.
  unfold next_token.
  destruct (sv_trim source) as [| c s] eqn:Htrim; [discriminate |].
  destruct (Ascii.eqb_spec c "+") as [-> | Hc].
  - simpl. intros H. injection H as <- <-. split; [reflexivity | left; reflexivity].
  - destruct (is_name c) eqn:Hname; [| discriminate].
    unfold sv_chop_left_while.
    destruct (sv_chop_left (String c s) (sv_run is_name (String c s))) as [a b] eqn:Hchop.
    intros H. injection H as <- <-.
    split; [exact (sv_chop_left_app_eq _ _ _ _ Hchop) |].
    right. destruct (sv_chop_left_run _ _ _ _ Hchop) as [Hall Hnext].
    split; [| split; assumption].
    simpl in Hchop. rewrite Hname in Hchop. simpl in Hchop.
    destruct (sv_chop_left s (sv_run is_name s)). injection Hchop as <- _. discriminate.
Qed.

Lemma next_token_splits_witness :
  next_token "  A12+B3 " = Done (Some "A12"%string, "+B3"%string) /\
  sv_trim "  A12+B3 " = ("A12" ++ "+B3")%string /\
  ("A12"%string = "+"%string \/
   ("A12"%string <> EmptyString /\ sv_all is_name "A12" = true /\
    ("+B3"%string = EmptyString \/
     exists c more, "+B3"%string = String c more /\ is_name c = false))).
Proof.
  assert (H : next_token "  A12+B3 " = Done (Some "A12"%string, "+B3"%string))
    by (vm_compute; reflexivity).
  split; [exact H |].
  exact (next_token_splits _ _ _ H).
Defined.

(** X2: [next_token] ends the run exactly when the first character after the
    leading whitespace is neither ["+"] nor a name character; the diagnostic
    names that character.  It never fails on an input that is empty or
    whitespace, and never for a later character. *)
Theorem next_token_unknown (source : string) (why : Failure) :
  next_token source = Stop why <->
  exists c rest,
    sv_trim source = String c rest /\ c <> "+"%char /\ is_name c = false /\
    why = ERROR_unknown_token c.
Proof.
  unfold next_token. split.
  - destruct (sv_trim source) as [| c s]; [discriminate |].
    destruct (Ascii.eqb_spec c "+") as [-> | Hc].
    + destruct (sv_chop_left (String "+" s) 1); discriminate.
    + destruct (is_name c) eqn:Hname.
      * destruct (sv_chop_left_while (String c s) is_name); discriminate.
      * intros H. injection H as <-. exists c, s. auto.
  - intros (c & rest & -> & Hc & Hname & ->).
    destruct (Ascii.eqb_spec c "+") as [-> | _]; [contradiction |].
    rewrite Hname. reflexivity.
Qed.

(** ** The parser only appends to the arena *)

Section ParserFrame.

Variable strtod : string -> float * nat.
Variable strtol : string -> Z * nat.

Lemma parse_primary_expr_extends (source rest : string) (eb eb1 : Expr_Buffer)
    (index : Expr_Index) (n : Z) :
  eb_fits (n + 1) eb -> 0 <= n ->
  parse_primary_expr strtod strtol source eb = Done (index, rest, eb1) ->
  index = count eb /\ count eb1 = count eb + 1 /\ eb_fits n eb1 /\
  (String.length rest < String.length source)%nat /\
  (forall i node, 0 <= i -> expr_at eb i = Done node -> expr_at eb1 i = Done node).
Proof.
  intros Hfits Hn Hparse.
  pose proof (eb_fits_wf _ _ Hfits) as Hwf.
  destruct (parse_primary_expr_Done _ _ _ _ _ _ _ Hparse) as (tok & Htoken & Hlen).
  destruct (parse_primary_expr_token strtod strtol _ _ _ _ Hwf Htoken)
    as (eb0 & Halloc & Hshape).
  assert (Hnode : exists e, primary_node strtod strtol tok = Done e).
  { rewrite Hparse in Hshape. unfold primary_node.
    destruct (sv_strtod strtod tok) as [number [|]]; [eauto |].
    destruct tok as [| c more]; [discriminate |].
    destruct (isupper c); simpl in Hshape |- *; [| discriminate].
    destruct (sv_strtol strtol more) as [row [|]]; simpl in Hshape |- *; [eauto | discriminate]. }
  destruct Hnode as [e Hnode].
  destruct (parse_primary_expr_node strtod strtol _ _ _ _ _ _ Hfits Hn Htoken Hnode)
    as (eb1' & Hparse' & Hcount & Hfits1 & _ & Hkeep).
  rewrite Hparse in Hparse'. injection Hparse' as -> <-.
  auto.
Qed.

Lemma parse_plus_expr_extends (fuel : nat) :
  forall (source rest : string) (eb eb' : Expr_Buffer) (root : Expr_Index) (room : Z),
    eb_fits (Z.of_nat (String.length source) + room) eb -> 0 <= room ->
    parse_plus_expr strtod strtol fuel source eb = Done (root, rest, eb') ->
    count eb < count eb' <=
      count eb + (Z.of_nat (String.length source) - Z.of_nat (String.length rest)) /\
    eb_fits (Z.of_nat (String.length rest) + room) eb' /\
    (forall i node, 0 <= i -> expr_at eb i = Done node -> expr_at eb' i = Done node).
Proof.
  induction fuel as [| fuel IH];
    intros source rest eb eb' root room Hfits Hroom Hparse; [discriminate |].
  simpl in Hparse.
  apply bind_Done in Hparse. destruct Hparse as ([[lhs rest1] eb1] & Hprimary & Hparse).
  destruct (parse_primary_expr_Done _ _ _ _ _ _ _ Hprimary) as (tok & _ & Hrest1).
  replace (Z.of_nat (String.length source) + room)
    with ((Z.of_nat (String.length source) + room - 1) + 1) in Hfits by lia.
  destruct (parse_primary_expr_extends _ _ _ _ _ _ Hfits ltac:(lia) Hprimary)
    as (-> & Hcount1 & Hfits1 & Hlen1 & Hkeep1).
  apply bind_Done in Hparse. destruct Hparse as ([token after] & Htoken & Hparse).
  pose proof (next_token_Some _ _ _ Htoken) as Hafter.
  destruct (is_plus_token token) eqn:Hplus.
  - apply is_plus_token_true in Hplus. subst token.
    destruct Hafter as (_ & Hafter & _).
    apply bind_Done in Hparse. destruct Hparse as ([[rhs rest2] eb2] & Hrhs & Hparse).
    apply bind_Done in Hparse. destruct Hparse as ([expr_index eb3] & Halloc & Hparse).
    apply bind_Done in Hparse. destruct Hparse as (p & Hat & Hparse).
    injection Hparse as <- <- <-.
    pose proof (expr_buffer_at_Done _ _ _ Hat) as ->.
    assert (Hfits1' : eb_fits (Z.of_nat (String.length after) + (room + 1)) eb1)
      by (eapply eb_fits_le; [exact Hfits1 | lia]).
    destruct (IH _ _ _ _ _ _ Hfits1' ltac:(lia) Hrhs) as (Hcount2 & Hfits2 & Hkeep2).
    replace (Z.of_nat (String.length rest2) + (room + 1))
      with ((Z.of_nat (String.length rest2) + room) + 1) in Hfits2 by lia.
    pose proof (eb_fits_wf _ _ Hfits2) as Hwf2.
    destruct (expr_buffer_alloc_fits _ eb2 Hfits2 ltac:(lia))
      as (eb3' & Halloc' & Hcount3 & Hfits3).
    rewrite Halloc in Halloc'. injection Halloc' as -> <-.
    split; [| split].
    + cbn [expr_store count]. lia.
    + apply expr_store_fits. exact Hfits3.
    + intros i node Hpos Hi.
      pose proof (Hkeep2 _ _ Hpos (Hkeep1 _ _ Hpos Hi)) as Hi2.
      exact (expr_alloc_store_keeps _ _ _ _ _ Hwf2 Halloc Hpos Hi2).
  - injection Hparse as <- <- <-.
    assert (Hrest : (String.length after <= String.length rest1)%nat).
    { destruct token as [tok' |]; [destruct Hafter as (_ & Hlt & _); lia |].
      destruct Hafter as [-> _]. simpl. lia. }
    split; [lia |]. split; [| exact Hkeep1].
    eapply eb_fits_le; [exact Hfits1 | lia].
Qed.

(** X3: [parse_expr] only appends to the arena.  Parsing a formula into an
    arena with room for it stores at least one node and at most one node for
    each character it consumes; every node that was in the arena is still
    there, unchanged, at its index; the index returned is one of the new
    nodes; and the sides of every plus node are stored before the node. *)
Theorem parse_expr_extends (source rest : string) (eb eb' : Expr_Buffer) (root : Expr_Index) :
  eb_fits (Z.of_nat (String.length source)) eb -> eb_ordered eb ->
  parse_expr strtod strtol source eb = Done (root, rest, eb') ->
  count eb <= root < count eb' /\
  count eb' <= count eb + (Z.of_nat (String.length source) - Z.of_nat (String.length rest)) /\
  (forall i node, 0 <= i -> expr_at eb i = Done node -> expr_at eb' i = Done node) /\
  eb_ordered eb'.
Proof.
  intros Hfits Hord Hparse. unfold parse_expr in Hparse.
  replace (Z.of_nat (String.length source))
    with (Z.of_nat (String.length source) + 0) in Hfits by lia.
  destruct (parse_plus_expr_ordered _ _ _ _ _ _ _ _ _ Hfits ltac:(lia) Hord Hparse)
    as (Hord' & Hroot & _).
  destruct (parse_plus_expr_extends _ _ _ _ _ _ _ Hfits ltac:(lia) Hparse)
    as (Hcount & _ & Hkeep).
  split; [exact Hroot |]. split; [lia |]. split; [exact Hkeep | exact Hord'].
Qed.

End ParserFrame.

Lemma parse_expr_extends_witness :
  let eb := arena_of (parse "A0+5" Expr_Buffer_zero) in
  let eb' := arena_of (parse "B1 + C2" eb) in
  eb_fits (Z.of_nat (String.length "B1 + C2")) eb /\ eb_ordered eb /\
  parse_expr Libc.strtod Libc.strtol "B1 + C2" eb = Done (5, EmptyString, eb') /\
  count eb <= 5 < count eb' /\
  count eb' <= count eb + (Z.of_nat (String.length "B1 + C2") - Z.of_nat (String.length "")) /\
  (forall i node, 0 <= i -> expr_at eb i = Done node -> expr_at eb' i = Done node) /\
  eb_ordered eb'.
Proof.
  intros eb eb'.
  assert (Hfits : eb_fits (Z.of_nat (String.length "B1 + C2")) eb).
  { unfold eb_fits. vm_compute. repeat split; discriminate. }
  assert (Hord : eb_ordered eb).
  { apply (parse_expr_ordered Libc.strtod Libc.strtol "A0+5" "" Expr_Buffer_zero eb 2).
    - unfold eb_fits. vm_compute. repeat split; discriminate.
    - exact eb_ordered_zero.
    - vm_compute. reflexivity. }
  assert (Hparse : parse_expr Libc.strtod Libc.strtol "B1 + C2" eb = Done (5, EmptyString, eb'))
    by (vm_compute; reflexivity).
  split; [exact Hfits |]. split; [exact Hord |]. split; [exact Hparse |].
  exact (parse_expr_extends Libc.strtod Libc.strtol _ _ _ _ _ Hfits Hord Hparse).
Defined.

(** ** The arena after any number of allocations *)

Lemma eb_allocated_fits (n : nat) (eb : Expr_Buffer) :
  eb_allocated n eb -> Z.of_nat n < 2 ^ 57 ->
  count eb = Z.of_nat n /\ eb_fits 0 eb.
Proof.
  induction 1 as [| n eb eb' index _ IH Halloc | n eb index e _ IH]; intros Hn.
  - split; [reflexivity |]. unfold eb_fits. simpl. repeat split; lia.
  - destruct IH as [Hcount Hfits]; [lia |].
    assert (Hfits1 : eb_fits (0 + 1) eb).
    { destruct Hfits as (Hc & Hl & Hcap & _ & _). unfold eb_fits. repeat split; lia. }
    destruct (expr_buffer_alloc_fits 0 eb Hfits1 ltac:(lia)) as (eb1 & Halloc1 & Hcount1 & Hfits0).
    rewrite Halloc in Halloc1. injection Halloc1 as -> ->.
    split; [lia | exact Hfits0].
  - destruct IH as [Hcount Hfits]; [lia |].
    split; [exact Hcount | apply expr_store_fits; exact Hfits].
Qed.

(** X5: the arena that started as [{0}] and went through [n] allocations,
    with any writes to its nodes between them, where [n] is less than [2^57]
    (so that the size in bytes that [expr_buffer_alloc] asks [realloc] for,
    [sizeof(Expr) * capacity] with a [sizeof(Expr)] of 24, has not wrapped),
    holds [n] as its count; its block has [capacity] slots, at least [count]
    and at most 128 or twice the count; and the next call of
    [expr_buffer_alloc] passes its [assert] and returns [n], so that the
    indices handed out are 0, 1, 2, ... and none is handed out twice. *)
Theorem expr_buffer_alloc_sequence (n : nat) (eb : Expr_Buffer) :
  eb_allocated n eb -> Z.of_nat n < 2 ^ 57 ->
  count eb = Z.of_nat n /\
  Z.of_nat (List.length (items eb)) = capacity eb /\
  count eb <= capacity eb <= Z.max 128 (2 * count eb) /\
  exists eb', expr_buffer_alloc eb = Done (Z.of_nat n, eb') /\ eb_allocated (S n) eb'.
Proof.
  intros Hreach Hn.
  destruct (eb_allocated_fits n eb Hreach Hn) as [Hcount Hfits].
  destruct (expr_buffer_alloc_spec eb (eb_fits_wf _ _ Hfits)) as (eb' & Halloc & _).
  destruct Hfits as (Hc & Hl & Hcap & _ & _).
  split; [exact Hcount |]. split; [exact Hl |]. split; [lia |].
  exists eb'. rewrite <- Hcount. split; [exact Halloc |].
  exact (allocated_alloc n eb eb' (count eb) Hreach Halloc).
Qed.

Lemma expr_buffer_alloc_sequence_witness :
  let eb1 := {| count := 1; capacity := 128; items := repeat None 128 |} in
  let eb := expr_store eb1 0 (EXPR_KIND_NUMBER 5%float) in
  eb_allocated 1 eb /\ Z.of_nat 1 < 2 ^ 57 /\
  count eb = Z.of_nat 1 /\
  Z.of_nat (List.length (items eb)) = capacity eb /\
  count eb <= capacity eb <= Z.max 128 (2 * count eb) /\
  exists eb', expr_buffer_alloc eb = Done (Z.of_nat 1, eb') /\ eb_allocated 2 eb'.
Proof.
  intros eb1 eb.
  assert (Hreach : eb_allocated 1 eb).
  { apply allocated_store.
    apply (allocated_alloc 0 Expr_Buffer_zero eb1 0 allocated_zero).
    vm_compute. reflexivity. }
  assert (Hn : Z.of_nat 1 < 2 ^ 57) by (vm_compute; reflexivity).
  split; [exact Hreach |]. split; [exact Hn |].
  exact (expr_buffer_alloc_sequence 1 eb Hreach Hn).
Defined.

(** ** What an evaluation leaves of the table *)

Lemma cell_load_length (table : Table) (cell : nat) :
  (cell < List.length (cells table))%nat <-> exists c, cell_load table cell = Done c.
Proof.
  unfold cell_load. split.
  - intros H. apply nth_error_Some in H.
    destruct (nth_error (cells table) cell) as [c |]; [eauto | contradiction].
  - intros [c H]. apply nth_error_Some.
    destruct (nth_error (cells table) cell); discriminate.
Qed.

Lemma log_run_table_step (table table' : Table) (log : list nat) :
  log_run table table' log -> table_step table table'.
Proof.
  intros [Hrows Hcols _ Hl Hf].
  assert (Hstep : forall cell, cell_step (cell_load table cell) (cell_load table' cell)).
  { intros cell. destruct (in_dec Nat.eq_dec cell log) as [Hin | Hout].
    - right. destruct (Hl cell Hin) as (index & value & cached & Hbefore & Hafter).
      exists index, value, cached. auto.
    - left. apply Hf. exact Hout. }
  split; [exact Hrows |]. split; [exact Hcols |]. split; [| exact Hstep].
  assert (Hsame : forall cell, (exists c, cell_load table' cell = Done c) <->
                               (exists c, cell_load table cell = Done c)).
  { intros cell. destruct (Hstep cell) as [Heq | (index & value & cached & Hb & Ha)].
    - rewrite Heq. tauto.
    - rewrite Hb, Ha. split; eauto. }
  destruct (Nat.lt_trichotomy (List.length (cells table')) (List.length (cells table)))
    as [Hlt | [Heq | Hgt]]; [| exact Heq |].
  - apply cell_load_length, Hsame, cell_load_length in Hlt. lia.
  - apply cell_load_length, Hsame, cell_load_length in Hgt. lia.
Qed.

Lemma table_eval_expr_table_step (fuel : nat) (table table' : Table) (eb : Expr_Buffer)
    (index : Expr_Index) (v : float) :
  table_eval_expr fuel table eb index = Done (v, table') -> table_step table table'.
Proof.
  intros H. rewrite <- table_eval_expr_log_erase in H.
  destruct (table_eval_expr_log fuel table eb index) as [[[w t] log] | why |] eqn:Hlog;
    try discriminate.
  injection H as -> ->.
  eapply log_run_table_step, table_eval_expr_log_run. exact Hlog.
Qed.

Lemma table_eval_cell_table_step (fuel : nat) (table table' : Table) (eb : Expr_Buffer)
    (cell : nat) :
  table_eval_cell fuel table eb cell = Done table' -> table_step table table'.
Proof.
  intros H. rewrite <- table_eval_cell_log_erase in H.
  destruct (table_eval_cell_log fuel table eb cell) as [[t log] | why |] eqn:Hlog;
    try discriminate.
  injection H as ->.
  eapply log_run_table_step, table_eval_cell_log_run. exact Hlog.
Qed.

(** X6: an evaluation of a cell that returns changes nothing but the status
    and the cached value of formula cells that were unevaluated, which it
    leaves evaluated: the table keeps its size, text and number cells are
    untouched, every formula keeps its expression, an evaluated cell keeps
    its value, and no cell is left in progress that was not so before.  The
    cell asked for, if a formula, is evaluated afterwards. *)
Theorem table_eval_cell_frame (fuel : nat) (table table' : Table) (eb : Expr_Buffer)
    (cell : nat) :
  table_eval_cell fuel table eb cell = Done table' ->
  table_step table table' /\
  forall index status value,
    cell_load table cell = Done (CELL_KIND_EXPR index status value) ->
    exists cached, cell_load table' cell = Done (CELL_KIND_EXPR index EVALUATED cached).
Proof.
  intros H. split; [exact (table_eval_cell_table_step _ _ _ _ _ H) |].
  intros index status value Hload.
  rewrite <- table_eval_cell_log_erase in H.
  destruct (table_eval_cell_log fuel table eb cell) as [[t log] | why |] eqn:Hlog;
    try discriminate.
  injection H as ->.
  exact (table_eval_cell_log_evaluates _ _ _ _ _ _ _ _ _ Hlog Hload).
Qed.

Lemma table_eval_cell_frame_witness :
  let table := the_table table_fan_in in
  let eb := the_arena table_fan_in in
  let table' := {| cells := [CELL_KIND_NUMBER 1%float;
                             CELL_KIND_EXPR 2 EVALUATED 2%float;
                             CELL_KIND_EXPR 5 EVALUATED 4%float];
                   rows := 1; cols := 3 |} in
  table_eval_cell 4 table eb 2 = Done table' /\
  table_step table table' /\
  forall index status value,
    cell_load table 2 = Done (CELL_KIND_EXPR index status value) ->
    exists cached, cell_load table' 2 = Done (CELL_KIND_EXPR index EVALUATED cached).
Proof.
  intros table eb table'.
  assert (H : table_eval_cell 4 table eb 2 = Done table') by (vm_compute; reflexivity).
  split; [exact H |].
  exact (table_eval_cell_frame 4 table table' eb 2 H).
Defined.

(** ** Memoization does not change what a formula denotes *)

Lemma same_formulas_refl (table : Table) : same_formulas table table.
Proof. repeat split. Qed.

Lemma same_formulas_sym (table table' : Table) :
  same_formulas table table' -> same_formulas table' table.
Proof. intros (Hr & Hc & H). repeat split; auto. Qed.

Lemma same_formulas_trans (t1 t2 t3 : Table) :
  same_formulas t1 t2 -> same_formulas t2 t3 -> same_formulas t1 t3.
Proof.
  intros (Hr & Hc & H) (Hr' & Hc' & H'). split; [congruence |]. split; [congruence |].
  intros cell. rewrite H', H. reflexivity.
Qed.

Lemma same_formulas_store (table : Table) (cell : nat) (index : Expr_Index)
    (status0 status : Eval_Status) (value0 value : float) :
  cell_load table cell = Done (CELL_KIND_EXPR index status0 value0) ->
  same_formulas table (cell_store table cell (CELL_KIND_EXPR index status value)).
Proof.
  intros Hload. split; [reflexivity |]. split; [reflexivity |].
  intros other. destruct (Nat.eq_dec cell other) as [<- | Hne].
  - rewrite (cell_load_store_same _ _ _ _ Hload), Hload. reflexivity.
  - rewrite cell_load_store_other by exact Hne. reflexivity.
Qed.

Lemma same_formulas_number (table table' : Table) (cell : nat) (number : float) :
  same_formulas table table' ->
  cell_load table cell = Done (CELL_KIND_NUMBER number) ->
  cell_load table' cell = Done (CELL_KIND_NUMBER number).
Proof.
  intros (_ & _ & H) Hload. specialize (H cell). rewrite Hload in H.
  destruct (cell_load table' cell) as [[| |] | |]; simpl in H; congruence.
Qed.

Lemma same_formulas_formula (table table' : Table) (cell : nat) (index : Expr_Index)
    (status : Eval_Status) (value : float) :
  same_formulas table table' ->
  cell_load table cell = Done (CELL_KIND_EXPR index status value) ->
  exists status' value', cell_load table' cell = Done (CELL_KIND_EXPR index status' value').
Proof.
  intros (_ & _ & H) Hload. specialize (H cell). rewrite Hload in H.
  destruct (cell_load table' cell) as [[| | index' status' value'] | |]; simpl in H;
    try discriminate.
  injection H as ->. eauto.
Qed.

Lemma same_formulas_cell_at (table table' : Table) (row col : Z) :
  same_formulas table table' -> table_cell_at table' row col = table_cell_at table row col.
Proof. intros (Hr & Hc & _). unfold table_cell_at. rewrite Hr, Hc. reflexivity. Qed.

Lemma table_step_same (table table' : Table) :
  table_step table table' -> same_formulas table table'.
Proof.
  intros (Hr & Hc & _ & H). split; [exact Hr |]. split; [exact Hc |].
  intros cell. destruct (H cell) as [-> | (index & value & cached & -> & ->)]; reflexivity.
Qed.

Lemma expr_value_same (eb : Expr_Buffer) (table table' : Table) (index : Expr_Index)
    (v : float) :
  same_formulas table table' -> expr_value eb table index v -> expr_value eb table' index v.
Proof.
  intros Hsame H.
  induction H as [index number He | index row col cell number He Hcell Hload
                  | index row col cell expr status cached value He Hcell Hload _ IH
                  | index lhs rhs a b He _ IHa _ IHb].
  - apply value_number. exact He.
  - eapply value_cell_number; [exact He | |].
    + rewrite (same_formulas_cell_at _ _ _ _ Hsame). exact Hcell.
    + exact (same_formulas_number _ _ _ _ Hsame Hload).
  - destruct (same_formulas_formula _ _ _ _ _ _ Hsame Hload) as (status' & value' & Hload').
    eapply value_cell_formula; [exact He | | exact Hload' | exact IH].
    rewrite (same_formulas_cell_at _ _ _ _ Hsame). exact Hcell.
  - eapply value_plus; eauto.
Qed.

(** A formula has at most one value. *)
Lemma expr_value_unique (eb : Expr_Buffer) (table : Table) (index : Expr_Index) (v : float) :
  expr_value eb table index v -> forall w, expr_value eb table index w -> v = w.
Proof.
  intros H.
  induction H as [index number He | index row col cell number He Hcell Hload
                  | index row col cell expr status cached value He Hcell Hload _ IH
                  | index lhs rhs a b He _ IHa _ IHb];
    intros w Hw; inversion Hw; subst; try congruence.
  - apply IH. congruence.
  - assert (lhs0 = lhs /\ rhs0 = rhs) as [-> ->] by (split; congruence).
    f_equal; auto.
Qed.

Lemma table_eval_cell_with_value
    (f : Table -> Expr_Buffer -> Expr_Index -> outcome (float * Table))
    (eb : Expr_Buffer) (base table table' : Table) (cell : nat) :
  (forall t i v t',
      same_formulas base t -> caches_agree eb base t -> f t eb i = Done (v, t') ->
      expr_value eb base i v /\ same_formulas base t' /\ caches_agree eb base t') ->
  same_formulas base table -> caches_agree eb base table ->
  table_eval_cell_with f table eb cell = Done table' ->
  same_formulas base table' /\ caches_agree eb base table' /\
  forall index status value,
    cell_load table cell = Done (CELL_KIND_EXPR index status value) ->
    exists cached, cell_load table' cell = Done (CELL_KIND_EXPR index EVALUATED cached).
Proof.
  intros Hf Hsame Hcache H. unfold table_eval_cell_with in H.
  apply bind_Done in H. destruct H as (c & Hload & H).
  destruct c as [text | number | index status value].
  - injection H as <-. split; [exact Hsame |]. split; [exact Hcache |]. congruence.
  - injection H as <-. split; [exact Hsame |]. split; [exact Hcache |]. congruence.
  - destruct status; [| discriminate |].
    + apply bind_Done in H. destruct H as (t1 & Hmark & H).
      apply cell_set_status_Done in Hmark.
      destruct Hmark as (index0 & status0 & value0 & Hload0 & ->).
      rewrite Hload in Hload0. injection Hload0 as <- <- <-.
      apply bind_Done in H. destruct H as ([v t2] & Hrun & H).
      apply cell_finish_Done in H. destruct H as (index' & status' & value' & Hload2 & ->).
      pose proof (same_formulas_store _ _ _ _ INPROGRESS _ value Hload) as Hstore.
      assert (Hcache1 : caches_agree eb base
                          (cell_store table cell (CELL_KIND_EXPR index INPROGRESS value))).
      { intros other expr cached Hother.
        destruct (Nat.eq_dec cell other) as [<- | Hne].
        - rewrite (cell_load_store_same _ _ _ _ Hload) in Hother. discriminate.
        - rewrite cell_load_store_other in Hother by exact Hne. eapply Hcache. exact Hother. }
      destruct (Hf _ _ _ _ (same_formulas_trans _ _ _ Hsame Hstore) Hcache1 Hrun)
        as (Hvalue & Hsame2 & Hcache2).
      assert (Hindex : index' = index).
      { pose proof (same_formulas_trans _ _ _ (same_formulas_sym _ _ Hsame) Hsame2)
          as (_ & _ & Hcells).
        specialize (Hcells cell). rewrite Hload, Hload2 in Hcells. simpl in Hcells. congruence. }
      subst index'.
      split; [| split].
      * exact (same_formulas_trans _ _ _ Hsame2 (same_formulas_store _ _ _ _ _ _ _ Hload2)).
      * intros other expr cached Hother.
        destruct (Nat.eq_dec cell other) as [<- | Hne].
        -- rewrite (cell_load_store_same _ _ _ _ Hload2) in Hother.
           injection Hother as <- <-. exact Hvalue.
        -- rewrite cell_load_store_other in Hother by exact Hne. eapply Hcache2. exact Hother.
      * intros i s w Hi. rewrite Hload in Hi. injection Hi as <- _ _.
        exists v. exact (cell_load_store_same _ _ _ _ Hload2).
    + injection H as <-. split; [exact Hsame |]. split; [exact Hcache |].
      intros i s w Hi. rewrite Hload in Hi. injection Hi as <- _ _. eauto.
Qed.

Lemma table_eval_expr_value_in (fuel : nat) :
  forall (eb : Expr_Buffer) (base table table' : Table) (index : Expr_Index) (v : float),
    same_formulas base table -> caches_agree eb base table ->
    table_eval_expr fuel table eb index = Done (v, table') ->
    expr_value eb base index v /\ same_formulas base table' /\ caches_agree eb base table'.
Proof.
  induction fuel as [| fuel IH]; intros eb base table table' index v Hsame Hcache H;
    [discriminate |].
  simpl in H.
  apply bind_Done in H. destruct H as (p & Hat & H).
  apply bind_Done in H. destruct H as (e & Hload & H).
  pose proof (expr_buffer_at_Done _ _ _ Hat) as ->.
  assert (He : expr_at eb index = Done e) by (apply expr_at_steps; auto).
  destruct e as [number | row col | lhs rhs].
  - injection H as <- <-. split; [apply value_number; exact He | auto].
  - apply bind_Done in H. destruct H as (cell & Hcell & H).
    apply bind_Done in H. destruct H as (c & Hc & H).
    rewrite (same_formulas_cell_at _ _ row col Hsame) in Hcell.
    destruct c as [text | number | i status value]; [discriminate | |].
    + injection H as <- <-. split; [| auto].
      eapply value_cell_number; [exact He | exact Hcell |].
      exact (same_formulas_number _ _ _ _ (same_formulas_sym _ _ Hsame) Hc).
    + apply bind_Done in H. destruct H as (t1 & Hrun & H).
      apply bind_Done in H. destruct H as (c1 & Hc1 & H).
      destruct c1 as [| | i1 status1 value1]; try discriminate.
      injection H as <- <-.
      destruct (table_eval_cell_with_value (table_eval_expr fuel) eb base table t1 cell)
        as (Hsame1 & Hcache1 & Hdone); auto.
      { intros t j w t' Ht Hc' Hj. exact (IH _ _ _ _ _ _ Ht Hc' Hj). }
      destruct (Hdone _ _ _ Hc) as [cached Hcached].
      rewrite Hc1 in Hcached. injection Hcached as -> -> ->.
      split; [| auto].
      destruct (same_formulas_formula _ _ _ _ _ _ (same_formulas_sym _ _ Hsame) Hc)
        as (status0 & value0 & Hbase).
      eapply value_cell_formula; [exact He | exact Hcell | exact Hbase |].
      eapply Hcache1. exact Hc1.
  - apply bind_Done in H. destruct H as ([a t1] & Hlhs & H).
    apply bind_Done in H. destruct H as ([b t2] & Hrhs & H).
    injection H as <- <-.
    destruct (IH _ _ _ _ _ _ Hsame Hcache Hlhs) as (Ha & Hsame1 & Hcache1).
    destruct (IH _ _ _ _ _ _ Hsame1 Hcache1 Hrhs) as (Hb & Hsame2 & Hcache2).
    split; [| auto]. eapply value_plus; eauto.
Qed.

(** A table in which no formula is evaluated has no cached value to agree
    with. *)
Lemma caches_agree_fresh (eb : Expr_Buffer) (base table : Table) :
  forallb (fun c => negb (is_evaluated c)) (cells table) = true ->
  caches_agree eb base table.
Proof.
  intros Hfresh cell expr cached Hload. apply cell_load_Done in Hload.
  apply nth_error_In in Hload.
  pose proof (proj1 (forallb_forall _ _) Hfresh _ Hload) as Hc. discriminate.
Qed.

(** X7: memoization is transparent.  In a table whose cached values are the
    values of their formulas (any table in which nothing is evaluated yet, for
    one), the number that [table_eval_expr] returns is the value the
    expression denotes, read off the arena and the table with no regard to
    statuses and caches; and the cached values of the table it returns are
    again the values of their formulas. *)
Theorem table_eval_expr_value (fuel : nat) (eb : Expr_Buffer) (table table' : Table)
    (index : Expr_Index) (v : float) :
  caches_agree eb table table ->
  table_eval_expr fuel table eb index = Done (v, table') ->
  expr_value eb table index v /\ caches_agree eb table table'.
Proof.
  intros Hcache H.
  destruct (table_eval_expr_value_in fuel eb table table table' index v
              (same_formulas_refl table) Hcache H) as (Hv & _ & Hc).
  split; assumption.
Qed.

Lemma table_eval_expr_value_witness :
  let table := the_table table_fan_in in
  let eb := the_arena table_fan_in in
  let table' := {| cells := [CELL_KIND_NUMBER 1%float;
                             CELL_KIND_EXPR 2 EVALUATED 2%float;
                             formula_cell 5];
                   rows := 1; cols := 3 |} in
  caches_agree eb table table /\
  table_eval_expr 4 table eb 5 = Done (4%float, table') /\
  expr_value eb table 5 4%float /\ caches_agree eb table table'.
Proof.
  intros table eb table'.
  assert (Hcache : caches_agree eb table table) by (apply caches_agree_fresh; reflexivity).
  assert (H : table_eval_expr 4 table eb 5 = Done (4%float, table'))
    by (vm_compute; reflexivity).
  split; [exact Hcache |]. split; [exact H |].
  exact (table_eval_expr_value 4 eb table table' 5 4%float Hcache H).
Defined.

Lemma table_eval_cells_value_in (fuel : nat) (eb : Expr_Buffer) (base : Table)
    (visit : list nat) :
  forall table table',
    same_formulas base table -> caches_agree eb base table ->
    table_eval_cells fuel table eb visit = Done table' ->
    same_formulas base table' /\ caches_agree eb base table'.
Proof.
  induction visit as [| cell visit IH]; intros table table' Hsame Hcache H.
  - injection H as <-. auto.
  - simpl in H. apply bind_Done in H. destruct H as (t1 & Hcell & H).
    destruct (table_eval_cell_with_value (table_eval_expr fuel) eb base table t1 cell)
      as (Hsame1 & Hcache1 & _); auto.
    { intros t j w t' Ht Hc' Hj. exact (table_eval_expr_value_in _ _ _ _ _ _ _ Ht Hc' Hj). }
    exact (IH _ _ Hsame1 Hcache1 H).
Qed.

Lemma table_eval_cells_table_step (fuel : nat) (table table' : Table) (eb : Expr_Buffer)
    (visit : list nat) :
  table_eval_cells fuel table eb visit = Done table' -> table_step table table'.
Proof.
  intros H. rewrite <- table_eval_cells_log_erase in H.
  destruct (table_eval_cells_log fuel table eb visit) as [[t log] | why |] eqn:Hlog;
    try discriminate.
  injection H as ->.
  eapply log_run_table_step, table_eval_cells_log_run. exact Hlog.
Qed.

Lemma table_eval_cells_evaluated (fuel : nat) (table table' : Table) (eb : Expr_Buffer)
    (visit : list nat) (cell : nat) (index : Expr_Index) (status : Eval_Status)
    (value : float) :
  table_eval_cells fuel table eb visit = Done table' ->
  In cell visit ->
  cell_load table cell = Done (CELL_KIND_EXPR index status value) ->
  exists cached, cell_load table' cell = Done (CELL_KIND_EXPR index EVALUATED cached).
Proof.
  intros H Hin Hload. rewrite <- table_eval_cells_log_erase in H.
  destruct (table_eval_cells_log fuel table eb visit) as [[t log] | why |] eqn:Hlog;
    try discriminate.
  injection H as ->.
  exact (table_eval_cells_log_visited _ _ _ _ _ _ _ _ _ _ Hlog Hin Hload).
Qed.

(** X8: what the loop of [main] leaves in the cells it prints.  If the loop
    over the visited cells returns, from a table whose cached values are the
    values of their formulas, then every visited formula cell is evaluated and
    its cached value is the value that the cell's formula denotes in the
    table the loop started from; text and number cells, and the size of the
    table, are as they were. *)
Theorem table_eval_cells_value (fuel : nat) (eb : Expr_Buffer) (table table' : Table)
    (visit : list nat) :
  caches_agree eb table table ->
  table_eval_cells fuel table eb visit = Done table' ->
  table_step table table' /\
  forall cell index status value,
    In cell visit ->
    cell_load table cell = Done (CELL_KIND_EXPR index status value) ->
    exists cached,
      cell_load table' cell = Done (CELL_KIND_EXPR index EVALUATED cached) /\
      expr_value eb table index cached.
Proof.
  intros Hcache H.
  split; [exact (table_eval_cells_table_step _ _ _ _ _ H) |].
  intros cell index status value Hin Hload.
  destruct (table_eval_cells_evaluated _ _ _ _ _ _ _ _ _ H Hin Hload) as [cached Hcached].
  exists cached. split; [exact Hcached |].
  destruct (table_eval_cells_value_in fuel eb table visit table table'
              (same_formulas_refl table) Hcache H) as [_ Hcache'].
  eapply Hcache'. exact Hcached.
Qed.

Lemma table_eval_cells_value_witness :
  let table := the_table table_fan_in in
  let eb := the_arena table_fan_in in
  let table' := {| cells := [CELL_KIND_NUMBER 1%float;
                             CELL_KIND_EXPR 2 EVALUATED 2%float;
                             CELL_KIND_EXPR 5 EVALUATED 4%float];
                   rows := 1; cols := 3 |} in
  caches_agree eb table table /\
  table_eval_cells 4 table eb [0; 1; 2]%nat = Done table' /\
  table_step table table' /\
  forall cell index status value,
    In cell [0; 1; 2]%nat ->
    cell_load table cell = Done (CELL_KIND_EXPR index status value) ->
    exists cached,
      cell_load table' cell = Done (CELL_KIND_EXPR index EVALUATED cached) /\
      expr_value eb table index cached.
Proof.
  intros table eb table'.
  assert (Hcache : caches_agree eb table table) by (apply caches_agree_fresh; reflexivity).
  assert (H : table_eval_cells 4 table eb [0; 1; 2]%nat = Done table')
    by (vm_compute; reflexivity).
  split; [exact Hcache |]. split; [exact H |].
  exact (table_eval_cells_value 4 eb table table' [0; 1; 2]%nat Hcache H).
Defined.

(** X9: the order in which the cells are visited does not matter.  On a
    table whose cached values are the values of their formulas (for one, a
    table with nothing evaluated), two runs of the loop of [main] that both
    return and both visit every cell, in any order, any number of times and
    with any fuel, leave the same table. *)
Theorem table_eval_cells_any_order (fuel1 fuel2 : nat) (eb : Expr_Buffer)
    (table table1 table2 : Table) (visit1 visit2 : list nat) :
  caches_agree eb table table ->
  visits_all table visit1 -> visits_all table visit2 ->
  table_eval_cells fuel1 table eb visit1 = Done table1 ->
  table_eval_cells fuel2 table eb visit2 = Done table2 ->
  table1 = table2.
Proof.
  intros Hcache Hall1 Hall2 H1 H2.
  pose proof (table_eval_cells_table_step _ _ _ _ _ H1) as (Hr1 & Hc1 & Hl1 & Hs1).
  pose proof (table_eval_cells_table_step _ _ _ _ _ H2) as (Hr2 & Hc2 & Hl2 & Hs2).
  destruct (table_eval_cells_value_in fuel1 eb table visit1 table table1
              (same_formulas_refl table) Hcache H1) as [_ Hcache1].
  destruct (table_eval_cells_value_in fuel2 eb table visit2 table table2
              (same_formulas_refl table) Hcache H2) as [_ Hcache2].
  assert (Hcells : cells table1 = cells table2).
  { apply nth_error_ext. intros n.
    destruct (Nat.lt_ge_cases n (List.length (cells table))) as [Hlt | Hge].
    - destruct (proj1 (cell_load_length table n) Hlt) as [c Hload].
      assert (Hsame : cell_load table1 n = cell_load table2 n).
      { destruct c as [text | number | index status value].
        - destruct (Hs1 n) as [-> | (i & w & c & Hb & _)]; [| congruence].
          destruct (Hs2 n) as [-> | (i & w & c & Hb & _)]; [reflexivity | congruence].
        - destruct (Hs1 n) as [-> | (i & w & c & Hb & _)]; [| congruence].
          destruct (Hs2 n) as [-> | (i & w & c & Hb & _)]; [reflexivity | congruence].
        - destruct (table_eval_cells_evaluated _ _ _ _ _ _ _ _ _ H1 (Hall1 n Hlt) Hload)
            as [c1 Hload1].
          destruct (table_eval_cells_evaluated _ _ _ _ _ _ _ _ _ H2 (Hall2 n Hlt) Hload)
            as [c2 Hload2].
          rewrite Hload1, Hload2.
          rewrite (expr_value_unique _ _ _ _ (Hcache1 _ _ _ Hload1) _ (Hcache2 _ _ _ Hload2)).
          reflexivity. }
      unfold cell_load in Hsame.
      destruct (nth_error (cells table1) n), (nth_error (cells table2) n); congruence.
    - rewrite (proj2 (nth_error_None _ _)) by lia.
      rewrite (proj2 (nth_error_None _ _)) by lia. reflexivity. }
  destruct table1, table2. simpl in *. congruence.
Qed.

Lemma table_eval_cells_any_order_witness :
  let table := the_table table_fan_in in
  let eb := the_arena table_fan_in in
  let table' := {| cells := [CELL_KIND_NUMBER 1%float;
                             CELL_KIND_EXPR 2 EVALUATED 2%float;
                             CELL_KIND_EXPR 5 EVALUATED 4%float];
                   rows := 1; cols := 3 |} in
  caches_agree eb table table /\
  visits_all table [0; 1; 2]%nat /\ visits_all table [2; 0; 2; 1]%nat /\
  table_eval_cells 4 table eb [0; 1; 2]%nat = Done table' /\
  table_eval_cells 7 table eb [2; 0; 2; 1]%nat = Done table' /\
  table' = table'.
Proof.
  intros table eb table'.
  assert (Hcache : caches_agree eb table table) by (apply caches_agree_fresh; reflexivity).
  assert (Hall1 : visits_all table [0; 1; 2]%nat).
  { intros cell Hcell. change (cell < 3)%nat in Hcell. simpl. lia. }
  assert (Hall2 : visits_all table [2; 0; 2; 1]%nat).
  { intros cell Hcell. change (cell < 3)%nat in Hcell. simpl. lia. }
  assert (H1 : table_eval_cells 4 table eb [0; 1; 2]%nat = Done table')
    by (vm_compute; reflexivity).
  assert (H2 : table_eval_cells 7 table eb [2; 0; 2; 1]%nat = Done table')
    by (vm_compute; reflexivity).
  split; [exact Hcache |]. split; [exact Hall1 |]. split; [exact Hall2 |].
  split; [exact H1 |]. split; [exact H2 |].
  exact (table_eval_cells_any_order 4 7 eb table table' table' _ _ Hcache Hall1 Hall2 H1 H2).
Defined.

(** ** The circular dependency diagnostic is raised for cycles only *)

Lemma expr_leads_step (eb : Expr_Buffer) (table : Table) (first last next : Expr_Index) :
  expr_leads eb table first last -> expr_refers eb table last next ->
  expr_leads eb table first next.
Proof.
  intros H Hstep. induction H as [index | index mid last Hfirst _ IH].
  - eapply leads_on; [exact Hstep | apply leads_here].
  - eapply leads_on; [exact Hfirst | apply IH; exact Hstep].
Qed.

Lemma cell_load_Stop (table : Table) (cell : nat) (why : Failure) :
  cell_load table cell = Stop why -> why = UNDEFINED.
Proof.
  unfold cell_load. destruct (nth_error (cells table) cell); [discriminate |].
  intros H. injection H as <-. reflexivity.
Qed.

Lemma cell_set_status_Stop (table : Table) (cell : nat) (status : Eval_Status) (why : Failure) :
  cell_set_status table cell status = Stop why -> why = UNDEFINED.
Proof.
  unfold cell_set_status, cell_load.
  destruct (nth_error (cells table) cell) as [[| |] |]; simpl; intros H;
    try discriminate; injection H as <-; reflexivity.
Qed.

Lemma cell_set_value_Stop (table : Table) (cell : nat) (value : float) (why : Failure) :
  cell_set_value table cell value = Stop why -> why = UNDEFINED.
Proof.
  unfold cell_set_value, cell_load.
  destruct (nth_error (cells table) cell) as [[| |] |]; simpl; intros H;
    try discriminate; injection H as <-; reflexivity.
Qed.

Lemma table_eval_cell_with_cycle
    (f : Table -> Expr_Buffer -> Expr_Index -> outcome (float * Table))
    (eb : Expr_Buffer) (base table : Table) (cell : nat) :
  (forall t i,
      same_formulas base t ->
      (forall other expr v,
          cell_load t other = Done (CELL_KIND_EXPR expr INPROGRESS v) ->
          expr_leads eb base expr i) ->
      f t eb i = Stop ERROR_circular -> expr_cycle eb base) ->
  same_formulas base table ->
  (forall expr status w other expr' v,
      cell_load table cell = Done (CELL_KIND_EXPR expr status w) ->
      other <> cell ->
      cell_load table other = Done (CELL_KIND_EXPR expr' INPROGRESS v) ->
      expr_leads eb base expr' expr) ->
  (forall expr v,
      cell_load table cell = Done (CELL_KIND_EXPR expr INPROGRESS v) -> expr_cycle eb base) ->
  table_eval_cell_with f table eb cell = Stop ERROR_circular ->
  expr_cycle eb base.
Proof.
  intros Hf Hsame Hothers Hself H. unfold table_eval_cell_with in H.
  apply bind_Stop in H. destruct H as [H | (c & Hload & H)];
    [apply cell_load_Stop in H; discriminate |].
  destruct c as [text | number | expr status value]; try discriminate.
  destruct status; [| exact (Hself _ _ Hload) | discriminate].
  apply bind_Stop in H. destruct H as [H | (t1 & Hmark & H)];
    [apply cell_set_status_Stop in H; discriminate |].
  apply cell_set_status_Done in Hmark.
  destruct Hmark as (index0 & status0 & value0 & Hload0 & ->).
  rewrite Hload in Hload0. injection Hload0 as <- <- <-.
  apply bind_Stop in H. destruct H as [H | ([v t2] & _ & H)].
  - apply (Hf _ _ (same_formulas_trans _ _ _ Hsame
                     (same_formulas_store _ _ _ _ INPROGRESS _ value Hload))) in H;
      [exact H |].
    intros other expr' w Hother.
    destruct (Nat.eq_dec cell other) as [<- | Hne].
    + rewrite (cell_load_store_same _ _ _ _ Hload) in Hother.
      injection Hother as <- _. apply leads_here.
    + rewrite cell_load_store_other in Hother by exact Hne.
      exact (Hothers _ _ _ _ _ _ Hload (fun Heq => Hne (eq_sym Heq)) Hother).
  - apply bind_Stop in H. destruct H as [H | (t3 & _ & H)].
    + apply cell_set_value_Stop in H. discriminate.
    + apply cell_set_status_Stop in H. discriminate.
Qed.

Lemma table_eval_expr_cycle (fuel : nat) :
  forall (eb : Expr_Buffer) (base table : Table) (index : Expr_Index),
    same_formulas base table ->
    (forall other expr v,
        cell_load table other = Done (CELL_KIND_EXPR expr INPROGRESS v) ->
        expr_leads eb base expr index) ->
    table_eval_expr fuel table eb index = Stop ERROR_circular ->
    expr_cycle eb base.
Proof.
  induction fuel as [| fuel IH]; intros eb base table index Hsame Hinv H; [discriminate |].
  simpl in H.
  apply bind_Stop in H. destruct H as [H | (p & Hat & H)].
  { unfold expr_buffer_at, assert in H. destruct (index <? count eb); discriminate. }
  pose proof (expr_buffer_at_Done _ _ _ Hat) as ->.
  apply bind_Stop in H. destruct H as [H | (e & Hload & H)].
  { unfold expr_load in H.
    destruct (nth_error (items eb) (Z.to_nat index)) as [[|] |]; discriminate. }
  assert (He : expr_at eb index = Done e) by (apply expr_at_steps; auto).
  destruct e as [number | row col | lhs rhs]; [discriminate | |].
  - apply bind_Stop in H. destruct H as [H | (cell & Hcell & H)].
    { unfold table_cell_at, assert in H.
      destruct (row <? rows table); simpl in H; [| discriminate].
      destruct (col <? cols table); discriminate. }
    rewrite (same_formulas_cell_at _ _ row col Hsame) in Hcell.
    apply bind_Stop in H. destruct H as [H | (c & Hc & H)];
      [apply cell_load_Stop in H; discriminate |].
    destruct c as [text | number | expr status value]; try discriminate.
    assert (Hrefers : forall expr' status' w,
               cell_load table cell = Done (CELL_KIND_EXPR expr' status' w) ->
               expr_refers eb base index expr').
    { intros expr' status' w Hc'.
      destruct (same_formulas_formula _ _ _ _ _ _ (same_formulas_sym _ _ Hsame) Hc')
        as (status0 & value0 & Hbase).
      exact (refers_cell eb base index row col cell expr' status0 value0 He Hcell Hbase). }
    apply bind_Stop in H. destruct H as [H | (t1 & _ & H)].
    + apply (table_eval_cell_with_cycle (table_eval_expr fuel) eb base table cell) in H;
        [exact H | | exact Hsame | |].
      * intros t i Ht Hi Hrun. exact (IH _ _ _ _ Ht Hi Hrun).
      * intros expr' status' w other expr'' v Hc' _ Hother.
        eapply expr_leads_step; [exact (Hinv _ _ _ Hother) | exact (Hrefers _ _ _ Hc')].
      * intros expr' v Hc'. exists index, expr'.
        split; [exact (Hrefers _ _ _ Hc') | exact (Hinv _ _ _ Hc')].
    + apply bind_Stop in H. destruct H as [H | (c1 & _ & H)];
        [apply cell_load_Stop in H; discriminate |].
      destruct c1; discriminate.
  - apply bind_Stop in H. destruct H as [H | ([a t1] & Hlhs & H)].
    + apply (IH _ base _ _ Hsame) in H; [exact H |].
      intros other expr v Hother.
      eapply expr_leads_step; [exact (Hinv _ _ _ Hother) | exact (refers_lhs _ _ _ _ _ He)].
    + apply bind_Stop in H. destruct H as [H | ([b t2] & _ & H)]; [| discriminate].
      pose proof (table_eval_expr_table_step _ _ _ _ _ _ Hlhs) as Hstep.
      apply (IH _ base _ _ (same_formulas_trans _ _ _ Hsame (table_step_same _ _ Hstep))) in H;
        [exact H |].
      intros other expr v Hother.
      destruct Hstep as (_ & _ & _ & Hcells).
      destruct (Hcells other) as [Heq | (i & w & c & _ & Hafter)]; [| congruence].
      rewrite Heq in Hother.
      eapply expr_leads_step; [exact (Hinv _ _ _ Hother) | exact (refers_rhs _ _ _ _ _ He)].
Qed.

(** X10: the circular dependency diagnostic is never a false alarm.  If
    [table_eval_cell], started on a table in which no cell is in progress,
    ends the run with that diagnostic, then the formulas do depend on each
    other in a cycle: some expression asks (as a side of a sum, or through a
    cell reference) for an expression from which such steps lead back to
    it. *)
Theorem table_eval_cell_circular_cycle (fuel : nat) (eb : Expr_Buffer) (table : Table)
    (cell : nat) :
  (forall other expr v,
      cell_load table other <> Done (CELL_KIND_EXPR expr INPROGRESS v)) ->
  table_eval_cell fuel table eb cell = Stop ERROR_circular ->
  expr_cycle eb table.
Proof.
  intros Hnone H. unfold table_eval_cell in H.
  apply (table_eval_cell_with_cycle (table_eval_expr fuel) eb table table cell) in H;
    [exact H | | apply same_formulas_refl | |].
  - intros t i Ht Hi Hrun. exact (table_eval_expr_cycle fuel _ _ _ _ Ht Hi Hrun).
  - intros expr status w other expr' v _ _ Hother. destruct (Hnone _ _ _ Hother).
  - intros expr v Hc. destruct (Hnone _ _ _ Hc).
Qed.

Lemma no_cell_inprogress (table : Table) :
  forallb (fun c => negb (is_inprogress c)) (cells table) = true ->
  forall other expr v, cell_load table other <> Done (CELL_KIND_EXPR expr INPROGRESS v).
Proof.
  intros Hfresh other expr v Hload. apply cell_load_Done in Hload.
  apply nth_error_In in Hload.
  pose proof (proj1 (forallb_forall _ _) Hfresh _ Hload) as Hc. discriminate.
Qed.

Lemma table_eval_cell_circular_cycle_witness :
  let table := the_table table_cycle_sums in
  let eb := the_arena table_cycle_sums in
  (forall other expr v,
      cell_load table other <> Done (CELL_KIND_EXPR expr INPROGRESS v)) /\
  table_eval_cell 4 table eb 1 = Stop ERROR_circular /\
  expr_cycle eb table.
Proof.
  intros table eb.
  assert (Hnone : forall other expr v,
             cell_load table other <> Done (CELL_KIND_EXPR expr INPROGRESS v))
    by (apply no_cell_inprogress; reflexivity).
  assert (H : table_eval_cell 4 table eb 1 = Stop ERROR_circular)
    by (vm_compute; reflexivity).
  split; [exact Hnone |]. split; [exact H |].
  exact (table_eval_cell_circular_cycle 4 eb table 1 Hnone H).
Defined.

(** ** A formula that has a value is evaluated to it *)

(** No expression that has a value is on a cycle of dependencies. *)
Lemma expr_value_no_cycle (eb : Expr_Buffer) (table : Table) (index : Expr_Index) (v : float) :
  expr_value eb table index v ->
  forall next, expr_refers eb table index next -> ~ expr_leads eb table next index.
Proof.
  intros H.
  induction H as [index number He | index row col cell number He Hcell Hload
                  | index row col cell expr status cached value He Hcell Hload _ IH
                  | index lhs rhs a b He _ IHa _ IHb];
    intros next Hnext Hleads.
  - inversion Hnext; congruence.
  - inversion Hnext; congruence.
  - assert (next = expr) as -> by (inversion Hnext; congruence).
    inversion Hleads as [| ? mid ? Hfirst Hrest]; subst.
    + exact (IH _ Hnext (leads_here _ _ _)).
    + exact (IH _ Hfirst (expr_leads_step _ _ _ _ _ Hrest Hnext)).
  - assert (next = lhs \/ next = rhs) as [-> | ->]
      by (inversion Hnext; [left | right | exfalso]; congruence).
    + inversion Hleads as [| ? mid ? Hfirst Hrest]; subst.
      * exact (IHa _ Hnext (leads_here _ _ _)).
      * exact (IHa _ Hfirst (expr_leads_step _ _ _ _ _ Hrest Hnext)).
    + inversion Hleads as [| ? mid ? Hfirst Hrest]; subst.
      * exact (IHb _ Hnext (leads_here _ _ _)).
      * exact (IHb _ Hfirst (expr_leads_step _ _ _ _ _ Hrest Hnext)).
Qed.

Lemma table_eval_cell_with_no_Stop
    (f : Table -> Expr_Buffer -> Expr_Index -> outcome (float * Table))
    (eb : Expr_Buffer) (base table : Table) (cell : nat) (expr : Expr_Index)
    (status0 : Eval_Status) (value0 v : float) (why : Failure) :
  (forall t i w why',
      same_formulas base t ->
      (forall other e v',
          cell_load t other = Done (CELL_KIND_EXPR e INPROGRESS v') ->
          expr_leads eb base e i) ->
      expr_value eb base i w ->
      f t eb i <> Stop why') ->
  (forall t i w t', f t eb i = Done (w, t') -> table_step t t') ->
  same_formulas base table ->
  cell_load base cell = Done (CELL_KIND_EXPR expr status0 value0) ->
  expr_value eb base expr v ->
  (forall other e v',
      other <> cell ->
      cell_load table other = Done (CELL_KIND_EXPR e INPROGRESS v') ->
      expr_leads eb base e expr) ->
  (forall e v', cell_load table cell <> Done (CELL_KIND_EXPR e INPROGRESS v')) ->
  table_eval_cell_with f table eb cell <> Stop why.
Proof.
  intros Hf Hstep Hsame Hbase Hvalue Hothers Hself.
  destruct (same_formulas_formula _ _ _ _ _ _ Hsame Hbase) as (status & value & Hload).
  unfold table_eval_cell_with. rewrite Hload. simpl.
  destruct status; [| destruct (Hself _ _ Hload) | discriminate].
  unfold cell_set_status at 1. rewrite Hload. simpl.
  pose proof (cell_load_store_same _ _ _ (CELL_KIND_EXPR expr INPROGRESS value) Hload)
    as Hload1.
  destruct (f (cell_store table cell (CELL_KIND_EXPR expr INPROGRESS value)) eb expr)
    as [[w t2] | why' |] eqn:Hrun; simpl; [| | discriminate].
  - destruct (Hstep _ _ _ _ Hrun) as (_ & _ & _ & Hcells).
    assert (Hload2 : cell_load t2 cell = Done (CELL_KIND_EXPR expr INPROGRESS value)).
    { destruct (Hcells cell) as [Heq | (i & x & c & Hbefore & _)]; [| congruence].
      rewrite Heq. exact Hload1. }
    unfold cell_set_value. rewrite Hload2. simpl.
    unfold cell_set_status. rewrite (cell_load_store_same _ _ _ _ Hload2). simpl.
    discriminate.
  - exfalso. revert Hrun. apply (Hf _ _ v).
    + exact (same_formulas_trans _ _ _ Hsame
               (same_formulas_store _ _ _ _ INPROGRESS _ value Hload)).
    + intros other e v' Hother.
      destruct (Nat.eq_dec cell other) as [<- | Hne].
      * rewrite Hload1 in Hother. injection Hother as <- _. apply leads_here.
      * rewrite cell_load_store_other in Hother by exact Hne.
        exact (Hothers _ _ _ (fun Heq => Hne (eq_sym Heq)) Hother).
    + exact Hvalue.
Qed.

Lemma table_eval_expr_no_Stop (fuel : nat) :
  forall (eb : Expr_Buffer) (base table : Table) (index : Expr_Index) (v : float)
         (why : Failure),
    same_formulas base table ->
    (forall other e v',
        cell_load table other = Done (CELL_KIND_EXPR e INPROGRESS v') ->
        expr_leads eb base e index) ->
    expr_value eb base index v ->
    table_eval_expr fuel table eb index <> Stop why.
Proof.
  induction fuel as [| fuel IH]; intros eb base table index v why Hsame Hinv Hvalue;
    [discriminate |].
  assert (Hno : forall next, expr_refers eb base index next -> ~ expr_leads eb base next index)
    by exact (expr_value_no_cycle _ _ _ _ Hvalue).
  inversion Hvalue as [? number He | ? row col cell number He Hcell Hload
                       | ? row col cell expr status cached value He Hcell Hload Hexpr
                       | ? lhs rhs a b He Ha Hb]; subst;
    rewrite (table_eval_expr_step _ _ _ _ _ He).
  - discriminate.
  - rewrite <- (same_formulas_cell_at _ _ row col Hsame) in Hcell. rewrite Hcell. simpl.
    rewrite (same_formulas_number _ _ _ _ Hsame Hload). discriminate.
  - pose proof Hcell as Hcell'.
    rewrite <- (same_formulas_cell_at _ _ row col Hsame) in Hcell'. rewrite Hcell'. simpl.
    destruct (same_formulas_formula _ _ _ _ _ _ Hsame Hload) as (status' & value' & Hload').
    rewrite Hload'. cbn [bind].
    pose proof (refers_cell eb base index row col cell expr status cached He Hcell Hload)
      as Hrefers.
    assert (Hcall : forall why',
               table_eval_cell_with (table_eval_expr fuel) table eb cell <> Stop why').
    { intros why'.
      apply (table_eval_cell_with_no_Stop (table_eval_expr fuel) eb base table cell expr
               status cached v why'); auto.
      - intros t i w why'' Ht Hi Hw. exact (IH _ _ _ _ _ _ Ht Hi Hw).
      - intros t i w t' Hrun. exact (table_eval_expr_table_step _ _ _ _ _ _ Hrun).
      - intros other e v' _ Hother.
        exact (expr_leads_step _ _ _ _ _ (Hinv _ _ _ Hother) Hrefers).
      - intros e v' Hself. rewrite Hself in Hload'. injection Hload' as He' _ _.
        subst e. exact (Hno _ Hrefers (Hinv _ _ _ Hself)). }
    destruct (table_eval_cell fuel table eb cell)
      as [t1 | why' |] eqn:Hrun; simpl; [| destruct (Hcall why' Hrun) | discriminate].
    pose proof (table_eval_cell_table_step _ _ _ _ _ Hrun) as Hstep.
    destruct (same_formulas_formula _ _ _ _ _ _ (table_step_same _ _ Hstep) Hload')
      as (status1 & value1 & Hload1).
    rewrite Hload1. discriminate.
  - destruct (table_eval_expr fuel table eb lhs) as [[a' t1] | why' |] eqn:Hlhs; simpl;
      [| | discriminate].
    + pose proof (table_eval_expr_table_step _ _ _ _ _ _ Hlhs) as Hstep.
      destruct (table_eval_expr fuel t1 eb rhs) as [[b' t2] | why' |] eqn:Hrhs; simpl;
        [discriminate | | discriminate].
      exfalso. revert Hrhs. apply (IH _ base _ _ b).
      * exact (same_formulas_trans _ _ _ Hsame (table_step_same _ _ Hstep)).
      * intros other e v' Hother.
        destruct Hstep as (_ & _ & _ & Hcells).
        destruct (Hcells other) as [Heq | (i & w & c & _ & Hafter)]; [| congruence].
        rewrite Heq in Hother.
        exact (expr_leads_step _ _ _ _ _ (Hinv _ _ _ Hother) (refers_rhs _ _ _ _ _ He)).
      * exact Hb.
    + exfalso. revert Hlhs. apply (IH _ base _ _ a).
      * exact Hsame.
      * intros other e v' Hother.
        exact (expr_leads_step _ _ _ _ _ (Hinv _ _ _ Hother) (refers_lhs _ _ _ _ _ He)).
      * exact Ha.
Qed.

Lemma table_fan_in_ordered : eb_ordered (the_arena table_fan_in).
Proof.
  pose (eb1 := arena_of (parse "A0+A0" Expr_Buffer_zero)).
  assert (H1 : eb_ordered eb1 /\ eb_fits (Z.of_nat (String.length "B0+B0")) eb1).
  { split.
    - apply (parse_expr_ordered Libc.strtod Libc.strtol "A0+A0" "" Expr_Buffer_zero eb1 2).
      + unfold eb_fits. vm_compute. repeat split; discriminate.
      + exact eb_ordered_zero.
      + vm_compute. reflexivity.
    - unfold eb_fits. vm_compute. repeat split; discriminate. }
  destruct H1 as [Hord1 Hfits1].
  apply (parse_expr_ordered Libc.strtod Libc.strtol "B0+B0" "" eb1 (the_arena table_fan_in) 5
           Hfits1 Hord1).
  vm_compute. reflexivity.
Qed.

(** X11: the evaluator computes exactly the values that formulas have.  On
    an arena in which the sides of a sum are stored before the sum (as the
    parser stores them), for a table in which no cell is in progress and the
    cached values are the values of their formulas, and with the fuel
    [eval_fuel]: [table_eval_expr] returns the number [v] if and only if [v]
    is the value the expression denotes.  So an expression that has a value
    is never refused, and one that has none (it leads to a text cell, to a
    cell outside the table, to a node outside the arena or into a cycle)
    never gets one. *)
Theorem table_eval_expr_complete (fuel : nat) (eb : Expr_Buffer) (table : Table)
    (index : Expr_Index) (v : float) :
  eb_ordered eb ->
  (forall other expr w,
      cell_load table other <> Done (CELL_KIND_EXPR expr INPROGRESS w)) ->
  caches_agree eb table table ->
  (eval_fuel table eb index <= fuel)%nat ->
  (exists table', table_eval_expr fuel table eb index = Done (v, table')) <->
  expr_value eb table index v.
Proof.
  intros Hord Hnone Hcache Hfuel. split.
  - intros [table' H].
    exact (proj1 (table_eval_expr_value_in fuel eb table table table' index v
                    (same_formulas_refl table) Hcache H)).
  - intros Hvalue.
    pose proof (table_eval_expr_terminates eb Hord fuel table index Hfuel) as Hends.
    destruct (table_eval_expr fuel table eb index) as [[w table'] | why |] eqn:Hrun.
    + exists table'.
      destruct (table_eval_expr_value_in fuel eb table table table' index w
                  (same_formulas_refl table) Hcache Hrun) as (Hw & _).
      rewrite (expr_value_unique _ _ _ _ Hvalue _ Hw). reflexivity.
    + exfalso. revert Hrun.
      apply (table_eval_expr_no_Stop fuel eb table table index v why
               (same_formulas_refl table)); [| exact Hvalue].
      intros other e v' Hother. destruct (Hnone _ _ _ Hother).
    + destruct (Hends eq_refl).
Qed.

Lemma table_eval_expr_complete_witness :
  let table := the_table table_fan_in in
  let eb := the_arena table_fan_in in
  eb_ordered eb /\
  (forall other expr w,
      cell_load table other <> Done (CELL_KIND_EXPR expr INPROGRESS w)) /\
  caches_agree eb table table /\
  (eval_fuel table eb 5%Z <= 20)%nat /\
  ((exists table', table_eval_expr 20 table eb 5 = Done (4%float, table')) <->
   expr_value eb table 5 4%float).
Proof.
  intros table eb.
  assert (Hnone : forall other expr w,
             cell_load table other <> Done (CELL_KIND_EXPR expr INPROGRESS w))
    by (apply no_cell_inprogress; reflexivity).
  assert (Hcache : caches_agree eb table table) by (apply caches_agree_fresh; reflexivity).
  assert (Hfuel : (eval_fuel table eb 5%Z <= 20)%nat) by (vm_compute; lia).
  split; [exact table_fan_in_ordered |]. split; [exact Hnone |]. split; [exact Hcache |].
  split; [exact Hfuel |].
  exact (table_eval_expr_complete 20 eb table 5 4%float table_fan_in_ordered Hnone Hcache
           Hfuel).
Defined.

(** X12: every evaluation ends.  On an arena in which the sides of a sum are
    stored before the sum, and for any table whatever (cycles, references to
    text or outside the table, cells left in progress), [table_eval_expr] and
    [table_eval_cell] return or end the run with a diagnostic within a number
    of activations that is known beforehand: one walk down the arena for the
    call and one for each cell that is still unevaluated. *)
Theorem table_eval_terminates (eb : Expr_Buffer) (table : Table) (fuel : nat) :
  eb_ordered eb ->
  (forall index,
      (eval_fuel table eb index <= fuel)%nat ->
      table_eval_expr fuel table eb index <> OutOfFuel) /\
  (forall cell,
      (unevaluated table * S (Z.to_nat (count eb)) <= fuel)%nat ->
      table_eval_cell fuel table eb cell <> OutOfFuel).
Proof.
  intros Hord. split.
  - intros index Hfuel. exact (table_eval_expr_terminates eb Hord fuel table index Hfuel).
  - intros cell Hfuel. exact (table_eval_cell_terminates eb table cell fuel Hord Hfuel).
Qed.

Lemma table_eval_terminates_witness :
  let table := the_table table_fan_in in
  let eb := the_arena table_fan_in in
  eb_ordered eb /\
  (forall index,
      (eval_fuel table eb index <= 20)%nat ->
      table_eval_expr 20 table eb index <> OutOfFuel) /\
  (forall cell,
      (unevaluated table * S (Z.to_nat (count eb)) <= 20)%nat ->
      table_eval_cell 20 table eb cell <> OutOfFuel).
Proof.
  intros table eb.
  split; [exact table_fan_in_ordered |].
  exact (table_eval_terminates eb table 20 table_fan_in_ordered).
Defined.

(** ** The parser trips no assertion *)

Lemma eb_full_zero : eb_full Expr_Buffer_zero.
Proof. intros index Hindex. simpl in Hindex. lia. Qed.

Lemma next_token_Stop (source : string) (why : Failure) :
  next_token source = Stop why -> is_syntax_error why = true.
Proof.
  unfold next_token. destruct (sv_trim source) as [| c rest]; [discriminate |].
  destruct (Ascii.eqb c "+").
  - destruct (sv_chop_left (String c rest) 1); discriminate.
  - destruct (is_name c).
    + destruct (sv_chop_left_while (String c rest) is_name); discriminate.
    + intros H. injection H as <-. reflexivity.
Qed.

Section ParserSafety.

Variable strtod : string -> float * nat.
Variable strtol : string -> Z * nat.

Lemma parse_primary_expr_safe (source : string) (eb : Expr_Buffer) (why : Failure) :
  eb_wf eb ->
  parse_primary_expr strtod strtol source eb = Stop why -> is_syntax_error why = true.
Proof.
  intros Hwf H.
  destruct (next_token source) as [[[tok |] rest] | why' |] eqn:Htoken.
  - destruct (parse_primary_expr_token strtod strtol _ _ _ _ Hwf Htoken) as (eb1 & _ & Hshape).
    pose proof (next_token_Some _ _ _ Htoken) as (Hne & _ & _).
    rewrite Hshape in H.
    destruct (sv_strtod strtod tok) as [number [|]]; [discriminate |].
    destruct tok as [| c more]; [contradiction |].
    destruct (isupper c); simpl in H; [| injection H as <-; reflexivity].
    destruct (sv_strtol strtol more) as [row [|]]; simpl in H; [discriminate |].
    injection H as <-. reflexivity.
  - unfold parse_primary_expr in H. rewrite Htoken in H. simpl in H.
    injection H as <-. reflexivity.
  - unfold parse_primary_expr in H. rewrite Htoken in H. simpl in H.
    injection H as <-. exact (next_token_Stop _ _ Htoken).
  - unfold parse_primary_expr in H. rewrite Htoken in H. discriminate.
Qed.

Lemma parse_primary_expr_full (source rest : string) (eb eb1 : Expr_Buffer)
    (index : Expr_Index) (n : Z) :
  eb_fits (n + 1) eb -> 0 <= n -> eb_full eb ->
  parse_primary_expr strtod strtol source eb = Done (index, rest, eb1) ->
  eb_full eb1.
Proof.
  intros Hfits Hn Hfull Hparse.
  pose proof (eb_fits_wf _ _ Hfits) as Hwf.
  destruct (parse_primary_expr_Done _ _ _ _ _ _ _ Hparse) as (tok & Htoken & Hlen).
  destruct (parse_primary_expr_token strtod strtol _ _ _ _ Hwf Htoken)
    as (eb0 & Halloc & Hshape).
  assert (Hnode : exists e, primary_node strtod strtol tok = Done e /\
                            match e with
                            | EXPR_KIND_CELL row col => 0 <= row /\ 0 <= col
                            | _ => True
                            end).
  { rewrite Hparse in Hshape. unfold primary_node.
    destruct (sv_strtod strtod tok) as [number [|]];
      [exists (EXPR_KIND_NUMBER number); split; [reflexivity | exact I] |].
    destruct tok as [| c more]; [discriminate |].
    destruct (isupper c); simpl in Hshape |- *; [| discriminate].
    destruct (sv_strtol strtol more) as [row [|]]; simpl in Hshape |- *; [| discriminate].
    eexists. split; [reflexivity |]. split; apply size_t_range. }
  destruct Hnode as (e & Hnode & Hshape').
  destruct (parse_primary_expr_node strtod strtol _ _ _ _ _ _ Hfits Hn Htoken Hnode)
    as (eb1' & Hparse' & Hcount & Hfits1 & Hat & Hkeep).
  rewrite Hparse in Hparse'. injection Hparse' as -> <-.
  intros i Hi. destruct (Z.eq_dec i (count eb)) as [-> | Hne].
  - exists e. auto.
  - destruct (Hfull i ltac:(lia)) as (e0 & He0 & Hshape0).
    exists e0. split; [apply Hkeep; [lia | exact He0] | exact Hshape0].
Qed.

Lemma parse_plus_expr_full (fuel : nat) :
  forall (source rest : string) (eb eb' : Expr_Buffer) (root : Expr_Index) (room : Z),
    eb_fits (Z.of_nat (String.length source) + room) eb -> 0 <= room ->
    eb_full eb ->
    parse_plus_expr strtod strtol fuel source eb = Done (root, rest, eb') ->
    eb_full eb'.
Proof.
  induction fuel as [| fuel IH];
    intros source rest eb eb' root room Hfits Hroom Hfull Hparse; [discriminate |].
  simpl in Hparse.
  apply bind_Done in Hparse. destruct Hparse as ([[lhs rest1] eb1] & Hprimary & Hparse).
  destruct (parse_primary_expr_Done _ _ _ _ _ _ _ Hprimary) as (tok & _ & Hrest1).
  replace (Z.of_nat (String.length source) + room)
    with ((Z.of_nat (String.length source) + room - 1) + 1) in Hfits by lia.
  pose proof (parse_primary_expr_full _ _ _ _ _ _ Hfits ltac:(lia) Hfull Hprimary) as Hfull1.
  destruct (parse_primary_expr_extends strtod strtol _ _ _ _ _ _ Hfits ltac:(lia) Hprimary)
    as (-> & Hcount1 & Hfits1 & _ & _).
  apply bind_Done in Hparse. destruct Hparse as ([token after] & Htoken & Hparse).
  pose proof (next_token_Some _ _ _ Htoken) as Hafter.
  destruct (is_plus_token token) eqn:Hplus.
  - apply is_plus_token_true in Hplus. subst token.
    destruct Hafter as (_ & Hafter & _).
    apply bind_Done in Hparse. destruct Hparse as ([[rhs rest2] eb2] & Hrhs & Hparse).
    apply bind_Done in Hparse. destruct Hparse as ([expr_index eb3] & Halloc & Hparse).
    apply bind_Done in Hparse. destruct Hparse as (p & Hat & Hparse).
    injection Hparse as <- <- <-.
    pose proof (expr_buffer_at_Done _ _ _ Hat) as ->.
    assert (Hfits1' : eb_fits (Z.of_nat (String.length after) + (room + 1)) eb1)
      by (eapply eb_fits_le; [exact Hfits1 | lia]).
    pose proof (IH _ _ _ _ _ _ Hfits1' ltac:(lia) Hfull1 Hrhs) as Hfull2.
    destruct (parse_plus_expr_extends strtod strtol _ _ _ _ _ _ _ Hfits1' ltac:(lia) Hrhs)
      as (_ & Hfits2 & _).
    replace (Z.of_nat (String.length rest2) + (room + 1))
      with ((Z.of_nat (String.length rest2) + room) + 1) in Hfits2 by lia.
    pose proof (eb_fits_wf _ _ Hfits2) as Hwf2.
    destruct (expr_buffer_alloc_fits _ eb2 Hfits2 ltac:(lia))
      as (eb3' & Halloc' & Hcount3 & Hfits3).
    rewrite Halloc in Halloc'. injection Halloc' as -> <-.
    intros i Hi. cbn [expr_store count] in Hi.
    destruct (Z.eq_dec i (count eb2)) as [-> | Hne].
    + exists (EXPR_KIND_PLUS (count eb) rhs). split; [| exact I].
      destruct Hfits2 as ((Hc2 & _) & _). destruct Hfits3 as ((_ & Hc3) & Hl3 & _).
      apply expr_store_at; lia.
    + destruct (Hfull2 i ltac:(lia)) as (e0 & He0 & Hshape0).
      exists e0. split; [| exact Hshape0].
      exact (expr_alloc_store_keeps _ _ _ _ _ Hwf2 Halloc (proj1 Hi) He0).
  - injection Hparse as <- <- <-. exact Hfull1.
Qed.

Lemma parse_plus_expr_safe (fuel : nat) :
  forall (source : string) (eb : Expr_Buffer) (room : Z) (why : Failure),
    eb_fits (Z.of_nat (String.length source) + room) eb -> 0 <= room ->
    parse_plus_expr strtod strtol fuel source eb = Stop why ->
    is_syntax_error why = true.
Proof.
  induction fuel as [| fuel IH]; intros source eb room why Hfits Hroom H; [discriminate |].
  simpl in H.
  apply bind_Stop in H. destruct H as [H | ([[lhs rest1] eb1] & Hprimary & H)].
  { exact (parse_primary_expr_safe _ _ _ (eb_fits_wf _ _ Hfits) H). }
  destruct (parse_primary_expr_Done _ _ _ _ _ _ _ Hprimary) as (tok & _ & Hrest1).
  replace (Z.of_nat (String.length source) + room)
    with ((Z.of_nat (String.length source) + room - 1) + 1) in Hfits by lia.
  destruct (parse_primary_expr_extends strtod strtol _ _ _ _ _ _ Hfits ltac:(lia) Hprimary)
    as (-> & Hcount1 & Hfits1 & _ & _).
  apply bind_Stop in H. destruct H as [H | ([token after] & Htoken & H)].
  { exact (next_token_Stop _ _ H). }
  pose proof (next_token_Some _ _ _ Htoken) as Hafter.
  destruct (is_plus_token token) eqn:Hplus; [| discriminate].
  apply is_plus_token_true in Hplus. subst token.
  destruct Hafter as (_ & Hafter & _).
  assert (Hfits1' : eb_fits (Z.of_nat (String.length after) + (room + 1)) eb1)
    by (eapply eb_fits_le; [exact Hfits1 | lia]).
  apply bind_Stop in H. destruct H as [H | ([[rhs rest2] eb2] & Hrhs & H)].
  { exact (IH _ _ _ _ Hfits1' ltac:(lia) H). }
  destruct (parse_plus_expr_extends strtod strtol _ _ _ _ _ _ _ Hfits1' ltac:(lia) Hrhs)
    as (_ & Hfits2 & _).
  replace (Z.of_nat (String.length rest2) + (room + 1))
    with ((Z.of_nat (String.length rest2) + room) + 1) in Hfits2 by lia.
  destruct (expr_buffer_alloc_fits _ eb2 Hfits2 ltac:(lia))
    as (eb3 & Halloc & Hcount3 & Hfits3).
  rewrite Halloc in H. cbn [bind] in H.
  unfold expr_buffer_at, assert in H.
  destruct (Z.ltb_spec (count eb2) (count eb3)) as [_ | Hge]; [discriminate | lia].
Qed.

(** X13: [parse_expr] trips no assertion and reads no node that was not
    written.  On an arena with room for the formula, in which every index
    below the count stands for a written node, it returns, having consumed at
    least one character and leaving such an arena again, or it ends the run
    with one of the four diagnostics of the parser; it fails neither
    [assert(eb->items == NULL)] nor [assert(index < eb->count)], and its
    recursion ends. *)
Theorem parse_expr_safe (source : string) (eb : Expr_Buffer) :
  eb_fits (Z.of_nat (String.length source)) eb -> eb_full eb ->
  match parse_expr strtod strtol source eb with
  | Done (root, rest, eb') =>
      eb_full eb' /\ (String.length rest < String.length source)%nat
  | Stop why => is_syntax_error why = true
  | OutOfFuel => False
  end.
Proof.
  intros Hfits Hfull.
  replace (Z.of_nat (String.length source))
    with (Z.of_nat (String.length source) + 0) in Hfits by lia.
  pose proof (parse_expr_returns strtod strtol source eb) as Hreturns.
  unfold parse_expr in *.
  destruct (parse_plus_expr strtod strtol (S (String.length source)) source eb)
    as [[[root rest] eb'] | why |] eqn:Hparse.
  - split; [exact (parse_plus_expr_full _ _ _ _ _ _ _ Hfits ltac:(lia) Hfull Hparse) |].
    destruct (parse_plus_expr_extends strtod strtol _ _ _ _ _ _ _ Hfits ltac:(lia) Hparse)
      as (Hcount & _ & _).
    lia.
  - exact (parse_plus_expr_safe _ _ _ _ _ Hfits ltac:(lia) Hparse).
  - exact (Hreturns eq_refl).
Qed.

End ParserSafety.

Lemma parse_expr_safe_witness :
  eb_fits (Z.of_nat (String.length "A1 + b2")) Expr_Buffer_zero /\
  eb_full Expr_Buffer_zero /\
  parse_expr Libc.strtod Libc.strtol "A1 + b2" Expr_Buffer_zero = Stop ERROR_cell_capital /\
  is_syntax_error ERROR_cell_capital = true.
Proof.
  assert (Hfits : eb_fits (Z.of_nat (String.length "A1 + b2")) Expr_Buffer_zero).
  { unfold eb_fits. vm_compute. repeat split; discriminate. }
  split; [exact Hfits |]. split; [exact eb_full_zero |].
  pose proof (parse_expr_safe Libc.strtod Libc.strtol "A1 + b2" Expr_Buffer_zero
                Hfits eb_full_zero) as H.
  assert (Hrun : parse_expr Libc.strtod Libc.strtol "A1 + b2" Expr_Buffer_zero
                 = Stop ERROR_cell_capital) by (vm_compute; reflexivity).
  rewrite Hrun in H. split; [exact Hrun | exact H].
Defined.

(** ** The evaluator on a loaded table *)

Lemma loaded_cell_at (table : Table) (eb : Expr_Buffer) (row col : Z) (cell : nat) :
  loaded table eb -> 0 <= row -> 0 <= col ->
  table_cell_at table row col = Done cell ->
  cell = Z.to_nat (row * cols table + col) /\ exists c, cell_load table cell = Done c.
Proof.
  intros [Hrows Hcols Hsize Hsmall _ _ _] Hrow Hcol H.
  unfold table_cell_at, assert in H.
  destruct (Z.ltb_spec row (rows table)) as [Hr | _]; simpl in H; [| discriminate].
  destruct (Z.ltb_spec col (cols table)) as [Hc | _]; simpl in H; [| discriminate].
  injection H as <-.
  assert (Hin : 0 <= row * cols table + col < rows table * cols table) by nia.
  rewrite size_t_small by lia.
  split; [reflexivity |]. apply cell_load_length. lia.
Qed.

Lemma loaded_same (table table' : Table) (eb : Expr_Buffer) :
  loaded table eb -> same_formulas table table' ->
  List.length (cells table') = List.length (cells table) ->
  loaded table' eb.
Proof.
  intros [Hrows Hcols Hsize Hsmall Hformulas Hord Hfull] Hsame Hlen.
  pose proof Hsame as (Hr & Hc & _).
  constructor; try rewrite Hr; try rewrite Hc; try rewrite Hlen; auto.
  intros cell index status value Hload.
  destruct (same_formulas_formula _ _ _ _ _ _ (same_formulas_sym _ _ Hsame) Hload)
    as (status' & value' & Hload').
  exact (Hformulas _ _ _ _ Hload').
Qed.

Lemma loaded_store (table : Table) (eb : Expr_Buffer) (cell : nat) (index : Expr_Index)
    (status0 status : Eval_Status) (value0 value : float) :
  loaded table eb ->
  cell_load table cell = Done (CELL_KIND_EXPR index status0 value0) ->
  loaded (cell_store table cell (CELL_KIND_EXPR index status value)) eb.
Proof.
  intros Hloaded Hload.
  apply (loaded_same table); [exact Hloaded | |].
  - exact (same_formulas_store _ _ _ _ _ _ _ Hload).
  - cbn [cell_store cells]. apply list_store_length.
Qed.

Lemma loaded_step (table table' : Table) (eb : Expr_Buffer) :
  loaded table eb -> table_step table table' -> loaded table' eb.
Proof.
  intros Hloaded Hstep.
  apply (loaded_same table); [exact Hloaded | exact (table_step_same _ _ Hstep) |].
  destruct Hstep as (_ & _ & Hlen & _). exact Hlen.
Qed.

Lemma table_cell_at_Stop (table : Table) (row col : Z) (why : Failure) :
  table_cell_at table row col = Stop why -> is_eval_error why = true.
Proof.
  unfold table_cell_at, assert.
  destruct (row <? rows table); simpl; [| intros H; injection H as <-; reflexivity].
  destruct (col <? cols table); simpl; [discriminate |].
  intros H. injection H as <-. reflexivity.
Qed.

Lemma table_eval_cell_with_safe
    (f : Table -> Expr_Buffer -> Expr_Index -> outcome (float * Table))
    (eb : Expr_Buffer) (table : Table) (cell : nat) (c : Cell) (why : Failure) :
  (forall t i why',
      loaded t eb -> 0 <= i < count eb -> f t eb i = Stop why' ->
      is_eval_error why' = true) ->
  (forall t i w t', f t eb i = Done (w, t') -> table_step t t') ->
  loaded table eb ->
  cell_load table cell = Done c ->
  table_eval_cell_with f table eb cell = Stop why ->
  is_eval_error why = true.
Proof.
  intros Hf Hstep Hloaded Hload H. unfold table_eval_cell_with in H.
  rewrite Hload in H. cbn [bind] in H.
  destruct c as [text | number | index status value]; try discriminate.
  destruct status; [| injection H as <-; reflexivity | discriminate].
  unfold cell_set_status at 1 in H. rewrite Hload in H. cbn [bind] in H.
  pose proof (cell_load_store_same _ _ _ (CELL_KIND_EXPR index INPROGRESS value) Hload)
    as Hload1.
  apply bind_Stop in H. destruct H as [H | ([w t2] & Hrun & H)].
  - apply (Hf _ _ _ (loaded_store _ _ _ _ _ INPROGRESS _ value Hloaded Hload)) in H;
      [exact H |].
    exact (loaded_formulas _ _ Hloaded _ _ _ _ Hload).
  - exfalso.
    destruct (Hstep _ _ _ _ Hrun) as (_ & _ & _ & Hcells).
    assert (Hload2 : cell_load t2 cell = Done (CELL_KIND_EXPR index INPROGRESS value)).
    { destruct (Hcells cell) as [Heq | (i & x & y & Hbefore & _)]; [| congruence].
      rewrite Heq. exact Hload1. }
    unfold cell_set_value in H. rewrite Hload2 in H. cbn [bind] in H.
    unfold cell_set_status in H. rewrite (cell_load_store_same _ _ _ _ Hload2) in H.
    discriminate.
Qed.

Lemma table_eval_expr_safe (fuel : nat) :
  forall (eb : Expr_Buffer) (table : Table) (index : Expr_Index) (why : Failure),
    loaded table eb -> 0 <= index < count eb ->
    table_eval_expr fuel table eb index = Stop why ->
    is_eval_error why = true.
Proof.
  induction fuel as [| fuel IH]; intros eb table index why Hloaded Hindex H; [discriminate |].
  destruct (loaded_full _ _ Hloaded index Hindex) as (e & He & Hshape).
  rewrite (table_eval_expr_step _ _ _ _ _ He) in H.
  destruct e as [number | row col | lhs rhs]; [discriminate | |].
  - destruct Hshape as [Hrow Hcol].
    apply bind_Stop in H. destruct H as [H | (cell & Hcell & H)];
      [exact (table_cell_at_Stop _ _ _ _ H) |].
    destruct (loaded_cell_at _ _ _ _ _ Hloaded Hrow Hcol Hcell) as (_ & c & Hc).
    rewrite Hc in H. cbn [bind] in H.
    destruct c as [text | number | i status value];
      [injection H as <-; reflexivity | discriminate |].
    apply bind_Stop in H. destruct H as [H | (t1 & Hrun & H)].
    + apply (table_eval_cell_with_safe (table_eval_expr fuel) eb table cell _ why) in Hc;
        [exact Hc | | | exact Hloaded | exact H].
      * intros t j why' Ht Hj Hstop. exact (IH _ _ _ _ Ht Hj Hstop).
      * intros t j w t' Hdone. exact (table_eval_expr_table_step _ _ _ _ _ _ Hdone).
    + exfalso.
      pose proof (table_eval_cell_table_step _ _ _ _ _ Hrun) as Hstep.
      destruct (same_formulas_formula _ _ _ _ _ _ (table_step_same _ _ Hstep) Hc)
        as (status1 & value1 & Hload1).
      rewrite Hload1 in H. discriminate.
  - destruct (loaded_ordered _ _ Hloaded _ _ _ He) as [Hl Hr].
    apply bind_Stop in H. destruct H as [H | ([a t1] & Hlhs & H)].
    + assert (Hlhs : 0 <= lhs < count eb) by lia.
      exact (IH _ _ _ _ Hloaded Hlhs H).
    + apply bind_Stop in H. destruct H as [H | ([b t2] & _ & H)]; [| discriminate].
      pose proof (table_eval_expr_table_step _ _ _ _ _ _ Hlhs) as Hstep.
      assert (Hrhs : 0 <= rhs < count eb) by lia.
      exact (IH _ _ _ _ (loaded_step _ _ _ Hloaded Hstep) Hrhs H).
Qed.

Lemma table_eval_cell_safe (fuel : nat) (eb : Expr_Buffer) (table : Table) (cell : nat)
    (c : Cell) (why : Failure) :
  loaded table eb ->
  cell_load table cell = Done c ->
  table_eval_cell fuel table eb cell = Stop why ->
  is_eval_error why = true.
Proof.
  intros Hloaded Hload H.
  apply (table_eval_cell_with_safe (table_eval_expr fuel) eb table cell c why);
    [| | exact Hloaded | exact Hload | exact H].
  - intros t j why' Ht Hj Hstop. exact (table_eval_expr_safe fuel _ _ _ _ Ht Hj Hstop).
  - intros t j w t' Hdone. exact (table_eval_expr_table_step _ _ _ _ _ _ Hdone).
Qed.

(** ** The loops of [main] *)

Lemma table_step_refl (table : Table) : table_step table table.
Proof. repeat split. intros cell. left. reflexivity. Qed.

Lemma table_step_trans (t1 t2 t3 : Table) :
  table_step t1 t2 -> table_step t2 t3 -> table_step t1 t3.
Proof.
  intros (Hr & Hc & Hl & H) (Hr' & Hc' & Hl' & H').
  split; [congruence |]. split; [congruence |]. split; [congruence |].
  intros cell.
  destruct (H cell) as [Heq | (i & v & w & Hb & Ha)];
    destruct (H' cell) as [Heq' | (i' & v' & w' & Hb' & Ha')].
  - left. congruence.
  - right. exists i', v', w'. split; congruence.
  - right. exists i, v, w. split; congruence.
  - congruence.
Qed.

Lemma table_step_settled (table table' : Table) (cell : nat) (c : Cell) :
  table_step table table' ->
  cell_load table cell = Done c -> is_unevaluated c = false ->
  cell_load table' cell = Done c.
Proof.
  intros (_ & _ & _ & H) Hload Hc.
  destruct (H cell) as [Heq | (i & v & w & Hb & _)]; [congruence |].
  rewrite Hload in Hb. injection Hb as ->. discriminate.
Qed.

Lemma table_step_unevaluated (table table' : Table) :
  table_step table table' -> (unevaluated table' <= unevaluated table)%nat.
Proof.
  intros (_ & _ & _ & H). unfold unevaluated. apply filter_pointwise.
  intros n c' Hn Hp. apply cell_load_Done in Hn.
  destruct (H n) as [Heq | (i & v & w & _ & Ha)].
  - rewrite Heq in Hn. apply cell_load_Done in Hn. eauto.
  - rewrite Ha in Hn. injection Hn as <-. discriminate.
Qed.

(** The cell that [table_eval_cell] was called for is not left unevaluated. *)
Lemma table_eval_cell_settled (fuel : nat) (table table' : Table) (eb : Expr_Buffer)
    (cell : nat) (c : Cell) :
  table_eval_cell fuel table eb cell = Done table' ->
  cell_load table' cell = Done c ->
  is_unevaluated c = false.
Proof.
  intros H Hload.
  pose proof (table_eval_cell_table_step _ _ _ _ _ H) as (_ & _ & _ & Hcells).
  destruct (Hcells cell) as [Heq | (i & v & w & _ & Ha)].
  - rewrite Hload in Heq. symmetry in Heq.
    destruct c as [text | number | index status value]; try reflexivity.
    rewrite <- table_eval_cell_log_erase in H.
    destruct (table_eval_cell_log fuel table eb cell) as [[t log] | why |] eqn:Hlog;
      try discriminate.
    injection H as ->.
    destruct (table_eval_cell_log_evaluates _ _ _ _ _ _ _ _ _ Hlog Heq) as [cached Hcached].
    rewrite Hload in Hcached. injection Hcached as -> _. reflexivity.
  - rewrite Hload in Ha. injection Ha as ->. reflexivity.
Qed.

Lemma table_step_cell_at (table table' : Table) (row col : Z) :
  table_step table table' -> table_cell_at table' row col = table_cell_at table row col.
Proof. intros (Hr & Hc & _). unfold table_cell_at. rewrite Hr, Hc. reflexivity. Qed.

Lemma main_row_output (fuel : nat) (eb : Expr_Buffer) (row : Z) (columns : list Z) :
  forall (table table' : Table) (out out' : list Output),
    main_row fuel table eb row columns out = (out', Done table') ->
    table_step table table' /\
    forall final, table_step table' final -> out' = out ++ render_row final row columns.
Proof.
  induction columns as [| col columns IH]; intros table table' out out' H.
  - injection H as <- <-. split; [apply table_step_refl |].
    intros final _. simpl. rewrite app_nil_r. reflexivity.
  - simpl in H.
    destruct (cell <- table_cell_at table row col ;;
              table0 <- table_eval_cell fuel table eb cell ;;
              c <- cell_load table0 cell ;;
              Done (table0, c)) as [[t1 c] | why |] eqn:Hbody; try discriminate.
    apply bind_Done in Hbody. destruct Hbody as (cell & Hcell & Hbody).
    apply bind_Done in Hbody. destruct Hbody as (t1' & Hrun & Hbody).
    apply bind_Done in Hbody. destruct Hbody as (c' & Hc & Hbody).
    injection Hbody as -> ->.
    pose proof (table_eval_cell_table_step _ _ _ _ _ Hrun) as Hstep1.
    pose proof (table_eval_cell_settled _ _ _ _ _ _ Hrun Hc) as Hsettled.
    destruct (IH _ _ _ _ H) as (Hstep & Hout).
    split; [exact (table_step_trans _ _ _ Hstep1 Hstep) |].
    intros final Hfinal.
    pose proof (table_step_trans _ _ _ Hstep Hfinal) as Hlast.
    rewrite (Hout final Hfinal).
    unfold render_row. cbn [flat_map]. fold (render_row final row columns).
    unfold render_cell.
    rewrite (table_step_cell_at _ _ _ _ (table_step_trans _ _ _ Hstep1 Hlast)), Hcell.
    cbn [bind]. rewrite (table_step_settled _ _ _ _ Hlast Hc Hsettled).
    destruct Hlast as (_ & -> & _).
    destruct (col <? size_t (cols t1 - 1)); simpl; rewrite <- !app_assoc; reflexivity.
Qed.

Lemma main_rows_output (fuel : nat) (eb : Expr_Buffer) (todo : list Z) :
  forall (table table' : Table) (out out' : list Output),
    main_rows fuel table eb todo out = (out', Done table') ->
    table_step table table' /\ out' = out ++ render_rows table' todo.
Proof.
  induction todo as [| row todo IH]; intros table table' out out' H.
  - injection H as <- <-. split; [apply table_step_refl |].
    simpl. rewrite app_nil_r. reflexivity.
  - simpl in H.
    destruct (main_row fuel table eb row (counter (cols table)) out)
      as [out1 [t1 | why |]] eqn:Hrow; try discriminate.
    destruct (main_row_output _ _ _ _ _ _ _ _ Hrow) as (Hstep1 & Hout1).
    destruct (IH _ _ _ _ H) as (Hstep & Hout).
    split; [exact (table_step_trans _ _ _ Hstep1 Hstep) |].
    rewrite Hout, (Hout1 table' Hstep).
    unfold render_rows. cbn [flat_map].
    destruct (table_step_trans _ _ _ Hstep1 Hstep) as (_ & -> & _).
    rewrite <- !app_assoc. reflexivity.
Qed.

Lemma counter_range (n : Z) : Forall (fun i => 0 <= i < n) (counter n).
Proof.
  apply Forall_forall. intros i Hi. unfold counter in Hi.
  apply in_map_iff in Hi. destruct Hi as (k & <- & Hk). apply in_seq in Hk. lia.
Qed.

Lemma table_cell_at_inside (table : Table) (row col : Z) :
  0 <= row < rows table -> 0 <= col < cols table ->
  table_cell_at table row col = Done (Z.to_nat (size_t (row * cols table + col))).
Proof.
  intros Hrow Hcol. unfold table_cell_at, assert.
  destruct (Z.ltb_spec row (rows table)) as [_ | Hge]; [| lia].
  destruct (Z.ltb_spec col (cols table)) as [_ | Hge]; [| lia].
  reflexivity.
Qed.

Lemma main_row_safe (fuel : nat) (eb : Expr_Buffer) (row : Z) (columns : list Z) :
  forall (table : Table) (out : list Output),
    loaded table eb ->
    (unevaluated table * S (Z.to_nat (count eb)) <= fuel)%nat ->
    0 <= row < rows table ->
    Forall (fun col => 0 <= col < cols table) columns ->
    match snd (main_row fuel table eb row columns out) with
    | Done _ => True
    | Stop why => is_eval_error why = true
    | OutOfFuel => False
    end.
Proof.
  induction columns as [| col columns IH]; intros table out Hloaded Hfuel Hrow Hcols;
    [exact I |].
  inversion Hcols as [| ? ? Hcol Hrest]; subst.
  pose proof (table_cell_at_inside table row col Hrow Hcol) as Hcell.
  destruct (loaded_cell_at _ _ _ _ _ Hloaded (proj1 Hrow) (proj1 Hcol) Hcell) as (_ & c & Hc).
  simpl. rewrite Hcell. cbn [bind].
  pose proof (table_eval_cell_terminates eb table (Z.to_nat (size_t (row * cols table + col)))
                fuel (loaded_ordered _ _ Hloaded) Hfuel) as Hends.
  destruct (table_eval_cell fuel table eb (Z.to_nat (size_t (row * cols table + col))))
    as [t1 | why |] eqn:Hrun; cbn [bind].
  - pose proof (table_eval_cell_table_step _ _ _ _ _ Hrun) as Hstep.
    assert (Hc1 : exists c1, cell_load t1 (Z.to_nat (size_t (row * cols table + col)))
                             = Done c1).
    { destruct Hstep as (_ & _ & _ & Hcells).
      destruct (Hcells (Z.to_nat (size_t (row * cols table + col))))
        as [Heq | (i & v & w & _ & Ha)]; [rewrite Heq |]; eauto. }
    destruct Hc1 as [c1 Hc1]. rewrite Hc1. cbn [bind].
    pose proof (table_step_unevaluated _ _ Hstep) as Hless.
    pose proof Hstep as (Hr & Hcs & _).
    apply IH.
    + exact (loaded_step _ _ _ Hloaded Hstep).
    + pose proof (Nat.mul_le_mono_r _ _ (S (Z.to_nat (count eb))) Hless). lia.
    + rewrite Hr. exact Hrow.
    + rewrite Hcs. exact Hrest.
  - simpl. exact (table_eval_cell_safe _ _ _ _ _ _ Hloaded Hc Hrun).
  - exact (Hends eq_refl).
Qed.

Lemma main_rows_safe (fuel : nat) (eb : Expr_Buffer) (todo : list Z) :
  forall (table : Table) (out : list Output),
    loaded table eb ->
    (unevaluated table * S (Z.to_nat (count eb)) <= fuel)%nat ->
    Forall (fun row => 0 <= row < rows table) todo ->
    match snd (main_rows fuel table eb todo out) with
    | Done _ => True
    | Stop why => is_eval_error why = true
    | OutOfFuel => False
    end.
Proof.
  induction todo as [| row todo IH]; intros table out Hloaded Hfuel Hrows; [exact I |].
  inversion Hrows as [| ? ? Hrow Hrest]; subst.
  simpl.
  pose proof (main_row_safe fuel eb row (counter (cols table)) table out Hloaded Hfuel Hrow
                (counter_range (cols table))) as Hsafe.
  destruct (main_row fuel table eb row (counter (cols table)) out)
    as [out1 [t1 | why |]] eqn:Hrun.
  - destruct (main_row_output _ _ _ _ _ _ _ _ Hrun) as (Hstep & _).
    pose proof (table_step_unevaluated _ _ Hstep) as Hless.
    pose proof Hstep as (Hr & _).
    apply IH.
    + exact (loaded_step _ _ _ Hloaded Hstep).
    + pose proof (Nat.mul_le_mono_r _ _ (S (Z.to_nat (count eb))) Hless). lia.
    + rewrite Hr. exact Hrest.
  - exact Hsafe.
  - exact Hsafe.
Qed.

(** ** The loader *)

Lemma sv_chop_by_delim_length (delim : ascii) (sv : string) :
  forall chopped left,
    sv_chop_by_delim sv delim = (chopped, left) ->
    (String.length chopped + String.length left <= String.length sv)%nat /\
    (sv <> EmptyString -> (String.length left < String.length sv)%nat).
Proof.
  induction sv as [| c rest IH]; intros chopped left H; simpl in H.
  - injection H as <- <-. split; [simpl; lia | congruence].
  - destruct (Ascii.eqb c delim).
    + injection H as <- <-. simpl. split; lia.
    + destruct (sv_chop_by_delim rest delim) as [a b].
      injection H as <- <-. destruct (IH _ _ eq_refl) as [Hle _]. simpl. split; lia.
Qed.

Lemma estimate_line_step (fuel : nat) (col : Z) (c : ascii) (rest : string) :
  estimate_line (S fuel) col (String c rest) =
    let (_, line) := sv_chop_by_delim (String c rest) "|" in
    estimate_line fuel (size_t (col + 1)) line.
Proof. reflexivity. Qed.

Lemma estimate_lines_step (fuel : nat) (rows cols : Z) (c : ascii) (rest : string) :
  estimate_lines (S fuel) rows cols (String c rest) =
    let (line, content) := sv_chop_by_delim (String c rest) "010" in
    col <- estimate_line (S (String.length line)) 0 line ;;
    estimate_lines fuel (size_t (rows + 1)) (if cols <? col then col else cols) content.
Proof. reflexivity. Qed.

(** The inner loop of [estimate_table_size] returns, with a count that is
    at most the length of the line. *)
Lemma estimate_line_Done (fuel : nat) :
  forall (col : Z) (line : string),
    (String.length line < fuel)%nat -> 0 <= col ->
    col + Z.of_nat (String.length line) < 2 ^ SIZE_WIDTH ->
    exists c,
      estimate_line fuel col line = Done c /\
      col <= c <= col + Z.of_nat (String.length line) /\
      (line <> EmptyString -> col < c).
Proof.
  induction fuel as [| fuel IH]; intros col line Hfuel Hcol Hsmall; [lia |].
  destruct line as [| a rest].
  - exists col. simpl. split; [reflexivity |]. split; [lia | congruence].
  - rewrite estimate_line_step.
    destruct (sv_chop_by_delim (String a rest) "|") as [field line'] eqn:Hchop.
    destruct (sv_chop_by_delim_length _ _ _ _ Hchop) as [_ Hless].
    specialize (Hless ltac:(discriminate)).
    rewrite size_t_small by lia.
    destruct (IH (col + 1) line') as (c & Hc & Hrange & _); try lia.
    exists c. split; [exact Hc |]. split; [lia |]. intros _. lia.
Qed.

Lemma estimate_line_bounds (fuel : nat) :
  forall (col : Z) (line : string) (c : Z),
    estimate_line fuel col line = Done c -> 0 <= col ->
    col + Z.of_nat (String.length line) < 2 ^ SIZE_WIDTH ->
    col <= c /\ (line <> EmptyString -> col < c).
Proof.
  induction fuel as [| fuel IH]; intros col line c Hest Hcol Hsmall; [discriminate |].
  destruct line as [| a rest].
  - simpl in Hest. injection Hest as <-. split; [lia | congruence].
  - rewrite estimate_line_step in Hest.
    destruct (sv_chop_by_delim (String a rest) "|") as [field line'] eqn:Hchop.
    destruct (sv_chop_by_delim_length _ _ _ _ Hchop) as [_ Hless].
    specialize (Hless ltac:(discriminate)).
    rewrite size_t_small in Hest by lia.
    destruct (IH _ _ _ Hest) as [Hle _]; [lia | lia |].
    split; [lia |]. intros _. lia.
Qed.

Lemma estimate_lines_bounds (fuel : nat) :
  forall (rows cols : Z) (content : string) (R C : Z),
    estimate_lines fuel rows cols content = Done (R, C) -> 0 <= rows ->
    rows + Z.of_nat (String.length content) < 2 ^ SIZE_WIDTH ->
    rows <= R /\ cols <= C /\ (content <> EmptyString -> rows < R).
Proof.
  induction fuel as [| fuel IH]; intros rows cols content R C Hest Hrows Hsmall;
    [discriminate |].
  destruct content as [| a rest].
  - simpl in Hest. injection Hest as <- <-. split; [lia |]. split; [lia | congruence].
  - rewrite estimate_lines_step in Hest.
    destruct (sv_chop_by_delim (String a rest) "010") as [line content'] eqn:Hchop.
    destruct (sv_chop_by_delim_length _ _ _ _ Hchop) as [_ Hless].
    specialize (Hless ltac:(discriminate)).
    apply bind_Done in Hest. destruct Hest as (col & _ & Hest).
    rewrite size_t_small in Hest by lia.
    destruct (IH _ _ _ _ _ Hest) as (HR & HC & _); [lia | lia |].
    split; [lia |]. split; [destruct (cols <? col) eqn:Hlt; lia |]. intros _. lia.
Qed.

(** The outer loop returns, with at most one row and one column for each
    character. *)
Lemma estimate_lines_Done (fuel : nat) :
  forall (rows cols : Z) (content : string),
    (String.length content < fuel)%nat -> 0 <= rows -> 0 <= cols ->
    rows + Z.of_nat (String.length content) < 2 ^ SIZE_WIDTH ->
    exists R C,
      estimate_lines fuel rows cols content = Done (R, C) /\
      rows <= R <= rows + Z.of_nat (String.length content) /\
      cols <= C <= Z.max cols (Z.of_nat (String.length content)) /\
      (content <> EmptyString -> rows < R).
Proof.
  induction fuel as [| fuel IH]; intros rows cols content Hfuel Hrows Hcols Hsmall; [lia |].
  destruct content as [| a rest].
  - exists rows, cols. simpl. split; [reflexivity |]. repeat split; try lia. congruence.
  - rewrite estimate_lines_step.
    destruct (sv_chop_by_delim (String a rest) "010") as [line content'] eqn:Hchop.
    destruct (sv_chop_by_delim_length _ _ _ _ Hchop) as [Hle Hless].
    specialize (Hless ltac:(discriminate)).
    destruct (estimate_line_Done (S (String.length line)) 0 line) as (col & Hcol & Hrange & _);
      try lia.
    rewrite Hcol. cbn [bind].
    rewrite size_t_small by lia.
    destruct (IH (rows + 1) (if cols <? col then col else cols) content')
      as (R & C & Hrec & HR & HC & _); try lia.
    { destruct (cols <? col); lia. }
    exists R, C. split; [exact Hrec |].
    destruct (Z.ltb_spec cols col); repeat split; lia.
Qed.

Lemma map_list_store {A B : Type} (f : A -> B) (l : list A) :
  forall n a, map f (list_store l n a) = list_store (map f l) n (f a).
Proof.
  induction l as [| x l IH]; intros [| n] a; simpl; try reflexivity.
  rewrite IH. reflexivity.
Qed.

Lemma filter_store_le {A : Type} (p : A -> bool) (l : list A) :
  forall n b,
    (List.length (filter p (list_store l n b)) <= S (List.length (filter p l)))%nat /\
    (p b = false ->
     (List.length (filter p (list_store l n b)) <= List.length (filter p l))%nat).
Proof.
  induction l as [| x l IH]; intros [| n] b; simpl; try (split; lia).
  - destruct (p b), (p x); simpl; split; intros; try lia; discriminate.
  - destruct (IH n b) as [Hle Hfalse]. destruct (p x); simpl; split; intros; try lia.
    + specialize (Hfalse H). lia.
    + exact (Hfalse H).
Qed.

Lemma loading_later (table : Table) (total : Z) (slots : list (option Cell))
    (eb : Expr_Buffer) (next next' room room' : Z) :
  loading table total slots eb next room ->
  next <= next' -> 0 <= room' <= room ->
  loading table total slots eb next' room'.
Proof.
  intros [Hsize Hahead Hslots Hformulas Hfits Hord Hfull [Hroom Htotal]] Hnext Hroom'.
  constructor; auto.
  - intros n Hn Hlt. apply Hahead; [lia | exact Hlt].
  - lia.
Qed.

(** The write of one cell: the slot at [next] gets a text, a number, or an
    unevaluated formula whose expression has just been stored. *)
Lemma loading_store (table : Table) (total : Z) (slots : list (option Cell))
    (eb eb' : Expr_Buffer) (next room room' : Z) (cell : nat) (c : Cell) :
  loading table total slots eb next room ->
  Z.of_nat cell = next -> (cell < List.length slots)%nat ->
  eb_fits 0 eb' -> eb_ordered eb' -> eb_full eb' -> count eb <= count eb' ->
  match c with
  | CELL_KIND_EXPR index status _ =>
      status = UNEVALUATED /\ 0 <= index < count eb' /\ count eb < count eb'
  | _ => True
  end ->
  0 <= room' -> count eb' + room' <= total ->
  loading table total (list_store slots cell (Some c)) eb' (next + 1) room'.
Proof.
  intros [Hsize Hahead Hslots Hformulas Hfits Hord Hfull [Hroom Htotal]]
         Hcell Hlt Hfits' Hord' Hfull' Hcount Hc Hroom' Htotal'.
  constructor; auto.
  - rewrite list_store_length. exact Hsize.
  - intros n Hn. rewrite list_store_length. intros Hlen.
    rewrite list_store_other by lia. apply Hahead; [lia | exact Hlen].
  - intros n index status value Hnth.
    destruct (Nat.eq_dec cell n) as [<- | Hne].
    + rewrite list_store_same in Hnth by exact Hlt. injection Hnth as ->.
      destruct Hc as (Hstatus & Hindex & _). auto.
    + rewrite list_store_other in Hnth by exact Hne.
      destruct (Hslots _ _ _ _ Hnth) as [Hstatus Hindex]. split; [exact Hstatus | lia].
  - rewrite map_list_store.
    destruct (filter_store_le is_unevaluated (map cell_of_slot slots) cell
                (cell_of_slot (Some c))) as [Hle Hfalse].
    destruct c as [text | number | index status value].
    + specialize (Hfalse eq_refl). lia.
    + specialize (Hfalse eq_refl). lia.
    + destruct Hc as (_ & _ & Hmore). lia.
Qed.

Section LoaderProperties.

Variable strtod : string -> float * nat.
Variable strtol : string -> Z * nat.

Lemma parse_table_cell_safe (table : Table) (total : Z) (slots : list (option Cell))
    (eb : Expr_Buffer) (row col : Z) (cell_value : string) (room used : Z) :
  loading table total slots eb (row * cols table + col) room ->
  0 <= row < rows table -> 0 <= col < cols table ->
  rows table * cols table < 2 ^ SIZE_WIDTH -> total < 2 ^ 57 ->
  Z.of_nat (String.length cell_value) <= used <= room ->
  match parse_table_cell strtod strtol table slots eb row col cell_value with
  | Done (slots', eb') =>
      loading table total slots' eb' (row * cols table + col + 1) (room - used) /\
      List.length slots' = List.length slots
  | Stop why => is_syntax_error why = true
  | OutOfFuel => False
  end.
Proof.
  intros Hloading Hrow Hcol Hsmall Htot Hused.
  pose proof Hloading as [Hsize Hahead Hslots Hformulas Hfits Hord Hfull [Hroom Htotal]].
  assert (Hin : 0 <= row * cols table + col < rows table * cols table) by nia.
  unfold parse_table_cell.
  rewrite (table_cell_at_inside table row col Hrow Hcol). cbn [bind].
  rewrite size_t_small by lia.
  set (cell := Z.to_nat (row * cols table + col)).
  assert (Hcell : Z.of_nat cell = row * cols table + col) by (unfold cell; lia).
  assert (Hlt : (cell < List.length slots)%nat) by lia.
  unfold slot_load. rewrite (Hahead cell ltac:(lia) Hlt). cbn [bind].
  pose proof Hfits as (Hc & Hl & Hcap & _ & _).
  destruct (sv_starts_with cell_value "=").
  - destruct (sv_chop_left cell_value 1) as [mark source] eqn:Hchop.
    pose proof (sv_chop_left_length _ _ _ _ Hchop) as Hlen.
    assert (Hfits0 : eb_fits (Z.of_nat (String.length source) + 0) eb).
    { unfold eb_fits. repeat split; lia. }
    pose proof (parse_expr_returns strtod strtol source eb) as Hreturns.
    unfold parse_expr in *.
    destruct (parse_plus_expr strtod strtol (S (String.length source)) source eb)
      as [[[index rest] eb'] | why |] eqn:Hparse; cbn [bind slot_expr_fields].
    + destruct (parse_plus_expr_ordered strtod strtol _ _ _ _ _ _ _ Hfits0 ltac:(lia) Hord
                  Hparse) as (Hord' & Hroot & Hfits').
      destruct (parse_plus_expr_extends strtod strtol _ _ _ _ _ _ _ Hfits0 ltac:(lia) Hparse)
        as (Hcount & _ & _).
      pose proof (parse_plus_expr_full strtod strtol _ _ _ _ _ _ _ Hfits0 ltac:(lia) Hfull
                    Hparse) as Hfull'.
      split; [| apply list_store_length].
      apply (loading_store table total slots eb eb' _ room); auto; try lia.
      * eapply eb_fits_le; [exact Hfits' | lia].
      * repeat split; lia.
    + exact (parse_plus_expr_safe strtod strtol _ _ _ _ _ Hfits0 ltac:(lia) Hparse).
    + exact (Hreturns eq_refl).
  - destruct (sv_strtod strtod cell_value) as [number [|]].
    + split; [| apply list_store_length].
      apply (loading_store table total slots eb eb _ room); auto; lia.
    + split; [| apply list_store_length].
      apply (loading_store table total slots eb eb _ room); auto; lia.
Qed.

Lemma parse_table_line_step (fuel : nat) (table : Table) (slots : list (option Cell))
    (eb : Expr_Buffer) (row col : Z) (c : ascii) (rest : string) :
  parse_table_line strtod strtol (S fuel) table slots eb row col (String c rest) =
    let (field, line) := sv_chop_by_delim (String c rest) "|" in
    '(slots, eb) <- parse_table_cell strtod strtol table slots eb row col (sv_trim field) ;;
    parse_table_line strtod strtol fuel table slots eb row (size_t (col + 1)) line.
Proof. reflexivity. Qed.

Lemma parse_table_lines_step (fuel : nat) (table : Table) (slots : list (option Cell))
    (eb : Expr_Buffer) (row : Z) (c : ascii) (rest : string) :
  parse_table_lines strtod strtol (S fuel) table slots eb row (String c rest) =
    let (line, content) := sv_chop_by_delim (String c rest) "010" in
    '(slots, eb) <- parse_table_line strtod strtol (S (String.length line)) table slots eb
                      row 0 line ;;
    parse_table_lines strtod strtol fuel table slots eb (size_t (row + 1)) content.
Proof. reflexivity. Qed.

(** The inner loop writes the cells that [estimate_table_size] counted. *)
Lemma parse_table_line_safe (fuel : nat) :
  forall (table : Table) (total : Z) (slots : list (option Cell)) (eb : Expr_Buffer)
         (row col : Z) (line : string) (c R : Z),
    estimate_line fuel col line = Done c -> c <= cols table ->
    0 <= row < rows table -> 0 <= col ->
    col + Z.of_nat (String.length line) < 2 ^ 62 ->
    rows table * cols table < 2 ^ SIZE_WIDTH -> total < 2 ^ 57 -> 0 <= R ->
    loading table total slots eb (row * cols table + col)
            (Z.of_nat (String.length line) + R) ->
    match parse_table_line strtod strtol fuel table slots eb row col line with
    | Done (slots', eb') =>
        loading table total slots' eb' (row * cols table + c) R /\
        List.length slots' = List.length slots
    | Stop why => is_syntax_error why = true
    | OutOfFuel => False
    end.
Proof.
  induction fuel as [| fuel IH];
    intros table total slots eb row col line c R Hest Hc Hrow Hcol Hwrap Hsmall Htot HR
           Hloading; [discriminate |].
  destruct line as [| a rest].
  - simpl in Hest. injection Hest as <-. simpl. split; [exact Hloading | reflexivity].
  - rewrite estimate_line_step in Hest. rewrite parse_table_line_step.
    destruct (sv_chop_by_delim (String a rest) "|") as [field line'] eqn:Hchop.
    destruct (sv_chop_by_delim_length _ _ _ _ Hchop) as [Hle Hless].
    specialize (Hless ltac:(discriminate)).
    change (2 ^ 62) with 4611686018427387904 in Hwrap.
    rewrite size_t_small in Hest |- * by (rewrite size_max; lia).
    destruct (estimate_line_bounds fuel (col + 1) line' c Hest ltac:(lia)
                ltac:(rewrite size_max; lia)) as [Hrange _].
    pose proof (sv_trim_length field) as Htrim.
    pose proof (parse_table_cell_safe table total slots eb row col (sv_trim field)
                  (Z.of_nat (String.length (String a rest)) + R)
                  (Z.of_nat (String.length (String a rest)) - Z.of_nat (String.length line'))
                  Hloading Hrow ltac:(lia) Hsmall Htot ltac:(lia)) as Hcellsafe.
    destruct (parse_table_cell strtod strtol table slots eb row col (sv_trim field))
      as [[slots1 eb1] | why |]; cbn [bind]; [| exact Hcellsafe | exact Hcellsafe].
    destruct Hcellsafe as [Hloading1 Hlen1].
    replace (row * cols table + col + 1) with (row * cols table + (col + 1)) in Hloading1
      by lia.
    replace (Z.of_nat (String.length (String a rest)) + R
             - (Z.of_nat (String.length (String a rest)) - Z.of_nat (String.length line')))
      with (Z.of_nat (String.length line') + R) in Hloading1 by lia.
    pose proof (IH table total slots1 eb1 row (col + 1) line' c R Hest Hc Hrow ltac:(lia)
                  ltac:(lia) Hsmall Htot HR Hloading1) as Hrest.
    destruct (parse_table_line strtod strtol fuel table slots1 eb1 row (col + 1) line')
      as [[slots2 eb2] | why |]; [| exact Hrest | exact Hrest].
    destruct Hrest as [Hloading2 Hlen2]. split; [exact Hloading2 | congruence].
Qed.

(** The outer loop stays inside the table that [estimate_table_size] sized. *)
Lemma parse_table_lines_safe (fuel : nat) :
  forall (table : Table) (total : Z) (slots : list (option Cell)) (eb : Expr_Buffer)
         (row cmax : Z) (content : string),
    estimate_lines fuel row cmax content = Done (rows table, cols table) ->
    0 <= row -> row + Z.of_nat (String.length content) < 2 ^ 62 ->
    rows table * cols table < 2 ^ SIZE_WIDTH -> total < 2 ^ 57 ->
    loading table total slots eb (row * cols table) (Z.of_nat (String.length content)) ->
    match parse_table_lines strtod strtol fuel table slots eb row content with
    | Done (slots', eb') =>
        (exists next, loading table total slots' eb' next 0) /\
        List.length slots' = List.length slots
    | Stop why => is_syntax_error why = true
    | OutOfFuel => False
    end.
Proof.
  induction fuel as [| fuel IH];
    intros table total slots eb row cmax content Hest Hrow Hwrap Hsmall Htot Hloading;
    [discriminate |].
  destruct content as [| a rest].
  - simpl. split; [| reflexivity]. exists (row * cols table). exact Hloading.
  - rewrite estimate_lines_step in Hest. rewrite parse_table_lines_step.
    destruct (sv_chop_by_delim (String a rest) "010") as [line content'] eqn:Hchop.
    destruct (sv_chop_by_delim_length _ _ _ _ Hchop) as [Hle Hless].
    specialize (Hless ltac:(discriminate)).
    apply bind_Done in Hest. destruct Hest as (col & Hcol & Hest).
    change (2 ^ 62) with 4611686018427387904 in Hwrap.
    rewrite size_t_small in Hest |- * by (rewrite size_max; lia).
    destruct (estimate_lines_bounds _ _ _ _ _ _ Hest ltac:(lia) ltac:(rewrite size_max; lia))
      as (HR & HC & _).
    destruct (estimate_line_bounds _ _ _ _ Hcol ltac:(lia) ltac:(rewrite size_max; lia))
      as [Hcol0 _].
    assert (Hcols : col <= cols table) by (destruct (cmax <? col) eqn:Hlt; lia).
    assert (Hstart : loading table total slots eb (row * cols table + 0)
                       (Z.of_nat (String.length line) + Z.of_nat (String.length content'))).
    { eapply loading_later; [exact Hloading | lia | lia]. }
    pose proof (parse_table_line_safe (S (String.length line)) table total slots eb row 0 line
                  col (Z.of_nat (String.length content')) Hcol Hcols ltac:(lia) ltac:(lia)
                  ltac:(change (2 ^ 62) with 4611686018427387904; lia) Hsmall Htot ltac:(lia)
                  Hstart) as Hline.
    destruct (parse_table_line strtod strtol (S (String.length line)) table slots eb row 0 line)
      as [[slots1 eb1] | why |]; cbn [bind]; [| exact Hline | exact Hline].
    destruct Hline as [Hloading1 Hlen1].
    assert (Hnext : loading table total slots1 eb1 ((row + 1) * cols table)
                      (Z.of_nat (String.length content'))).
    { eapply loading_later; [exact Hloading1 | lia | lia]. }
    pose proof (IH table total slots1 eb1 (row + 1) _ content' Hest ltac:(lia)
                  ltac:(change (2 ^ 62) with 4611686018427387904; lia) Hsmall Htot Hnext)
      as Hrest.
    destruct (parse_table_lines strtod strtol fuel table slots1 eb1 (row + 1) content')
      as [[slots2 eb2] | why |]; [| exact Hrest | exact Hrest].
    destruct Hrest as [Hloading2 Hlen2]. split; [exact Hloading2 | congruence].
Qed.

Lemma no_formula_in_zeros (n : nat) :
  filter is_unevaluated (map cell_of_slot (repeat None n)) = [].
Proof. induction n as [| n IH]; simpl; auto. Qed.

(** What [main] has when the evaluation begins. *)
Lemma main_load_loaded (content : string) :
  Z.of_nat (String.length content) < 2 ^ 29 ->
  match main_load strtod strtol content with
  | Done (table, eb) =>
      loaded table eb /\
      (forall cell index status value,
          cell_load table cell = Done (CELL_KIND_EXPR index status value) ->
          status = UNEVALUATED) /\
      Z.of_nat (unevaluated table) <= count eb /\
      count eb <= Z.of_nat (String.length content)
  | Stop why => is_syntax_error why = true
  | OutOfFuel => False
  end.
Proof.
  intros Hlen. change (2 ^ 29) with 536870912 in Hlen.
  unfold main_load, estimate_table_size, parse_table_from_content.
  destruct (estimate_lines_Done (S (String.length content)) 0 0 content)
    as (R & C & Hest & HR & HC & _); try lia.
  { rewrite size_max. lia. }
  rewrite Hest. cbn [bind].
  assert (Hcells : 0 <= R * C < 288230376151711744) by nia.
  rewrite (size_t_small (SIZEOF_CELL * R)) by (unfold SIZEOF_CELL; rewrite size_max; lia).
  rewrite (size_t_small (SIZEOF_CELL * R * C)) by (unfold SIZEOF_CELL; rewrite size_max; lia).
  replace (SIZEOF_CELL * R * C / SIZEOF_CELL) with (R * C)
    by (unfold SIZEOF_CELL; symmetry; replace (32 * R * C) with (R * C * 32) by lia;
        apply Z.div_mul; lia).
  set (table := {| cells := []; rows := R; cols := C |}).
  set (slots := repeat None (Z.to_nat (R * C))).
  assert (Hstart : loading table (Z.of_nat (String.length content)) slots Expr_Buffer_zero
                     (0 * cols table) (Z.of_nat (String.length content))).
  { constructor.
    - unfold slots. rewrite repeat_length. simpl. lia.
    - intros n _ Hn. unfold slots in *. rewrite repeat_length in Hn.
      apply nth_error_repeat. exact Hn.
    - intros n index status value Hnth. apply nth_error_In in Hnth.
      apply repeat_spec in Hnth. discriminate.
    - unfold slots. rewrite no_formula_in_zeros. simpl. lia.
    - unfold eb_fits. simpl. repeat split; lia.
    - exact eb_ordered_zero.
    - exact eb_full_zero.
    - simpl. lia. }
  pose proof (parse_table_lines_safe (S (String.length content)) table
                (Z.of_nat (String.length content)) slots Expr_Buffer_zero 0 0 content Hest
                ltac:(lia) ltac:(change (2 ^ 62) with 4611686018427387904; lia)
                ltac:(unfold table; cbn [rows cols]; rewrite size_max; lia)
                ltac:(change (2 ^ 57) with 144115188075855872; lia) Hstart) as Hsafe.
  destruct (parse_table_lines strtod strtol (S (String.length content)) table slots
              Expr_Buffer_zero 0 content) as [[slots' eb'] | why |]; cbn [bind];
    [| exact Hsafe | exact Hsafe].
  destruct Hsafe as [[next Hloading] Hslots].
  destruct Hloading as [_ _ Hformula Hcount _ Hord Hfull [_ Htotal]].
  assert (Hsize : Z.of_nat (List.length (map cell_of_slot slots')) = R * C).
  { rewrite length_map, Hslots. unfold slots. rewrite repeat_length. lia. }
  assert (Hindex : forall cell index status value,
             cell_load {| cells := map cell_of_slot slots'; rows := R; cols := C |} cell
               = Done (CELL_KIND_EXPR index status value) ->
             status = UNEVALUATED /\ 0 <= index < count eb').
  { intros cell index status value Hload. apply cell_load_Done in Hload.
    cbn [cells] in Hload. rewrite nth_error_map in Hload.
    destruct (nth_error slots' cell) as [[c |] |] eqn:Hnth; simpl in Hload; try discriminate.
    injection Hload as ->. exact (Hformula _ _ _ _ Hnth). }
  split; [| split; [| split]].
  - constructor; cbn [cells rows cols]; auto; try lia.
    + rewrite size_max. lia.
    + intros cell index status value Hload. exact (proj2 (Hindex _ _ _ _ Hload)).
  - intros cell index status value Hload. exact (proj1 (Hindex _ _ _ _ Hload)).
  - exact Hcount.
  - lia.
Qed.

End LoaderProperties.

(** X14: the table that [estimate_table_size] sizes holds every cell that
    [parse_table_from_content] writes.  For a content of fewer than [2^29]
    characters, the loading of [main] (the table is sized, allocated, cleared
    and filled) fails no assertion of [table_cell_at] or of the arena and
    writes no cell outside the block: it returns, or it ends the run with a
    diagnostic of the parser.  When it returns, the block has [rows * cols]
    cells, every formula cell is unevaluated and its index is a node of the
    arena, the sides of every sum are stored before the sum, every index below
    the count is a written node, and the arena has at most one node for each
    character of the content. *)
Theorem main_load_safe (strtod : string -> float * nat) (strtol : string -> Z * nat)
    (content : string) :
  Z.of_nat (String.length content) < 2 ^ 29 ->
  match main_load strtod strtol content with
  | Done (table, eb) =>
      Z.of_nat (List.length (cells table)) = rows table * cols table /\
      (forall cell index status value,
          cell_load table cell = Done (CELL_KIND_EXPR index status value) ->
          status = UNEVALUATED /\ 0 <= index < count eb) /\
      eb_ordered eb /\ eb_full eb /\
      count eb <= Z.of_nat (String.length content)
  | Stop why => is_syntax_error why = true
  | OutOfFuel => False
  end.
Proof.
  intros Hlen. pose proof (main_load_loaded strtod strtol content Hlen) as H.
  destruct (main_load strtod strtol content) as [[table eb] | why |]; [| exact H | exact H].
  destruct H as (Hloaded & Hstatus & _ & Hcount).
  split; [exact (loaded_size _ _ Hloaded) |].
  split; [| split; [exact (loaded_ordered _ _ Hloaded) |
                    split; [exact (loaded_full _ _ Hloaded) | exact Hcount]]].
  intros cell index status value Hload.
  split; [exact (Hstatus _ _ _ _ Hload) | exact (loaded_formulas _ _ Hloaded _ _ _ _ Hload)].
Qed.

Lemma main_load_safe_witness :
  Z.of_nat (String.length content_sum) < 2 ^ 29 /\
  match main_load Libc.strtod Libc.strtol content_sum with
  | Done (table, eb) =>
      Z.of_nat (List.length (cells table)) = rows table * cols table /\
      (forall cell index status value,
          cell_load table cell = Done (CELL_KIND_EXPR index status value) ->
          status = UNEVALUATED /\ 0 <= index < count eb) /\
      eb_ordered eb /\ eb_full eb /\
      count eb <= Z.of_nat (String.length content_sum)
  | Stop why => is_syntax_error why = true
  | OutOfFuel => False
  end.
Proof.
  assert (Hlen : Z.of_nat (String.length content_sum) < 2 ^ 29) by (vm_compute; reflexivity).
  split; [exact Hlen |].
  exact (main_load_safe Libc.strtod Libc.strtol content_sum Hlen).
Defined.

(** A field is a number when [strtod] converts all of it: a sign and a
    decimal point are read in a field, where the tokenizer of the formulas
    refuses them. *)
Example main_load_signed_fields :
  main_load Libc.strtod Libc.strtol "1.5|-2|=1.5" = Stop (ERROR_unknown_token ".") /\
  main_load Libc.strtod Libc.strtol "1.5|-2| 1e-1" =
    Done ({| cells := [CELL_KIND_NUMBER 1.5%float; CELL_KIND_NUMBER (-2)%float;
                       CELL_KIND_NUMBER 0x1.999999999999ap-4%float];
             rows := 1; cols := 3 |},
          Expr_Buffer_zero).
Proof. split; vm_compute; reflexivity. Qed.

(** A reference outside the table fails the assertion of [table_cell_at]
    after the first cell and its bar were written to [stdout].  [abort] ends
    the run without flushing the stream: the two items are what the run has
    written, not what has reached the standard output. *)
Example main_abort_after_output :
  main Libc.strtod Libc.strtol 10 "1|=C0" =
  ([PRINT_NUMBER 1%float; PRINT_BAR], Stop ASSERT_col).
Proof. vm_compute. reflexivity. Qed.

(** X15: [main] runs to an end and stays inside its table and its arena.
    For a content of fewer than [2^29] characters, once the file is read,
    [main] returns or ends the run with a diagnostic of the parser, with one
    of the two diagnostics of the evaluator, or with the assertion of
    [table_cell_at] that a reference to a cell outside the table fails.  It
    never fails [assert(index < eb->count)] or [assert(eb->items == NULL)],
    never reads a cell or a node that is outside its block or was not
    written, and no evaluation needs more activations than the length of the
    content times the length plus one. *)
Theorem main_safe (strtod : string -> float * nat) (strtol : string -> Z * nat)
    (fuel : nat) (content : string) :
  Z.of_nat (String.length content) < 2 ^ 29 ->
  (String.length content * S (String.length content) <= fuel)%nat ->
  match snd (main strtod strtol fuel content) with
  | Done _ => True
  | Stop why => is_syntax_error why || is_eval_error why = true
  | OutOfFuel => False
  end.
Proof.
  intros Hlen Hfuel. unfold main.
  pose proof (main_load_loaded strtod strtol content Hlen) as H.
  destruct (main_load strtod strtol content) as [[table eb] | why |]; simpl;
    [| rewrite H; reflexivity | exact H].
  destruct H as (Hloaded & _ & Hformulas & Hcount).
  pose proof (main_rows_safe fuel eb (counter (rows table)) table [] Hloaded) as Hsafe.
  destruct (snd (main_rows fuel table eb (counter (rows table)) [])) as [t | why |].
  - exact I.
  - rewrite Hsafe; [apply orb_true_r | | apply counter_range].
    assert (Hn : (unevaluated table <= String.length content)%nat) by lia.
    assert (Hm : (S (Z.to_nat (count eb)) <= S (String.length content))%nat) by lia.
    pose proof (Nat.mul_le_mono _ _ _ _ Hn Hm). lia.
  - apply Hsafe; [| apply counter_range].
    assert (Hn : (unevaluated table <= String.length content)%nat) by lia.
    assert (Hm : (S (Z.to_nat (count eb)) <= S (String.length content))%nat) by lia.
    pose proof (Nat.mul_le_mono _ _ _ _ Hn Hm). lia.
Qed.

Lemma main_safe_witness :
  Z.of_nat (String.length "=B0|=A0") < 2 ^ 29 /\
  (String.length "=B0|=A0" * S (String.length "=B0|=A0") <= 56)%nat /\
  main Libc.strtod Libc.strtol 56 "=B0|=A0" = ([], Stop ERROR_circular) /\
  is_syntax_error ERROR_circular || is_eval_error ERROR_circular = true.
Proof.
  assert (Hlen : Z.of_nat (String.length "=B0|=A0") < 2 ^ 29) by (vm_compute; reflexivity).
  assert (Hfuel : (String.length "=B0|=A0" * S (String.length "=B0|=A0") <= 56)%nat)
    by (vm_compute; lia).
  assert (Hrun : main Libc.strtod Libc.strtol 56 "=B0|=A0" = ([], Stop ERROR_circular))
    by (vm_compute; reflexivity).
  pose proof (main_safe Libc.strtod Libc.strtol 56 "=B0|=A0" Hlen Hfuel) as H.
  rewrite Hrun in H.
  split; [exact Hlen |]. split; [exact Hfuel |]. split; [exact Hrun | exact H].
Defined.

(** ** What [main] prints for a formula *)

Lemma table_eval_cells_app (fuel : nat) (eb : Expr_Buffer) (visit : list nat) :
  forall (table : Table) (more : list nat),
    table_eval_cells fuel table eb (visit ++ more) =
      (table1 <- table_eval_cells fuel table eb visit ;;
       table_eval_cells fuel table1 eb more).
Proof.
  induction visit as [| cell visit IH]; intros table more; [reflexivity |].
  simpl. destruct (table_eval_cell fuel table eb cell) as [t1 | why |]; simpl; auto.
Qed.

Lemma main_row_cells (fuel : nat) (eb : Expr_Buffer) (row : Z) (columns : list Z) :
  forall (table table' : Table) (out out' : list Output),
    main_row fuel table eb row columns out = (out', Done table') ->
    table_eval_cells fuel table eb
      (map (fun col => Z.to_nat (size_t (row * cols table + col))) columns) = Done table'.
Proof.
  induction columns as [| col columns IH]; intros table table' out out' H.
  - injection H as _ <-. reflexivity.
  - simpl in H.
    destruct (cell <- table_cell_at table row col ;;
              table0 <- table_eval_cell fuel table eb cell ;;
              c <- cell_load table0 cell ;;
              Done (table0, c)) as [[t1 c] | why |] eqn:Hbody; try discriminate.
    apply bind_Done in Hbody. destruct Hbody as (cell & Hcell & Hbody).
    apply bind_Done in Hbody. destruct Hbody as (t1' & Hrun & Hbody).
    apply bind_Done in Hbody. destruct Hbody as (c' & Hc & Hbody).
    injection Hbody as -> ->.
    assert (Hoffset : cell = Z.to_nat (size_t (row * cols table + col))).
    { unfold table_cell_at, assert in Hcell.
      destruct (row <? rows table); simpl in Hcell; [| discriminate].
      destruct (col <? cols table); simpl in Hcell; [| discriminate].
      injection Hcell as <-. reflexivity. }
    subst cell. simpl. rewrite Hrun. cbn [bind].
    destruct (table_eval_cell_table_step _ _ _ _ _ Hrun) as (_ & Hcols & _).
    rewrite <- Hcols. exact (IH _ _ _ _ H).
Qed.

Lemma main_rows_cells (fuel : nat) (eb : Expr_Buffer) (todo : list Z) :
  forall (table table' : Table) (out out' : list Output),
    main_rows fuel table eb todo out = (out', Done table') ->
    table_eval_cells fuel table eb
      (flat_map (fun row => map (fun col => Z.to_nat (size_t (row * cols table + col)))
                                (counter (cols table))) todo) = Done table'.
Proof.
  induction todo as [| row todo IH]; intros table table' out out' H.
  - injection H as _ <-. reflexivity.
  - simpl in H.
    destruct (main_row fuel table eb row (counter (cols table)) out)
      as [out1 [t1 | why |]] eqn:Hrow; try discriminate.
    cbn [flat_map]. rewrite table_eval_cells_app, (main_row_cells _ _ _ _ _ _ _ _ Hrow).
    cbn [bind].
    destruct (main_row_output _ _ _ _ _ _ _ _ Hrow) as ((_ & Hcols & _) & _).
    rewrite <- Hcols. exact (IH _ _ _ _ H).
Qed.

Lemma counter_In (n i : Z) : 0 <= i < n -> In i (counter n).
Proof.
  intros Hi. unfold counter. apply in_map_iff. exists (Z.to_nat i).
  split; [lia |]. apply in_seq. lia.
Qed.

(** [main] visits every cell of the block. *)
Lemma main_visit_all (table : Table) (eb : Expr_Buffer) :
  loaded table eb -> visits_all table (main_visit table).
Proof.
  intros [Hrows Hcols Hsize Hsmall _ _ _] cell Hcell.
  assert (Hpos : 0 < cols table) by nia.
  pose proof (Z.div_mod (Z.of_nat cell) (cols table) ltac:(lia)) as Hdiv.
  pose proof (Z.mod_pos_bound (Z.of_nat cell) (cols table) Hpos) as Hmod.
  assert (Hquot : 0 <= Z.of_nat cell / cols table < rows table).
  { split; [apply Z.div_pos; lia |]. apply Z.div_lt_upper_bound; lia. }
  unfold main_visit. apply in_flat_map. exists (Z.of_nat cell / cols table).
  split; [apply counter_In; exact Hquot |].
  apply in_map_iff. exists (Z.of_nat cell mod cols table).
  split; [| apply counter_In; exact Hmod].
  replace (Z.of_nat cell / cols table * cols table + Z.of_nat cell mod cols table)
    with (Z.of_nat cell) by lia.
  rewrite size_t_small by lia. lia.
Qed.

(** ** The formulas that [main] evaluates *)

Lemma table_cell_at_visited (table : Table) (row col : Z) (cell : nat) :
  0 <= row -> 0 <= col ->
  table_cell_at table row col = Done cell -> In cell (main_visit table).
Proof.
  intros Hrow Hcol H. unfold table_cell_at, assert in H.
  destruct (Z.ltb_spec row (rows table)) as [Hr |]; cbn [bind] in H; [| discriminate].
  destruct (Z.ltb_spec col (cols table)) as [Hc |]; cbn [bind] in H; [| discriminate].
  injection H as <-.
  unfold main_visit. apply in_flat_map. exists row.
  split; [apply counter_In; lia |].
  apply in_map_iff. exists col. split; [reflexivity | apply counter_In; lia].
Qed.

Section LoaderVisits.

Variable strtod : string -> float * nat.
Variable strtol : string -> Z * nat.

(** The loader writes a cell only where [table_cell_at] points, which is
    where the loops of [main] look: every slot that has been written is at an
    offset that [main] visits, whatever the size of the table. *)
Lemma parse_table_cell_visited (table : Table) (slots slots' : list (option Cell))
    (eb eb' : Expr_Buffer) (row col : Z) (cell_value : string) :
  0 <= row -> 0 <= col ->
  (forall n c, nth_error slots n = Some (Some c) -> In n (main_visit table)) ->
  parse_table_cell strtod strtol table slots eb row col cell_value = Done (slots', eb') ->
  forall n c, nth_error slots' n = Some (Some c) -> In n (main_visit table).
Proof.
  intros Hrow Hcol Hinv H. unfold parse_table_cell in H.
  apply bind_Done in H. destruct H as (cell & Hcell & H).
  apply bind_Done in H. destruct H as (old & _ & H).
  pose proof (table_cell_at_visited _ _ _ _ Hrow Hcol Hcell) as Hin.
  assert (Hstore : forall x n c,
             nth_error (list_store slots cell x) n = Some (Some c) ->
             In n (main_visit table)).
  { intros x n c Hn. destruct (Nat.eq_dec cell n) as [<- | Hne]; [exact Hin |].
    rewrite list_store_other in Hn by exact Hne. exact (Hinv _ _ Hn). }
  destruct (sv_starts_with cell_value "=").
  - destruct (sv_chop_left cell_value 1) as [mark source].
    apply bind_Done in H. destruct H as (parsed & _ & H).
    destruct parsed as [[index rest] eb1].
    apply bind_Done in H. destruct H as (fields & _ & H).
    destruct fields as [status value].
    injection H as <- <-. apply Hstore.
  - destruct (sv_strtod strtod cell_value) as [number [|]];
      injection H as <- <-; apply Hstore.
Qed.

Lemma parse_table_line_visited (fuel : nat) (table : Table) :
  forall (slots slots' : list (option Cell)) (eb eb' : Expr_Buffer) (row col : Z)
         (line : string),
    0 <= row -> 0 <= col ->
    (forall n c, nth_error slots n = Some (Some c) -> In n (main_visit table)) ->
    parse_table_line strtod strtol fuel table slots eb row col line = Done (slots', eb') ->
    forall n c, nth_error slots' n = Some (Some c) -> In n (main_visit table).
Proof.
  induction fuel as [| fuel IH]; intros slots slots' eb eb' row col line Hrow Hcol Hinv H;
    [discriminate |].
  destruct line as [| c rest]; [injection H as <- <-; exact Hinv |].
  rewrite parse_table_line_step in H.
  destruct (sv_chop_by_delim (String c rest) "|") as [field line'].
  apply bind_Done in H. destruct H as (written & Hcell & H).
  destruct written as [slots1 eb1].
  pose proof (parse_table_cell_visited _ _ _ _ _ _ _ _ Hrow Hcol Hinv Hcell) as Hinv1.
  exact (IH _ _ _ _ _ _ _ Hrow (proj1 (size_t_range (col + 1))) Hinv1 H).
Qed.

Lemma parse_table_lines_visited (fuel : nat) (table : Table) :
  forall (slots slots' : list (option Cell)) (eb eb' : Expr_Buffer) (row : Z)
         (content : string),
    0 <= row ->
    (forall n c, nth_error slots n = Some (Some c) -> In n (main_visit table)) ->
    parse_table_lines strtod strtol fuel table slots eb row content = Done (slots', eb') ->
    forall n c, nth_error slots' n = Some (Some c) -> In n (main_visit table).
Proof.
  induction fuel as [| fuel IH]; intros slots slots' eb eb' row content Hrow Hinv H;
    [discriminate |].
  destruct content as [| c rest]; [injection H as <- <-; exact Hinv |].
  rewrite parse_table_lines_step in H.
  destruct (sv_chop_by_delim (String c rest) "010") as [line content'].
  apply bind_Done in H. destruct H as (written & Hline & H).
  destruct written as [slots1 eb1].
  pose proof (parse_table_line_visited _ _ _ _ _ _ _ _ _ Hrow (Z.le_refl 0) Hinv Hline)
    as Hinv1.
  exact (IH _ _ _ _ _ _ (proj1 (size_t_range (row + 1))) Hinv1 H).
Qed.

(** Every formula of the table that [main] has loaded is in a cell that its
    loops visit. *)
Lemma main_load_visited (content : string) (table : Table) (eb : Expr_Buffer) :
  main_load strtod strtol content = Done (table, eb) ->
  forall cell index status value,
    cell_load table cell = Done (CELL_KIND_EXPR index status value) ->
    In cell (main_visit table).
Proof.
  intros H cell index status value Hload. unfold main_load in H.
  apply bind_Done in H. destruct H as (size & _ & H).
  destruct size as [R C]. cbv zeta in H.
  apply bind_Done in H. destruct H as (filled & Hparse & H).
  destruct filled as [slots' eb']. injection H as <- <-.
  apply cell_load_Done in Hload. cbn [cells] in Hload. rewrite nth_error_map in Hload.
  destruct (nth_error slots' cell) as [[c |] |] eqn:Hnth; simpl in Hload; try discriminate.
  unfold parse_table_from_content in Hparse.
  refine (parse_table_lines_visited _ {| cells := []; rows := R; cols := C |}
            _ _ _ _ _ _ (Z.le_refl 0) _ Hparse cell c Hnth).
  intros n c' Hn. apply nth_error_In, repeat_spec in Hn. discriminate.
Qed.

End LoaderVisits.

(** X16: what [main] has printed when it returns is the table it ends with,
    printed row by row: for each row the cells in order, a text as it is, a
    number or the cached value of a formula as a number, a bar after every
    cell but the last of the row, and a newline after the row.  Printing each
    cell as soon as it is evaluated gives what printing after all the
    evaluations would give; the table [main] ends with is the loaded one with
    every formula evaluated, nothing else changed. *)
Theorem main_output (strtod : string -> float * nat) (strtol : string -> Z * nat)
    (fuel : nat) (content : string) (out : list Output) (table' : Table) :
  main strtod strtol fuel content = (out, Done table') ->
  out = render table' /\
  exists table eb,
    main_load strtod strtol content = Done (table, eb) /\
    table_step table table' /\
    forall cell index status value,
      cell_load table cell = Done (CELL_KIND_EXPR index status value) ->
      exists cached,
        cell_load table' cell = Done (CELL_KIND_EXPR index EVALUATED cached).
Proof.
  unfold main. intros H.
  destruct (main_load strtod strtol content) as [[table eb] | why |] eqn:Hload;
    try discriminate.
  destruct (main_rows_output _ _ _ _ _ _ _ H) as (Hstep & Hout).
  split.
  { rewrite Hout. unfold render. destruct Hstep as (-> & _). reflexivity. }
  exists table, eb. split; [reflexivity |]. split; [exact Hstep |].
  intros cell index status value Hcell.
  pose proof (main_rows_cells _ _ _ _ _ _ _ H) as Hcells.
  fold (main_visit table) in Hcells.
  pose proof (main_load_visited strtod strtol content table eb Hload _ _ _ _ Hcell) as Hin.
  exact (table_eval_cells_evaluated _ _ _ _ _ _ _ _ _ Hcells Hin Hcell).
Qed.

Lemma main_output_witness :
  let out := [PRINT_NUMBER 1%float; PRINT_BAR; PRINT_NUMBER 3%float; PRINT_NEWLINE;
              PRINT_TEXT "hi"; PRINT_BAR; PRINT_TEXT ""; PRINT_NEWLINE] in
  let table' := {| cells := [CELL_KIND_NUMBER 1%float; CELL_KIND_EXPR 2 EVALUATED 3%float;
                             CELL_KIND_TEXT "hi"; CELL_KIND_TEXT ""];
                   rows := 2; cols := 2 |} in
  main Libc.strtod Libc.strtol 30 content_sum = (out, Done table') /\
  out = render table' /\
  exists table eb,
    main_load Libc.strtod Libc.strtol content_sum = Done (table, eb) /\
    table_step table table' /\
    forall cell index status value,
      cell_load table cell = Done (CELL_KIND_EXPR index status value) ->
      exists cached,
        cell_load table' cell = Done (CELL_KIND_EXPR index EVALUATED cached).
Proof.
  intros out table'.
  assert (H : main Libc.strtod Libc.strtol 30 content_sum = (out, Done table'))
    by (vm_compute; reflexivity).
  split; [exact H |].
  exact (main_output Libc.strtod Libc.strtol 30 content_sum out table' H).
Defined.

(** X17: what [main] prints for a formula is the value the formula denotes.
    If [main] returns, on a content of fewer than [2^29] characters, then in
    the table it ends with (the one it has printed, cell by cell) every text
    and every number is as it was loaded, and every formula cell is evaluated
    and holds the value that its expression denotes in the loaded table: the
    number of a number node, the number or the value of the formula of the
    cell referred to, the sum of the two sides. *)
Theorem main_values (strtod : string -> float * nat) (strtol : string -> Z * nat)
    (fuel : nat) (content : string) (out : list Output) (table' : Table) :
  Z.of_nat (String.length content) < 2 ^ 29 ->
  main strtod strtol fuel content = (out, Done table') ->
  exists table eb,
    main_load strtod strtol content = Done (table, eb) /\
    forall cell c,
      cell_load table cell = Done c ->
      match c with
      | CELL_KIND_EXPR index _ _ =>
          exists value,
            cell_load table' cell = Done (CELL_KIND_EXPR index EVALUATED value) /\
            expr_value eb table index value
      | _ => cell_load table' cell = Done c
      end.
Proof.
  intros Hlen H. unfold main in H.
  pose proof (main_load_loaded strtod strtol content Hlen) as Hload.
  destruct (main_load strtod strtol content) as [[table eb] | why |]; try discriminate.
  destruct Hload as (Hloaded & Hstatus & _).
  exists table, eb. split; [reflexivity |].
  pose proof (main_rows_cells _ _ _ _ _ _ _ H) as Hcells.
  fold (main_visit table) in Hcells.
  assert (Hcache : caches_agree eb table table).
  { intros cell expr cached Hc. pose proof (Hstatus _ _ _ _ Hc). discriminate. }
  destruct (table_eval_cells_value_in fuel eb table (main_visit table) table table'
              (same_formulas_refl table) Hcache Hcells) as [_ Hcache'].
  pose proof (table_eval_cells_table_step _ _ _ _ _ Hcells) as Hstep.
  intros cell c Hc.
  destruct c as [text | number | index status value].
  - exact (table_step_settled _ _ _ _ Hstep Hc eq_refl).
  - exact (table_step_settled _ _ _ _ Hstep Hc eq_refl).
  - assert (Hin : In cell (main_visit table)).
    { apply (main_visit_all table eb Hloaded). apply cell_load_length. eauto. }
    destruct (table_eval_cells_evaluated _ _ _ _ _ _ _ _ _ Hcells Hin Hc) as [cached Hcached].
    exists cached. split; [exact Hcached | exact (Hcache' _ _ _ Hcached)].
Qed.

Lemma main_values_witness :
  let out := [PRINT_NUMBER 1%float; PRINT_BAR; PRINT_NUMBER 3%float; PRINT_NEWLINE;
              PRINT_TEXT "hi"; PRINT_BAR; PRINT_TEXT ""; PRINT_NEWLINE] in
  let table' := {| cells := [CELL_KIND_NUMBER 1%float; CELL_KIND_EXPR 2 EVALUATED 3%float;
                             CELL_KIND_TEXT "hi"; CELL_KIND_TEXT ""];
                   rows := 2; cols := 2 |} in
  Z.of_nat (String.length content_sum) < 2 ^ 29 /\
  main Libc.strtod Libc.strtol 30 content_sum = (out, Done table') /\
  exists table eb,
    main_load Libc.strtod Libc.strtol content_sum = Done (table, eb) /\
    forall cell c,
      cell_load table cell = Done c ->
      match c with
      | CELL_KIND_EXPR index _ _ =>
          exists value,
            cell_load table' cell = Done (CELL_KIND_EXPR index EVALUATED value) /\
            expr_value eb table index value
      | _ => cell_load table' cell = Done c
      end.
Proof.
  intros out table'.
  assert (Hlen : Z.of_nat (String.length content_sum) < 2 ^ 29) by (vm_compute; reflexivity).
  assert (H : main Libc.strtod Libc.strtol 30 content_sum = (out, Done table'))
    by (vm_compute; reflexivity).
  split; [exact Hlen |]. split; [exact H |].
  exact (main_values Libc.strtod Libc.strtol 30 content_sum out table' Hlen H).
Defined.

(** ** The size of the table *)

Lemma sv_split_chop (delim : ascii) (sv : string) :
  sv <> EmptyString ->
  forall field rest,
    sv_chop_by_delim sv delim = (field, rest) ->
    sv_split delim sv = field :: sv_split delim rest.
Proof.
  induction sv as [| c more IH]; intros Hne field rest H; [contradiction |].
  simpl in H |- *. destruct (Ascii.eqb c delim).
  - injection H as <- <-. reflexivity.
  - destruct (sv_chop_by_delim more delim) as [a b] eqn:Hchop.
    injection H as <- <-.
    destruct more as [| c' more'].
    + simpl in Hchop. injection Hchop as <- <-. reflexivity.
    + rewrite (IH ltac:(discriminate) _ _ eq_refl). reflexivity.
Qed.

Lemma estimate_line_spec (fuel : nat) :
  forall (col : Z) (line : string) (c : Z),
    estimate_line fuel col line = Done c -> 0 <= col ->
    col + Z.of_nat (String.length line) < 2 ^ SIZE_WIDTH ->
    c = col + Z.of_nat (List.length (sv_split "|" line)).
Proof.
  induction fuel as [| fuel IH]; intros col line c Hest Hcol Hsmall; [discriminate |].
  destruct line as [| a rest].
  - simpl in Hest. injection Hest as <-. simpl. lia.
  - rewrite estimate_line_step in Hest.
    destruct (sv_chop_by_delim (String a rest) "|") as [field line'] eqn:Hchop.
    destruct (sv_chop_by_delim_length _ _ _ _ Hchop) as [_ Hless].
    specialize (Hless ltac:(discriminate)).
    rewrite (sv_split_chop "|" (String a rest) ltac:(discriminate) _ _ Hchop).
    rewrite size_t_small in Hest by lia.
    rewrite (IH _ _ _ Hest) by lia. cbn [List.length]. lia.
Qed.

Lemma estimate_lines_spec (fuel : nat) :
  forall (rows cols : Z) (content : string) (R C : Z),
    estimate_lines fuel rows cols content = Done (R, C) -> 0 <= rows -> 0 <= cols ->
    rows + Z.of_nat (String.length content) < 2 ^ SIZE_WIDTH ->
    R = rows + Z.of_nat (List.length (sv_split "010" content)) /\
    C = Z.max cols (Z.of_nat (most_fields (sv_split "010" content))).
Proof.
  induction fuel as [| fuel IH]; intros rows cols content R C Hest Hrows Hcols Hsmall;
    [discriminate |].
  destruct content as [| a rest].
  - simpl in Hest. injection Hest as <- <-. unfold most_fields. simpl. lia.
  - rewrite estimate_lines_step in Hest.
    destruct (sv_chop_by_delim (String a rest) "010") as [line content'] eqn:Hchop.
    destruct (sv_chop_by_delim_length _ _ _ _ Hchop) as [Hle Hless].
    specialize (Hless ltac:(discriminate)).
    rewrite (sv_split_chop "010" (String a rest) ltac:(discriminate) _ _ Hchop).
    apply bind_Done in Hest. destruct Hest as (col & Hcol & Hest).
    apply estimate_line_spec in Hcol; [| lia | lia].
    rewrite size_t_small in Hest by lia.
    destruct (IH _ _ _ _ _ Hest) as [HR HC]; [lia | destruct (cols <? col); lia | lia |].
    unfold most_fields, list_max in *. cbn [List.length map fold_right].
    split; [lia |].
    destruct (Z.ltb_spec cols col); lia.
Qed.


(** X18: the size [estimate_table_size] gives.  For a content of fewer than
    [2^62] characters it returns the number of lines of the content (the
    pieces between the newlines, a newline at the very end opening no line)
    as the number of rows, and the greatest number of fields in a line (the
    pieces between the bars, a bar at the very end of a line opening no
    field) as the number of columns. *)
Theorem estimate_table_size_spec (content : string) :
  Z.of_nat (String.length content) < 2 ^ 62 ->
  estimate_table_size content =
    Done (Z.of_nat (List.length (sv_split "010" content)),
          Z.of_nat (most_fields (sv_split "010" content))).
Proof.
  intros Hlen. change (2 ^ 62) with 4611686018427387904 in Hlen.
  unfold estimate_table_size.
  destruct (estimate_lines_Done (S (String.length content)) 0 0 content)
    as (R & C & Hest & _); try lia.
  { rewrite size_max. lia. }
  rewrite Hest.
  destruct (estimate_lines_spec _ _ _ _ _ _ Hest) as [-> ->];
    [lia | lia | rewrite size_max; lia |].
  f_equal. f_equal; lia.
Qed.

Lemma estimate_table_size_spec_witness :
  Z.of_nat (String.length content_sum) < 2 ^ 62 /\
  sv_split "010" content_sum = ["1|=A0+2"; "hi"]%string /\
  estimate_table_size content_sum =
    Done (Z.of_nat (List.length (sv_split "010" content_sum)),
          Z.of_nat (most_fields (sv_split "010" content_sum))) /\
  estimate_table_size content_sum = Done (2, 2).
Proof.
  assert (Hlen : Z.of_nat (String.length content_sum) < 2 ^ 62) by (vm_compute; reflexivity).
  split; [exact Hlen |]. split; [reflexivity |].
  split; [exact (estimate_table_size_spec content_sum Hlen) | reflexivity].
Defined.

(** ** The cells of the loaded table *)

Section LoaderCells.

Variable strtod : string -> float * nat.
Variable strtol : string -> Z * nat.








End LoaderCells.


(** ** [dump_expr] writes the tree in pre-order *)

Lemma int_small (z : Z) : INT_MIN <= z <= INT_MAX -> int z = Done z.
Proof.
  intros [Hmin Hmax]. unfold int.
  destruct (Z.leb_spec INT_MIN z); [| lia].
  destruct (Z.leb_spec z INT_MAX); [reflexivity | lia].
Qed.

(** X20: [dump_expr] writes the tree of an expression in pre-order.  For an
    index that is the root of a tree in the arena, a level that is not
    negative and small enough for [int], it returns after writing, after what
    the stream held, for each node the padding of twice its depth (counted
    from [level]) and then its line: the node itself, then all of its left
    side, then all of its right side. *)
Theorem dump_expr_tree (tree : Expr_Tree) :
  forall (eb : Expr_Buffer) (index : Expr_Index) (level : Z) (out : list Dump) (fuel : nat),
    expr_is_tree eb index tree ->
    0 <= level -> level + Z.of_nat (tree_depth tree) < 2 ^ 30 ->
    (tree_depth tree < fuel)%nat ->
    dump_expr fuel eb index level out = (out ++ dump_tree tree level, Done tt).
Proof.
  induction tree as [number | row col | lhs IHl rhs IHr];
    intros eb index level out fuel Htree Hlevel Hsmall Hfuel;
    (destruct fuel as [| fuel]; [lia |]);
    change (2 ^ 30) with 1073741824 in Hsmall;
    cbn [dump_expr].
  - rewrite int_small by (unfold INT_MIN, INT_MAX; lia).
    destruct Htree as [_ ->]. simpl. rewrite <- app_assoc. reflexivity.
  - rewrite int_small by (unfold INT_MIN, INT_MAX; lia).
    destruct Htree as [_ ->]. simpl. rewrite <- app_assoc. reflexivity.
  - cbn [tree_depth] in Hsmall, Hfuel.
    rewrite int_small by (unfold INT_MIN, INT_MAX; lia).
    destruct Htree as (_ & l & r & -> & Hl & Hr).
    rewrite int_small by (unfold INT_MIN, INT_MAX; lia).
    rewrite (IHl eb l (level + 1) _ fuel Hl) by lia.
    rewrite (IHr eb r (level + 1) _ fuel Hr) by lia.
    cbn [dump_tree]. rewrite <- !app_assoc. reflexivity.
Qed.

Lemma dump_expr_tree_witness :
  let eb := arena_of (parse "A1+2" Expr_Buffer_zero) in
  let tree := TREE_PLUS (TREE_CELL 1 0) (TREE_NUMBER 2%float) in
  expr_is_tree eb 2 tree /\ 0 <= 0 /\ 0 + Z.of_nat (tree_depth tree) < 2 ^ 30 /\
  (tree_depth tree < 2)%nat /\
  dump_expr 2 eb 2 0 [] =
    ([DUMP_INDENT 0; DUMP_PLUS; DUMP_INDENT 2; DUMP_CELL 1 0; DUMP_INDENT 2;
      DUMP_NUMBER 2%float], Done tt).
Proof.
  intros eb tree.
  assert (Htree : expr_is_tree eb 2 tree).
  { split; [lia |]. exists 0, 1. repeat split; try lia; vm_compute; reflexivity. }
  assert (Hlevel : 0 <= 0) by lia.
  assert (Hsmall : 0 + Z.of_nat (tree_depth tree) < 2 ^ 30) by (vm_compute; reflexivity).
  assert (Hfuel : (tree_depth tree < 2)%nat) by (simpl; lia).
  split; [exact Htree |]. split; [exact Hlevel |]. split; [exact Hsmall |].
  split; [exact Hfuel |].
  exact (dump_expr_tree tree eb 2 0 [] 2 Htree Hlevel Hsmall Hfuel).
Defined.

(** ** A NUL in a view *)

Lemma tmp_cstr_fill_nul (sv rest : string) :
  no_nul sv = true ->
  tmp_cstr_fill (sv ++ String Ascii.zero rest) = sv /\ tmp_cstr_fill sv = sv.
Proof.
  unfold no_nul. induction sv as [| c more IH]; simpl; intros H.
  - split; reflexivity.
  - apply andb_true_iff in H. destruct H as [Hc Hmore].
    destruct (Ascii.eqb c Ascii.zero); [discriminate |].
    destruct (IH Hmore) as [-> ->]. split; reflexivity.
Qed.

(** X21: a NUL in a view ends what the conversions see.  [tmp_cstr_fill]
    copies the view and the C library reads the copy as a C string, so that
    [sv_strtod] and [sv_strtol] give for a view with a NUL in it what they
    give for the characters before the first NUL: a field [12], a NUL and
    anything after it is the number 12. *)
Theorem sv_strtod_nul (strtod : string -> float * nat) (strtol : string -> Z * nat)
    (sv rest : string) :
  no_nul sv = true ->
  sv_strtod strtod (sv ++ String Ascii.zero rest) = sv_strtod strtod sv /\
  sv_strtol strtol (sv ++ String Ascii.zero rest) = sv_strtol strtol sv.
Proof.
  intros Hsv. unfold sv_strtod, sv_strtol.
  destruct (tmp_cstr_fill_nul sv rest Hsv) as [-> ->]. split; reflexivity.
Qed.

Lemma sv_strtod_nul_witness :
  no_nul "12" = true /\
  sv_strtod Libc.strtod ("12" ++ String Ascii.zero "abc") = (12%float, true) /\
  sv_strtod Libc.strtod ("12" ++ String Ascii.zero "abc") = sv_strtod Libc.strtod "12" /\
  sv_strtol Libc.strtol ("12" ++ String Ascii.zero "abc") = sv_strtol Libc.strtol "12".
Proof.
  assert (H : no_nul "12" = true) by reflexivity.
  split; [exact H |]. split; [vm_compute; reflexivity |].
  exact (sv_strtod_nul Libc.strtod Libc.strtol "12" "abc" H).
Defined.

(** ** The layout of the cells *)

(** X22: the cells are laid out row by row, and no two coordinates share a
    cell.  In a table of fewer than [2^64] cells, [table_cell_at] gives for
    coordinates inside the table the offset [row * cols + col], which is
    below [rows * cols]; and coordinates inside the table that get the same
    cell are the same coordinates. *)
Theorem table_cell_at_layout (table : Table) (row col : Z) :
  0 <= row < rows table -> 0 <= col < cols table ->
  rows table * cols table < 2 ^ SIZE_WIDTH ->
  table_cell_at table row col = Done (Z.to_nat (row * cols table + col)) /\
  Z.of_nat (Z.to_nat (row * cols table + col)) < rows table * cols table /\
  forall row' col',
    0 <= row' < rows table -> 0 <= col' < cols table ->
    table_cell_at table row' col' = table_cell_at table row col ->
    row' = row /\ col' = col.
Proof.
  intros Hrow Hcol Hsmall.
  assert (Hin : 0 <= row * cols table + col < rows table * cols table) by nia.
  rewrite (table_cell_at_inside table row col Hrow Hcol), size_t_small by lia.
  split; [reflexivity |]. split; [lia |].
  intros row' col' Hrow' Hcol' Hsame.
  assert (Hin' : 0 <= row' * cols table + col' < rows table * cols table) by nia.
  rewrite (table_cell_at_inside table row' col' Hrow' Hcol'), size_t_small in Hsame by lia.
  injection Hsame as Hsame.
  assert (Heq : row' * cols table + col' = row * cols table + col) by lia.
  assert (Hr : row' = row) by nia.
  subst row'. split; [reflexivity | lia].
Qed.

Lemma table_cell_at_layout_witness :
  let table := the_table table_fan_in in
  0 <= 0 < rows table /\ 0 <= 2 < cols table /\
  rows table * cols table < 2 ^ SIZE_WIDTH /\
  table_cell_at table 0 2 = Done (Z.to_nat (0 * cols table + 2)) /\
  Z.of_nat (Z.to_nat (0 * cols table + 2)) < rows table * cols table /\
  forall row' col',
    0 <= row' < rows table -> 0 <= col' < cols table ->
    table_cell_at table row' col' = table_cell_at table 0 2 ->
    row' = 0 /\ col' = 2.
Proof.
  intros table.
  assert (Hrow : 0 <= 0 < rows table) by (vm_compute; split; [discriminate | reflexivity]).
  assert (Hcol : 0 <= 2 < cols table) by (vm_compute; split; [discriminate | reflexivity]).
  assert (Hsmall : rows table * cols table < 2 ^ SIZE_WIDTH) by (vm_compute; reflexivity).
  split; [exact Hrow |]. split; [exact Hcol |]. split; [exact Hsmall |].
  exact (table_cell_at_layout table 0 2 Hrow Hcol Hsmall).
Defined.

(** ** Whitespace before a formula *)

Lemma sv_trim_left_space (space source : string) :
  all_space space = true -> sv_trim_left (space ++ source) = sv_trim_left source.
Proof.
  induction space as [| c rest IH]; simpl; intros H; [reflexivity |].
  apply andb_true_iff in H. destruct H as [-> Hrest]. exact (IH Hrest).
Qed.

Lemma next_token_space (space source : string) :
  all_space space = true -> next_token (space ++ source) = next_token source.
Proof.
  intros H. unfold next_token, sv_trim. rewrite (sv_trim_left_space _ _ H). reflexivity.
Qed.

Section ParserSpace.

Variable strtod : string -> float * nat.
Variable strtol : string -> Z * nat.

(** X23: whitespace before a formula is ignored.  [parse_expr] gives for a
    formula with any number of whitespace characters put before it what it
    gives for the formula: the same index, the same view left and the same
    arena, or the same diagnostic. *)
Theorem parse_expr_leading_space (space source : string) (eb : Expr_Buffer) :
  all_space space = true ->
  parse_expr strtod strtol (space ++ source) eb = parse_expr strtod strtol source eb.
Proof.
  intros Hspace.
  rewrite <- (parse_plus_expr_enough strtod strtol (S (String.length (space ++ source)))
                source eb) by (rewrite sv_length_app; lia).
  unfold parse_expr. cbn [parse_plus_expr]. unfold parse_primary_expr.
  rewrite (next_token_space _ _ Hspace). reflexivity.
Qed.

End ParserSpace.

Lemma parse_expr_leading_space_witness :
  all_space "  " = true /\
  parse_expr Libc.strtod Libc.strtol ("  " ++ "A1+2") Expr_Buffer_zero
    = parse_expr Libc.strtod Libc.strtol "A1+2" Expr_Buffer_zero.
Proof.
  assert (H : all_space "  " = true) by reflexivity.
  split; [exact H |].
  exact (parse_expr_leading_space Libc.strtod Libc.strtol "  " "A1+2" Expr_Buffer_zero H).
Defined.

(** ** The diagnostics for references are raised for bad references only *)

Lemma same_formulas_text (table table' : Table) (cell : nat) (text : string) :
  same_formulas table table' ->
  cell_load table cell = Done (CELL_KIND_TEXT text) ->
  cell_load table' cell = Done (CELL_KIND_TEXT text).
Proof.
  intros (_ & _ & H) Hload. specialize (H cell). rewrite Hload in H.
  destruct (cell_load table' cell) as [[| |] | |]; simpl in H; congruence.
Qed.

Lemma table_eval_cell_with_reference
    (f : Table -> Expr_Buffer -> Expr_Index -> outcome (float * Table))
    (eb : Expr_Buffer) (base table : Table) (cell : nat) (why : Failure) :
  (forall t i,
      same_formulas base t -> f t eb i = Stop why ->
      exists last, expr_leads eb base i last /\ bad_reference eb base last why) ->
  same_formulas base table ->
  is_reference_error why = true ->
  table_eval_cell_with f table eb cell = Stop why ->
  exists index status value last,
    cell_load base cell = Done (CELL_KIND_EXPR index status value) /\
    expr_leads eb base index last /\ bad_reference eb base last why.
Proof.
  intros Hf Hsame Hwhy H. unfold table_eval_cell_with in H.
  apply bind_Stop in H. destruct H as [H | (c & Hload & H)].
  { apply cell_load_Stop in H. subst why. discriminate. }
  destruct c as [text | number | index status value]; try discriminate.
  destruct status; [| injection H as <-; discriminate | discriminate].
  apply bind_Stop in H. destruct H as [H | (t1 & Hmark & H)].
  { apply cell_set_status_Stop in H. subst why. discriminate. }
  apply cell_set_status_Done in Hmark.
  destruct Hmark as (index0 & status0 & value0 & Hload0 & ->).
  rewrite Hload in Hload0. injection Hload0 as <- <- <-.
  destruct (same_formulas_formula _ _ _ _ _ _ (same_formulas_sym _ _ Hsame) Hload)
    as (status' & value' & Hbase).
  apply bind_Stop in H. destruct H as [H | ([v t2] & _ & H)].
  - destruct (Hf _ _ (same_formulas_trans _ _ _ Hsame
                        (same_formulas_store _ _ _ _ INPROGRESS _ value Hload)) H)
      as (last & Hleads & Hbad).
    exists index, status', value', last. auto.
  - apply bind_Stop in H. destruct H as [H | (t3 & _ & H)].
    + apply cell_set_value_Stop in H. subst why. discriminate.
    + apply cell_set_status_Stop in H. subst why. discriminate.
Qed.

Lemma table_eval_expr_reference (fuel : nat) :
  forall (eb : Expr_Buffer) (base table : Table) (index : Expr_Index) (why : Failure),
    same_formulas base table ->
    is_reference_error why = true ->
    table_eval_expr fuel table eb index = Stop why ->
    exists last, expr_leads eb base index last /\ bad_reference eb base last why.
Proof.
  induction fuel as [| fuel IH]; intros eb base table index why Hsame Hwhy H;
    [discriminate |].
  simpl in H.
  apply bind_Stop in H. destruct H as [H | (p & Hat & H)].
  { unfold expr_buffer_at, assert in H. destruct (index <? count eb); [discriminate |].
    simpl in H. injection H as <-. discriminate. }
  pose proof (expr_buffer_at_Done _ _ _ Hat) as ->.
  apply bind_Stop in H. destruct H as [H | (e & Hload & H)].
  { unfold expr_load in H.
    destruct (nth_error (items eb) (Z.to_nat index)) as [[|] |]; try discriminate;
      injection H as <-; discriminate. }
  assert (He : expr_at eb index = Done e) by (apply expr_at_steps; auto).
  destruct e as [number | row col | lhs rhs]; [discriminate | |].
  - apply bind_Stop in H. destruct H as [H | (cell & Hcell & H)].
    { rewrite (same_formulas_cell_at _ _ row col Hsame) in H.
      exists index. split; [apply leads_here |].
      exact (bad_coordinates eb base index row col why He H). }
    rewrite (same_formulas_cell_at _ _ row col Hsame) in Hcell.
    apply bind_Stop in H. destruct H as [H | (c & Hc & H)].
    { apply cell_load_Stop in H. subst why. discriminate. }
    destruct c as [text | number | expr status value]; [| discriminate |].
    + injection H as <-. exists index. split; [apply leads_here |].
      exact (bad_text eb base index row col cell text He Hcell
               (same_formulas_text _ _ _ _ (same_formulas_sym _ _ Hsame) Hc)).
    + apply bind_Stop in H. destruct H as [H | (t1 & _ & H)].
      * destruct (table_eval_cell_with_reference (table_eval_expr fuel) eb base table cell why)
          as (k & status' & value' & last & Hbase & Hleads & Hbad); auto.
        { intros t i Ht Hrun. exact (IH _ _ _ _ _ Ht Hwhy Hrun). }
        exists last. split; [| exact Hbad].
        eapply leads_on; [| exact Hleads].
        exact (refers_cell eb base index row col cell k status' value' He Hcell Hbase).
      * apply bind_Stop in H. destruct H as [H | (c1 & _ & H)].
        -- apply cell_load_Stop in H. subst why. discriminate.
        -- destruct c1; try discriminate; injection H as <-; discriminate.
  - apply bind_Stop in H. destruct H as [H | ([a t1] & Hlhs & H)].
    + destruct (IH _ _ _ _ _ Hsame Hwhy H) as (last & Hleads & Hbad).
      exists last. split; [| exact Hbad].
      eapply leads_on; [exact (refers_lhs _ _ _ _ _ He) | exact Hleads].
    + apply bind_Stop in H. destruct H as [H | ([b t2] & _ & H)]; [| discriminate].
      pose proof (table_eval_expr_table_step _ _ _ _ _ _ Hlhs) as Hstep.
      destruct (IH _ _ _ _ _ (same_formulas_trans _ _ _ Hsame (table_step_same _ _ Hstep))
                  Hwhy H) as (last & Hleads & Hbad).
      exists last. split; [| exact Hbad].
      eapply leads_on; [exact (refers_rhs _ _ _ _ _ He) | exact Hleads].
Qed.

(** X24: the diagnostics for references are never false alarms.  If
    [table_eval_cell] ends the run because a text cell takes part in a
    formula, or with an assertion of [table_cell_at], then the cell is a
    formula and from its expression the dependencies (the sides of sums, the
    formulas of the cells referred to) lead to a reference that is bad in the
    table the call started from: a reference to a text cell in the first
    case, one whose row or column is outside the table in the second. *)
Theorem table_eval_cell_bad_reference (fuel : nat) (eb : Expr_Buffer) (table : Table)
    (cell : nat) (why : Failure) :
  is_reference_error why = true ->
  table_eval_cell fuel table eb cell = Stop why ->
  exists index status value last,
    cell_load table cell = Done (CELL_KIND_EXPR index status value) /\
    expr_leads eb table index last /\ bad_reference eb table last why.
Proof.
  intros Hwhy H.
  apply (table_eval_cell_with_reference (table_eval_expr fuel) eb table table cell why);
    [| apply same_formulas_refl | exact Hwhy | exact H].
  intros t i Ht Hrun. exact (table_eval_expr_reference fuel _ _ _ _ _ Ht Hwhy Hrun).
Qed.

Lemma table_eval_cell_bad_reference_witness :
  let table := the_table table_text in
  let eb := the_arena table_text in
  is_reference_error ERROR_text_in_math = true /\
  table_eval_cell 4 table eb 1 = Stop ERROR_text_in_math /\
  exists index status value last,
    cell_load table 1 = Done (CELL_KIND_EXPR index status value) /\
    expr_leads eb table index last /\ bad_reference eb table last ERROR_text_in_math.
Proof.
  intros table eb.
  assert (Hwhy : is_reference_error ERROR_text_in_math = true) by reflexivity.
  assert (H : table_eval_cell 4 table eb 1 = Stop ERROR_text_in_math)
    by (vm_compute; reflexivity).
  split; [exact Hwhy |]. split; [exact H |].
  exact (table_eval_cell_bad_reference 4 eb table 1 ERROR_text_in_math Hwhy H).
Defined.
